(** * A log-structured key-value store: entry codec, segments, recovery

    Shallow embedding of the Go package [datastore]: the entry codec of
    [entry.go], the serializer-based engine (one writer goroutine, a request
    channel, a reader/writer lock), the plain sequential engine that the
    repository keeps after the server code, and the HTTP handlers that
    [cmd/db] puts in front of the store.

    Conventions of the embedding:
    - Go's [string] and [[]byte] are both [list byte]; conversions between
      them keep the bytes, so they are the identity here.
    - Go's [int] is the 64-bit [int] of the usual platforms.  Lengths and
      offsets are natural numbers ([nat]); no length in this program can
      reach [2^63], so [int] arithmetic on them never wraps.  The 32-bit
      fields of a record are integers of [Z] reduced modulo [2^32], as
      the conversion [uint32(...)] does.
    - A segment id is an integer of [Z] and [db.currentSegmentId++] is
      [+ 1]: this is the step of [int] for every id below [2^63 - 1], the
      largest [int], where Go wraps around.  A store that starts from an
      empty directory has the ids 1, 2, ...; a statement that lets an
      engine in an arbitrary state rotate assumes the id below [2^63 - 1].
    - A byte slice has its capacity equal to its length (this is so for
      the result of [make([]byte, n)] and of [Encode]); slicing past the
      length is then Go's run-time panic, the outcome [Panic] below.  With a
      larger capacity [Decode] would panic on the same buffers, one statement
      later ([input[lo:]] is checked against the length).
    - The file system is a finite map from file names to contents.  Its
      operations fail only for the reasons the model can express (a missing
      file, a closed handle); disk errors are outside the model, and a read
      of a regular file returns as many bytes as were asked for when the
      file has them.
    - Of an HTTP request the handlers see the method, the path and what the
      JSON decoder makes of the body; of a response, the status and the
      content. *)

From Stdlib Require Import ZArith Lia.
From Stdlib Require Import Strings.Byte Numbers.DecimalString Numbers.DecimalZ.
From Stdlib Require Import Strings.Ascii.
From stdpp Require Import gmap strings list sorting.

Local Open Scope Z_scope.

(** ** Bytes *)

Abbreviation byte := Byte.byte.

#[global] Instance byte_eq_dec : EqDecision byte := Byte.byte_eq_dec.

Definition byte_of_N (n : N) : byte := default Byte.x00 (Byte.of_N n).

Lemma byte_of_to_N (b : byte) : byte_of_N (Byte.to_N b) = b.
Proof. unfold byte_of_N. by rewrite Byte.of_to_N. Qed.

#[global] Instance byte_countable : Countable byte :=
  inj_countable' Byte.to_N byte_of_N byte_of_to_N.

Definition byte_to_Z (b : byte) : Z := Z.of_N (Byte.to_N b).

(** [byte(x)]: the low eight bits of [x]. *)
Definition byte_of_Z (x : Z) : byte := byte_of_N (Z.to_N (x mod 256)).

Definition bytes_of_string (s : string) : list byte :=
  String.list_byte_of_string s.

(** ** [encoding/binary]: little-endian and big-endian 32-bit words *)

(** [uint32(n)] for a non-negative [int]. *)
Definition uint32 (n : nat) : Z := Z.of_nat n mod 2 ^ 32.

(** The four bytes [binary.LittleEndian.PutUint32] stores. *)
Definition le32 (v : Z) : list byte :=
  [byte_of_Z v; byte_of_Z (Z.shiftr v 8);
   byte_of_Z (Z.shiftr v 16); byte_of_Z (Z.shiftr v 24)].

Definition be32 (v : Z) : list byte :=
  [byte_of_Z (Z.shiftr v 24); byte_of_Z (Z.shiftr v 16);
   byte_of_Z (Z.shiftr v 8); byte_of_Z v].

Definition le32_value (b0 b1 b2 b3 : byte) : Z :=
  Z.lor (byte_to_Z b0)
    (Z.lor (Z.shiftl (byte_to_Z b1) 8)
       (Z.lor (Z.shiftl (byte_to_Z b2) 16) (Z.shiftl (byte_to_Z b3) 24))).

Definition be32_value (b0 b1 b2 b3 : byte) : Z := le32_value b3 b2 b1 b0.

(** ** [crypto/sha1] *)

Module sha1.

Definition Size : nat := 20.

Definition w32 (x : Z) : Z := x mod 2 ^ 32.

Definition rotl (n x : Z) : Z :=
  w32 (Z.lor (Z.shiftl x n) (Z.shiftr x (32 - n))).

Definition be64 (v : Z) : list byte :=
  be32 (Z.shiftr v 32) ++ be32 v.

(** The message followed by [0x80], zeros up to 56 modulo 64, and the
    bit length as a 64-bit big-endian integer. *)
Definition pad (msg : list byte) : list byte :=
  let len := length msg in
  let zeros := ((119 - len mod 64) mod 64)%nat in
  msg ++ Byte.x80 :: replicate zeros Byte.x00
      ++ be64 ((8 * Z.of_nat len) mod 2 ^ 64).

Fixpoint words (bs : list byte) : list Z :=
  match bs with
  | b0 :: b1 :: b2 :: b3 :: rest => be32_value b0 b1 b2 b3 :: words rest
  | _ => []
  end.

Record digest := Digest { h0 : Z; h1 : Z; h2 : Z; h3 : Z; h4 : Z }.

Definition init : digest :=
  Digest 0x67452301 0xEFCDAB89 0x98BADCFE 0x10325476 0xC3D2E1F0.

Definition f (t : nat) (b c d : Z) : Z :=
  if (t <? 20)%nat then Z.lor (Z.land b c) (Z.land (w32 (Z.lnot b)) d)
  else if (t <? 40)%nat then Z.lxor b (Z.lxor c d)
  else if (t <? 60)%nat then
    Z.lor (Z.land b c) (Z.lor (Z.land b d) (Z.land c d))
  else Z.lxor b (Z.lxor c d).

Definition K (t : nat) : Z :=
  if (t <? 20)%nat then 0x5A827999
  else if (t <? 40)%nat then 0x6ED9EBA1
  else if (t <? 60)%nat then 0x8F1BBCDC
  else 0xCA62C1D6.

(** One round; [win] holds the sixteen most recent schedule words, the
    oldest first. *)
Definition round (st : digest * list Z) (t : nat) : digest * list Z :=
  let '(Digest a b c d e, win) := st in
  let w :=
    if (t <? 16)%nat then nth t win 0
    else rotl 1 (Z.lxor (nth 13 win 0)
                   (Z.lxor (nth 8 win 0) (Z.lxor (nth 2 win 0) (nth 0 win 0)))) in
  let win' := if (t <? 16)%nat then win else tail win ++ [w] in
  let tmp := w32 (rotl 5 a + f t b c d + e + w + K t) in
  (Digest tmp a (rotl 30 b) c d, win').

Definition block (h : digest) (ws : list Z) : digest :=
  let '(Digest a b c d e, _) := foldl round (h, ws) (seq 0 80) in
  Digest (w32 (h0 h + a)) (w32 (h1 h + b)) (w32 (h2 h + c))
         (w32 (h3 h + d)) (w32 (h4 h + e)).

Fixpoint blocks (n : nat) (h : digest) (ws : list Z) : digest :=
  match n with
  | O => h
  | S n' => blocks n' (block h (take 16 ws)) (drop 16 ws)
  end.

(** [sha1.Sum(data)]. *)
Definition Sum (data : list byte) : list byte :=
  let p := pad data in
  let '(Digest a b c d e) := blocks (length p / 64) init (words p) in
  be32 a ++ be32 b ++ be32 c ++ be32 d ++ be32 e.

End sha1.

Local Close Scope Z_scope.

(** ** Outcomes: a Go call returns, panics, or never resumes *)

(** [Blocked]: the calling goroutine waits for ever (a channel operation or
    a lock that no other goroutine will complete). *)
Inductive outcome (A : Type) : Type :=
  | Ret (a : A)
  | Panic
  | Blocked.
Arguments Ret {A} a.
Arguments Panic {A}.
Arguments Blocked {A}.

#[global] Instance outcome_bind : MBind outcome := fun A B k m =>
  match m with
  | Ret a => k a
  | Panic => Panic
  | Blocked => Blocked
  end.

#[global] Instance outcome_fmap : FMap outcome := fun A B g m =>
  match m with
  | Ret a => Ret (g a)
  | Panic => Panic
  | Blocked => Blocked
  end.

(** ** Errors *)

(** Modelled from the spec: the declaration of [ErrCorrupted] is not in the
    files at hand.  It is the spec's CorruptedRecord, the error that [Get]
    and its callers test with [errors.Is], taken as an error value of its
    own like [ErrNotFound].  The other constructors are the error values of
    the package and of the libraries it calls; [Wrap msg err] is
    [fmt.Errorf(msg + ": %w", err)]. *)
Inductive error : Type :=
  | EOF                                  (* io.EOF *)
  | ErrBufferFull                        (* bufio.ErrBufferFull *)
  | ErrNotFound                          (* "record does not exist" *)
  | ErrCorrupted
  | ErrHashMismatch (key : list byte)    (* "hash mismatch for key %s" *)
  | ErrNotExist                          (* os: file does not exist *)
  | ErrClosed                            (* os: file already closed *)
  | ErrInvalid                           (* os: nil file *)
  | Wrap (msg : string) (err : error).

#[global] Instance error_eq_dec : EqDecision error.
Proof. solve_decision. Defined.

(** [errors.Is(err, target)]: [target] is [err] or is wrapped inside it. *)
Fixpoint errors_Is (err target : error) : bool :=
  if decide (err = target) then true
  else match err with
       | Wrap _ inner => errors_Is inner target
       | _ => false
       end.

(** ** Slices *)

(** [s[lo:]] *)
Definition slice_from (s : list byte) (lo : nat) : outcome (list byte) :=
  if decide (lo <= length s)%nat then Ret (drop lo s) else Panic.

(** [s[lo:hi]] *)
Definition slice (s : list byte) (lo hi : nat) : outcome (list byte) :=
  if decide (lo <= hi <= length s)%nat
  then Ret (take (hi - lo) (drop lo s)) else Panic.

(** [copy(dst[off:], src)] for [off <= len(dst)]: as many bytes as fit. *)
Definition copy_at (dst : list byte) (off : nat) (src : list byte) : list byte :=
  take off dst ++ take (length dst - off) src ++ drop (off + length src) dst.

(** [binary.LittleEndian.PutUint32(dst[off:], v)], four bytes being free
    at [off]. *)
Definition PutUint32 (dst : list byte) (off : nat) (v : Z) : list byte :=
  copy_at dst off (le32 v).

(** [binary.LittleEndian.Uint32(b)]: panics on fewer than four bytes. *)
Definition Uint32 (b : list byte) : outcome Z :=
  match b with
  | b0 :: b1 :: b2 :: b3 :: _ => Ret (le32_value b0 b1 b2 b3)
  | _ => Panic
  end.

(** ** entry.go *)

Record entry := Entry { key : list byte; value : list byte }.

#[global] Instance entry_eq_dec : EqDecision entry.
Proof. solve_decision. Defined.

Definition Encode (e : entry) : list byte :=
  let kl := length (key e) in
  let vl := length (value e) in
  let hash := sha1.Sum (value e) in
  let size := (kl + vl + 12 + length hash)%nat in
  let res := replicate size Byte.x00 in
  let res := PutUint32 res 0 (uint32 size) in
  let res := PutUint32 res 4 (uint32 kl) in
  let res := copy_at res 8 (key e) in
  let res := PutUint32 res (kl + 8) (uint32 vl) in
  let res := copy_at res (kl + 12) (value e) in
  let res := copy_at res (kl + 12 + vl) hash in
  res.

Fixpoint equalHash_loop (a b : list byte) : bool :=
  match a, b with
  | x :: a', y :: b' => if decide (x <> y) then false else equalHash_loop a' b'
  | _, _ => true
  end.

Definition equalHash (a b : list byte) : bool :=
  if decide (length a <> length b) then false else equalHash_loop a b.

(** [e.Decode(input)].  The receiver is overwritten, so the entry after
    the call does not depend on the entry before it; the result is the
    entry after the call and the error returned. *)
Definition Decode (input : list byte) : outcome (entry * option error) :=
  s ← slice_from input 4;
  klz ← Uint32 s;
  let kl := Z.to_nat klz in
  k ← slice input 8 (8 + kl);
  s ← slice_from input (8 + kl);
  vlz ← Uint32 s;
  let vl := Z.to_nat vlz in
  let valueStart := (12 + kl)%nat in
  v ← slice input valueStart (valueStart + vl);
  expectedHash ← slice_from input (valueStart + vl);
  let actualHash := sha1.Sum v in
  if negb (equalHash expectedHash actualHash)
  then Ret (Entry k v, Some (ErrHashMismatch k))
  else Ret (Entry k v, None).

(** ** [bufio.Reader] over a regular file *)

(** [rbuf] is the buffered data not yet consumed, [rsrc] what is left of
    the file after it.  The reader's sticky error is not a field: every
    method below that records an error also hands it out before it
    returns. *)
Record Reader := MkReader { rbuf : list byte; rsrc : list byte }.

Definition defaultBufSize : nat := 4096.

Definition NewReader (data : list byte) : Reader := MkReader [] data.

Definition Buffered (r : Reader) : nat := length (rbuf r).

(** [b.fill()]: one read of the file into the free part of the buffer. *)
Definition fill (r : Reader) : Reader * option error :=
  let n := (defaultBufSize - Buffered r) `min` length (rsrc r) in
  if decide (n = 0)%nat then (r, Some EOF)
  else (MkReader (rbuf r ++ take n (rsrc r)) (drop n (rsrc r)), None).

(** The loop of [Peek]: fill while fewer than [n] bytes are buffered, the
    buffer is not full and no error has occurred. *)
Fixpoint Peek_loop (fuel : nat) (r : Reader) (n : nat) : Reader * option error :=
  match fuel with
  | O => (r, None)
  | S fuel' =>
      if decide (Buffered r < n /\ Buffered r < defaultBufSize)%nat then
        match fill r with
        | (r', None) => Peek_loop fuel' r' n
        | (r', Some err) => (r', Some err)
        end
      else (r, None)
  end.

(** [b.Peek(n)] for [0 <= n <= 4096].  Every turn of the loop but the last
    buffers at least one byte, so [n + 1] turns are enough. *)
Definition Peek (r : Reader) (n : nat) : Reader * list byte * option error :=
  let '(r', err) := Peek_loop (S n) r n in
  if decide (Buffered r' < n)%nat then
    (r', rbuf r', Some (default ErrBufferFull err))
  else (r', take n (rbuf r'), None).

(** [b.Read(p)] with [len(p) = n]: the bytes read and the error. *)
Definition Read (r : Reader) (n : nat) : Reader * list byte * option error :=
  if decide (n = 0)%nat then (r, [], None)
  else if decide (Buffered r = 0)%nat then
    if decide (defaultBufSize <= n)%nat then
      (* large read, empty buffer: read directly into p *)
      let got := take n (rsrc r) in
      (MkReader [] (drop n (rsrc r)), got,
       if decide (got = []) then Some EOF else None)
    else
      match fill r with
      | (r', Some err) => (r', [], Some err)
      | (r', None) =>
          (MkReader (drop n (rbuf r')) (rsrc r'), take n (rbuf r'), None)
      end
  else (MkReader (drop n (rbuf r)) (rsrc r), take n (rbuf r), None).

(** [e.DecodeFromReader(in)], called on the entry [e]: the reader and the
    entry after the call, the count and the error returned. *)
Definition DecodeFromReader (e : entry) (r : Reader)
  : outcome (Reader * entry * nat * option error) :=
  let '(r, sizeBuf, err) := Peek r 4 in
  match err with
  | Some err =>
      if errors_Is err EOF then Ret (r, e, 0%nat, Some err)
      else Ret (r, e, 0%nat, Some (Wrap "DecodeFromReader, cannot read size" err))
  | None =>
      sz ← Uint32 sizeBuf;
      let size := Z.to_nat sz in
      let '(r, got, err) := Read r size in
      (* buf := make([]byte, size), its first n bytes overwritten *)
      let buf := got ++ replicate (size - length got) Byte.x00 in
      let n := length got in
      match err with
      | Some err =>
          Ret (r, e, n, Some (Wrap "DecodeFromReader, cannot read record" err))
      | None =>
          '(e', derr) ← Decode buf;
          Ret (r, e', n, derr)
      end
  end.

(** ** The directory of the store and [os.File] *)

(** The files of the store's directory, by name. *)
Abbreviation dir := (gmap string (list byte)).

(** An [*os.File] opened for appending. *)
Record File := MkFile { fname : string; fclosed : bool }.

(** [os.OpenFile(path, O_CREATE|O_WRONLY|O_APPEND, 0o600)] *)
Definition OpenFile_create (fs : dir) (name : string) : dir * File :=
  match fs !! name with
  | Some _ => (fs, MkFile name false)
  | None => (<[name := []]> fs, MkFile name false)
  end.

(** [os.OpenFile(path, O_APPEND|O_WRONLY, 0o600)] *)
Definition OpenFile_append (fs : dir) (name : string) : File + error :=
  match fs !! name with
  | Some _ => inl (MkFile name false)
  | None => inr ErrNotExist
  end.

(** [f.Close()] on a possibly nil [*os.File]. *)
Definition File_Close (f : option File) : option File * option error :=
  match f with
  | None => (None, Some ErrInvalid)
  | Some f =>
      if fclosed f then (Some f, Some ErrClosed)
      else (Some (MkFile (fname f) true), None)
  end.

(** [f.Write(data)] on a file opened with [O_APPEND]. *)
Definition File_Write (fs : dir) (f : option File) (data : list byte)
  : dir * nat * option error :=
  match f with
  | None => (fs, 0, Some ErrInvalid)
  | Some f =>
      if fclosed f then (fs, 0, Some ErrClosed)
      else (<[fname f := default [] (fs !! fname f) ++ data]> fs,
            length data, None)
  end.

(** [os.ReadDir]: the names of the directory, sorted by file name. *)
Definition name_le (a b : string) : Prop := String.leb a b = true.

#[global] Instance name_le_dec : RelDecision name_le.
Proof. intros a b. unfold name_le. apply _. Defined.

Definition ReadDir (fs : dir) : list string :=
  merge_sort name_le (map_to_list fs).*1.

(** ** [strings] and [strconv] *)

Fixpoint HasPrefix (s prefix : string) : bool :=
  match prefix, s with
  | EmptyString, _ => true
  | String c p', String d s' => if decide (c = d) then HasPrefix s' p' else false
  | String _ _, EmptyString => false
  end.

Definition TrimPrefix (s prefix : string) : string :=
  if HasPrefix s prefix
  then String.substring (String.length prefix)
         (String.length s - String.length prefix) s
  else s.

Definition digit_value (c : ascii) : option Z :=
  let n := Z.of_N (Ascii.N_of_ascii c) in
  if decide (48 <= n <= 57)%Z then Some (n - 48)%Z else None.

Fixpoint digits_value (acc : Z) (s : string) : option Z :=
  match s with
  | EmptyString => Some acc
  | String c s' =>
      match digit_value c with
      | Some d => digits_value (10 * acc + d)%Z s'
      | None => None
      end
  end.

(** [strconv.Atoi]: an optional sign and at least one decimal digit; the
    value has to fit the 64-bit [int].  [None] stands for the error. *)
Definition Atoi (s : string) : option Z :=
  let '(neg, ds) :=
    match s with
    | String "-"%char s' => (true, s')
    | String "+"%char s' => (false, s')
    | _ => (false, s)
    end in
  match ds with
  | EmptyString => None
  | _ =>
      match digits_value 0 ds with
      | Some n =>
          let v := if neg then (- n)%Z else n in
          if decide (- 2 ^ 63 <= v < 2 ^ 63)%Z then Some v else None
      | None => None
      end
  end.

(** ** The engine *)

Definition outFileNamePrefix : string := "segment-".
Definition defaultMaxSegmentSize : Z := 10 * 1024 * 1024.

Record segmentRef := MkRef { segmentId : Z; offset : nat }.

#[global] Instance segmentRef_eq_dec : EqDecision segmentRef.
Proof. solve_decision. Defined.

Abbreviation hashIndex := (gmap (list byte) segmentRef).

(** [fmt.Sprintf("%s%d", outFileNamePrefix, id)] *)
Definition segmentFilename (id : Z) : string :=
  outFileNamePrefix +:+ NilZero.string_of_int (Z.to_int id).

(** The zero value of [entry] ([var record entry]). *)
Definition no_entry : entry := Entry [] [].

(** The two engines below have the same [loadSegments] and
    [recoverSegment]; their two loops, which touch the index and the list of
    names only, are written once. *)

(** The loop of [recoverSegment]: [offset] is the running byte offset of
    the next record.  [None] when the fuel runs out. *)
Fixpoint recover_loop (fuel : nat) (id : Z) (reader : Reader) (off : nat)
    (idx : hashIndex) : option (outcome (hashIndex * option error)) :=
  match fuel with
  | O => None
  | S fuel' =>
      match DecodeFromReader no_entry reader with
      | Ret (reader', record, n, err) =>
          match err with
          | Some err =>
              if errors_Is err EOF then Some (Ret (idx, None))
              else Some (Ret (idx, Some (Wrap "corrupted segment" err)))
          | None =>
              recover_loop fuel' id reader' (off + n)
                (<[key record := MkRef id off]> idx)
          end
      | Panic => Some Panic
      | Blocked => Some Blocked
      end
  end.

(** The names that are the prefix followed by an integer, in the order of
    the listing. *)
Fixpoint scan_ids (names : list string) : list Z :=
  match names with
  | [] => []
  | name :: rest =>
      if HasPrefix name outFileNamePrefix then
        match Atoi (TrimPrefix name outFileNamePrefix) with
        | Some id => id :: scan_ids rest
        | None => scan_ids rest
        end
      else scan_ids rest
  end.

(** A client calls [Put] and [Get] one at a time and sees what they
    return. *)
Inductive call : Type :=
  | CallPut (k v : list byte)
  | CallGet (k : list byte).

Inductive reply : Type :=
  | PutReply (err : option error)
  | GetReply (v : list byte) (err : option error).

(** *** The plain sequential engine *)

Module Sequential.

Record Db := MkDb {
  segmentLimit : Z;
  currentSegment : option File;
  currentSegmentId : Z;
  currentOffset : nat;
  index : hashIndex;
}.

(** [db.currentSegmentId++] is [+ 1] on [Z]: the step of [int] below
    [2^63 - 1]. *)
Definition createNewSegment (fs : dir) (db : Db) : dir * Db :=
  let id := (currentSegmentId db + 1)%Z in
  let '(fs, f) := OpenFile_create fs (segmentFilename id) in
  (fs, MkDb (segmentLimit db) (Some f) id 0 (index db)).

Definition recoverSegment (fs : dir) (db : Db) (id : Z)
  : option (outcome (Db * option error)) :=
  match fs !! segmentFilename id with
  | None => Some (Ret (db, Some ErrNotExist))
  | Some data =>
      r ← recover_loop (S (length data)) id (NewReader data) 0 (index db);
      Some ('(idx, err) ← r;
            Ret (MkDb (segmentLimit db) (currentSegment db)
                   (currentSegmentId db) (currentOffset db) idx, err))
  end.

(** The second loop of [loadSegments]: the running maximum and the
    recovery of each segment, stopping at the first error. *)
Fixpoint recover_all (fs : dir) (db : Db) (maxId : Z) (ids : list Z)
  : option (outcome (Db * Z * option error)) :=
  match ids with
  | [] => Some (Ret (db, maxId, None))
  | id :: rest =>
      let maxId := if decide (id > maxId)%Z then id else maxId in
      r ← recoverSegment fs db id;
      match r with
      | Ret (db, Some err) => Some (Ret (db, maxId, Some err))
      | Ret (db, None) => recover_all fs db maxId rest
      | Panic => Some Panic
      | Blocked => Some Blocked
      end
  end.

Definition loadSegments (fs : dir) (db : Db)
  : option (outcome (dir * Db * option error)) :=
  let segmentIds := scan_ids (ReadDir fs) in
  if decide (length segmentIds = 0) then
    let '(fs, db) := createNewSegment fs db in Some (Ret (fs, db, None))
  else
    r ← recover_all fs db (-1)%Z segmentIds;
    Some ('(db, maxId, err) ← r;
          match err with
          | Some err => Ret (fs, db, Some err)
          | None =>
              let db := MkDb (segmentLimit db) (currentSegment db) maxId
                          (currentOffset db) (index db) in
              match OpenFile_append fs (segmentFilename maxId) with
              | inr err => Ret (fs, db, Some err)
              | inl f =>
                  let size := length (default [] (fs !! segmentFilename maxId)) in
                  Ret (fs, MkDb (segmentLimit db) (Some f) maxId size (index db),
                       None)
              end
          end).

(** [OpenWithLimit]: the engine, or the error ([nil, err]). *)
Definition OpenWithLimit (fs : dir) (limit : Z)
  : option (outcome (dir * (Db + error))) :=
  let db := MkDb limit None 0 0 ∅ in
  r ← loadSegments fs db;
  Some ('(fs, db, err) ← r;
        match err with
        | Some err => Ret (fs, inr err)
        | None => Ret (fs, inl db)
        end).

Definition Close (db : Db) : Db * option error :=
  match currentSegment db with
  | Some _ =>
      let '(f, err) := File_Close (currentSegment db) in
      (MkDb (segmentLimit db) f (currentSegmentId db) (currentOffset db)
         (index db), err)
  | None => (db, None)
  end.

Definition Get (fs : dir) (db : Db) (k : list byte)
  : outcome (list byte * option error) :=
  match index db !! k with
  | None => Ret ([], Some ErrNotFound)
  | Some ref =>
      match fs !! segmentFilename (segmentId ref) with
      | None => Ret ([], Some ErrNotExist)
      | Some data =>
          (* f.Seek(ref.offset, io.SeekStart) *)
          let reader := NewReader (drop (offset ref) data) in
          '(_, record, _, err) ← DecodeFromReader no_entry reader;
          match err with
          | Some err => Ret ([], Some err)
          | None => Ret (value record, None)
          end
      end
  end.

Definition Put (fs : dir) (db : Db) (k v : list byte)
  : dir * Db * option error :=
  let data := Encode (Entry k v) in
  let rotated :=
    if decide (Z.of_nat (currentOffset db + length data) > segmentLimit db)%Z
    then
      let '(f, err) := File_Close (currentSegment db) in
      let db := MkDb (segmentLimit db) f (currentSegmentId db)
                  (currentOffset db) (index db) in
      match err with
      | Some err => (fs, db, Some err)
      | None => let '(fs, db) := createNewSegment fs db in (fs, db, None)
      end
    else (fs, db, None) in
  match rotated with
  | (fs, db, Some err) => (fs, db, Some err)
  | (fs, db, None) =>
      let '(fs, n, err) := File_Write fs (currentSegment db) data in
      match err with
      | Some err => (fs, db, Some err)
      | None =>
          (fs,
           MkDb (segmentLimit db) (currentSegment db) (currentSegmentId db)
             (currentOffset db + n)
             (<[k := MkRef (currentSegmentId db) (currentOffset db)]> (index db)),
           None)
      end
  end.

Definition Size (db : Db) : nat * option error := (currentOffset db, None).

(** A sequence of calls, one at a time, and the replies in order. *)
Fixpoint run (calls : list call) (fs : dir) (db : Db)
  : outcome (dir * Db * list reply) :=
  match calls with
  | [] => Ret (fs, db, [])
  | CallPut k v :: rest =>
      let '(fs, db, err) := Put fs db k v in
      '(fs, db, rs) ← run rest fs db;
      Ret (fs, db, PutReply err :: rs)
  | CallGet k :: rest =>
      '(v, err) ← Get fs db k;
      '(fs, db, rs) ← run rest fs db;
      Ret (fs, db, GetReply v err :: rs)
  end.

(** Open the directory, then make the calls. *)
Definition session (fs : dir) (limit : Z) (calls : list call)
  : option (outcome (dir * (Db * list reply + error))) :=
  r ← OpenWithLimit fs limit;
  Some ('(fs, opened) ← r;
        match opened with
        | inr err => Ret (fs, inr err)
        | inl db => '(fs, db, rs) ← run calls fs db; Ret (fs, inl (db, rs))
        end).

End Sequential.

(** *** The serializer-based engine *)

(** [sync.RWMutex] *)
Record RWMutex := MkMu { readers : nat; locked : bool }.

Definition RLock (mu : RWMutex) : outcome RWMutex :=
  if locked mu then Blocked else Ret (MkMu (S (readers mu)) false).

Definition RUnlock (mu : RWMutex) : outcome RWMutex :=
  match readers mu with
  | O => Panic
  | S n => Ret (MkMu n (locked mu))
  end.

Definition Lock (mu : RWMutex) : outcome RWMutex :=
  if locked mu then Blocked
  else if decide (readers mu = 0) then Ret (MkMu 0 true) else Blocked.

Definition Unlock (mu : RWMutex) : outcome RWMutex :=
  if locked mu then Ret (MkMu (readers mu) false) else Panic.

(** A request in the queue.  Its [done] channel is the reply that the
    writer hands back to the sender. *)
Record writeRequest := MkReq { req_key : list byte; req_value : list byte }.

(** [closeCh] is [true] once the channel is closed; [wg] is the counter of
    the wait group, 1 while the writer goroutine runs. *)
Record Db := MkDb {
  segmentLimit : Z;
  currentSegment : option File;
  currentSegmentId : Z;
  currentOffset : nat;
  index : hashIndex;
  mu : RWMutex;
  writeCh : list writeRequest;
  closeCh : bool;
  wg : nat;
}.

Definition set_segment (db : Db) (f : option File) (id : Z) (off : nat) : Db :=
  MkDb (segmentLimit db) f id off (index db) (mu db) (writeCh db)
    (closeCh db) (wg db).

Definition set_index (db : Db) (idx : hashIndex) : Db :=
  MkDb (segmentLimit db) (currentSegment db) (currentSegmentId db)
    (currentOffset db) idx (mu db) (writeCh db) (closeCh db) (wg db).

Definition set_mu (db : Db) (m : RWMutex) : Db :=
  MkDb (segmentLimit db) (currentSegment db) (currentSegmentId db)
    (currentOffset db) (index db) m (writeCh db) (closeCh db) (wg db).

Definition set_chans (db : Db) (q : list writeRequest) (closed : bool)
    (n : nat) : Db :=
  MkDb (segmentLimit db) (currentSegment db) (currentSegmentId db)
    (currentOffset db) (index db) (mu db) q closed n.

(** [db.currentSegmentId++] is [+ 1] on [Z]: the step of [int] below
    [2^63 - 1]. *)
Definition createNewSegment (fs : dir) (db : Db) : dir * Db :=
  let id := (currentSegmentId db + 1)%Z in
  let '(fs, f) := OpenFile_create fs (segmentFilename id) in
  (fs, set_segment db (Some f) id 0).

Definition writeEntry (fs : dir) (db : Db) (k v : list byte)
  : outcome (dir * Db * option error) :=
  let data := Encode (Entry k v) in
  let rotated :=
    if decide (Z.of_nat (currentOffset db + length data) > segmentLimit db)%Z
    then
      let '(f, err) := File_Close (currentSegment db) in
      let db := set_segment db f (currentSegmentId db) (currentOffset db) in
      match err with
      | Some err => (fs, db, Some err)
      | None => let '(fs, db) := createNewSegment fs db in (fs, db, None)
      end
    else (fs, db, None) in
  match rotated with
  | (fs, db, Some err) => Ret (fs, db, Some err)
  | (fs, db, None) =>
      let '(fs, n, err) := File_Write fs (currentSegment db) data in
      match err with
      | Some err => Ret (fs, db, Some err)
      | None =>
          m ← Lock (mu db);
          let db := set_mu db m in
          let db :=
            set_index db
              (<[k := MkRef (currentSegmentId db) (currentOffset db)]> (index db)) in
          let db :=
            set_segment db (currentSegment db) (currentSegmentId db)
              (currentOffset db + n) in
          m ← Unlock (mu db);
          Ret (fs, set_mu db m, None)
      end
  end.

(** One pass of the writer goroutine through its [select]. *)
Inductive writer_turn : Type :=
  | Served (fs : dir) (db : Db) (req : writeRequest) (err : option error)
  | Exited (db : Db)
  | Parked
  | Stuck (o : outcome unit).

(** [pick_close] is the choice Go makes at random when both cases of the
    [select] are ready. *)
Definition writer (pick_close : bool) (fs : dir) (db : Db) : writer_turn :=
  let serve req rest :=
    match writeEntry fs (set_chans db rest (closeCh db) (wg db))
            (req_key req) (req_value req) with
    | Ret (fs, db, err) => Served fs db req err
    | Panic => Stuck Panic
    | Blocked => Stuck Blocked
    end in
  let leave := Exited (set_chans db (writeCh db) (closeCh db) (wg db - 1)) in
  match writeCh db, closeCh db with
  | [], false => Parked
  | [], true => leave
  | req :: rest, false => serve req rest
  | req :: rest, true => if pick_close then leave else serve req rest
  end.

(** [Put] as a caller sees it when no other goroutine uses the engine: the
    request is queued, the writer takes its turn, the caller receives the
    reply on [done].  The queue holds the caller's request only, so its
    capacity of 100 is never reached; a reply to an older request would
    find no receiver and stop the writer for ever. *)
Definition Put (pick_close : bool) (fs : dir) (db : Db) (k v : list byte)
  : outcome (dir * Db * option error) :=
  let req := MkReq k v in
  let queued := set_chans db (writeCh db ++ [req]) (closeCh db) (wg db) in
  if decide (wg db = 0) then Blocked
  else
    match writer pick_close fs queued with
    | Served fs' db' req' err =>
        if decide (writeCh db = []) then Ret (fs', db', err) else Blocked
    | Exited _ => Blocked
    | Parked => Blocked
    | Stuck Panic => Panic
    | Stuck _ => Blocked
    end.

Definition Get (fs : dir) (db : Db) (k : list byte)
  : outcome (Db * list byte * option error) :=
  m ← RLock (mu db);
  let ref := index db !! k in
  m ← RUnlock m;
  let db := set_mu db m in
  match ref with
  | None => Ret (db, [], Some ErrNotFound)
  | Some ref =>
      match fs !! segmentFilename (segmentId ref) with
      | None => Ret (db, [], Some ErrNotExist)
      | Some data =>
          let reader := NewReader (drop (offset ref) data) in
          '(_, record, _, err) ← DecodeFromReader no_entry reader;
          match err with
          | Some err =>
              if errors_Is err ErrCorrupted then Ret (db, [], Some ErrCorrupted)
              else Ret (db, [], Some err)
          | None => Ret (db, value record, None)
          end
      end
  end.

(** [Close]: [close(db.closeCh)] panics on a closed channel; [db.wg.Wait()]
    returns once the writer has left its loop.  A writer that serves a
    request left in the queue finds no receiver for its reply (see [Put]),
    and [Wait] does not return. *)
Definition Close (pick_close : bool) (fs : dir) (db : Db)
  : outcome (Db * option error) :=
  if closeCh db then Panic
  else
    let db := set_chans db (writeCh db) true (wg db) in
    waited ←
      (if decide (wg db = 0) then Ret db
       else match writer pick_close fs db with
            | Exited db' => if decide (wg db' = 0) then Ret db' else Blocked
            | Stuck Panic => Panic
            | _ => Blocked
            end);
    match currentSegment waited with
    | Some _ =>
        let '(f, err) := File_Close (currentSegment waited) in
        Ret (set_segment waited f (currentSegmentId waited)
               (currentOffset waited), err)
    | None => Ret (waited, None)
    end.

Definition Size (db : Db) : nat * option error := (currentOffset db, None).

Definition recoverSegment (fs : dir) (db : Db) (id : Z)
  : option (outcome (Db * option error)) :=
  match fs !! segmentFilename id with
  | None => Some (Ret (db, Some ErrNotExist))
  | Some data =>
      r ← recover_loop (S (length data)) id (NewReader data) 0 (index db);
      Some ('(idx, err) ← r; Ret (set_index db idx, err))
  end.

(** The second loop of [loadSegments]: the running maximum and the recovery
    of each segment, stopping at the first error. *)
Fixpoint recover_all (fs : dir) (db : Db) (maxId : Z) (ids : list Z)
  : option (outcome (Db * Z * option error)) :=
  match ids with
  | [] => Some (Ret (db, maxId, None))
  | id :: rest =>
      let maxId := if decide (id > maxId)%Z then id else maxId in
      r ← recoverSegment fs db id;
      match r with
      | Ret (db, Some err) => Some (Ret (db, maxId, Some err))
      | Ret (db, None) => recover_all fs db maxId rest
      | Panic => Some Panic
      | Blocked => Some Blocked
      end
  end.

Definition loadSegments (fs : dir) (db : Db)
  : option (outcome (dir * Db * option error)) :=
  let segmentIds := scan_ids (ReadDir fs) in
  if decide (length segmentIds = 0) then
    let '(fs, db) := createNewSegment fs db in Some (Ret (fs, db, None))
  else
    r ← recover_all fs db (-1)%Z segmentIds;
    Some ('(db, maxId, err) ← r;
          match err with
          | Some err => Ret (fs, db, Some err)
          | None =>
              let db := set_segment db (currentSegment db) maxId
                          (currentOffset db) in
              match OpenFile_append fs (segmentFilename maxId) with
              | inr err => Ret (fs, db, Some err)
              | inl f =>
                  let size := length (default [] (fs !! segmentFilename maxId)) in
                  Ret (fs, set_segment db (Some f) maxId size, None)
              end
          end).

(** [OpenWithLimit]: the engine with its writer started, or the error. *)
Definition OpenWithLimit (fs : dir) (limit : Z)
  : option (outcome (dir * (Db + error))) :=
  let db := MkDb limit None 0 0 ∅ (MkMu 0 false) [] false 0 in
  r ← loadSegments fs db;
  Some ('(fs, db, err) ← r;
        match err with
        | Some err => Ret (fs, inr err)
        | None => Ret (fs, inl (set_chans db (writeCh db) (closeCh db) (wg db + 1)))
        end).

Definition Open (fs : dir) := OpenWithLimit fs defaultMaxSegmentSize.

(** A sequence of calls, one at a time, and the replies in order. *)
Fixpoint run (pick_close : bool) (calls : list call) (fs : dir) (db : Db)
  : outcome (dir * Db * list reply) :=
  match calls with
  | [] => Ret (fs, db, [])
  | CallPut k v :: rest =>
      '(fs, db, err) ← Put pick_close fs db k v;
      '(fs, db, rs) ← run pick_close rest fs db;
      Ret (fs, db, PutReply err :: rs)
  | CallGet k :: rest =>
      '(db, v, err) ← Get fs db k;
      '(fs, db, rs) ← run pick_close rest fs db;
      Ret (fs, db, GetReply v err :: rs)
  end.

(** Open the directory, then make the calls. *)
Definition session (pick_close : bool) (fs : dir) (limit : Z)
    (calls : list call) : option (outcome (dir * (Db * list reply + error))) :=
  r ← OpenWithLimit fs limit;
  Some ('(fs, opened) ← r;
        match opened with
        | inr err => Ret (fs, inr err)
        | inl db =>
            '(fs, db, rs) ← run pick_close calls fs db; Ret (fs, inl (db, rs))
        end).

(** What the two engines have in common: the fields of the plain engine
    inside the serializer-based one. *)
Definition plain (db : Db) : Sequential.Db :=
  Sequential.MkDb (segmentLimit db) (currentSegment db) (currentSegmentId db)
    (currentOffset db) (index db).

(** The observable part of a session of the serializer-based engine: the
    directory, the common fields of the engine and the replies. *)
Definition observe (r : option (outcome (dir * (Db * list reply + error))))
  : option (outcome (dir * (Sequential.Db * list reply + error))) :=
  fmap (M := option)
    (fmap (M := outcome)
       (fun '(fs, opened) =>
          (fs, match opened with
               | inl (db, rs) => inl (plain db, rs)
               | inr err => inr err
               end))) r.

(** ** The HTTP front of the store ([cmd/db]) *)

(** What the handlers read of an [*http.Request].  [Body] is what
    [json.NewDecoder(r.Body).Decode(&body)] makes of the body: the field
    [Value] of the decoded structure, or [None] when [Decode] returns an
    error. *)
Record Request := MkRequest {
  Method : string;
  Path : string;
  Body : option (list byte);
}.

(** What the handlers write to the [http.ResponseWriter]. *)
Inductive Response : Type :=
  | http_Error (msg : string) (code : nat)   (* http.Error(w, msg, code) *)
  | http_NotFound                            (* http.NotFound(w, nil) *)
  | http_JSON (key value : list byte)        (* the encoded map, status 200 *)
  | WriteHeader (code : nat).                (* w.WriteHeader(code) *)

Definition StatusOK : nat := 200.
Definition StatusCreated : nat := 201.
Definition StatusBadRequest : nat := 400.
Definition StatusNotFound : nat := 404.
Definition StatusMethodNotAllowed : nat := 405.
Definition StatusInternalServerError : nat := 500.

(** The status line of a response. *)
Definition StatusCode (resp : Response) : nat :=
  match resp with
  | http_Error _ code => code
  | http_NotFound => StatusNotFound
  | http_JSON _ _ => StatusOK
  | WriteHeader code => code
  end.

Definition handleGet (fs : dir) (db : Db) (k : string)
  : outcome (Db * Response) :=
  '(db, val, err) ← Get fs db (bytes_of_string k);
  match err with
  | Some err =>
      if errors_Is err ErrNotFound || errors_Is err ErrCorrupted
      then Ret (db, http_NotFound)
      else Ret (db, http_Error "internal error" StatusInternalServerError)
  | None => Ret (db, http_JSON (bytes_of_string k) val)
  end.

Definition handlePost (pick_close : bool) (fs : dir) (db : Db) (k : string)
    (r : Request) : outcome (dir * Db * Response) :=
  match Body r with
  | None => Ret (fs, db, http_Error "bad request" StatusBadRequest)
  | Some v =>
      '(fs, db, err) ← Put pick_close fs db (bytes_of_string k) v;
      match err with
      | Some _ =>
          Ret (fs, db,
               http_Error "failed to store value" StatusInternalServerError)
      | None => Ret (fs, db, WriteHeader StatusCreated)
      end
  end.

Definition dbHandler (pick_close : bool) (fs : dir) (db : Db) (r : Request)
  : outcome (dir * Db * Response) :=
  let k := TrimPrefix (Path r) "/db/" in
  if decide (k = "") then
    Ret (fs, db, http_Error "missing key" StatusBadRequest)
  else if decide (Method r = "GET") then
    '(db, resp) ← handleGet fs db k; Ret (fs, db, resp)
  else if decide (Method r = "POST") then handlePost pick_close fs db k r
  else Ret (fs, db, http_Error "method not allowed" StatusMethodNotAllowed).

(** * Vocabulary of the statements *)

(** The record as a concatenation of its six fields. *)
Definition record_bytes (k v : list byte) : list byte :=
  le32 (uint32 (12 + length k + length v + 20)) ++ le32 (uint32 (length k))
    ++ k ++ le32 (uint32 (length v)) ++ v ++ sha1.Sum v.

(** The key length and the value length that [Decode] reads in a buffer
    (0 where the buffer is too short to hold the field). *)
Definition key_len_field (input : list byte) : nat :=
  match Uint32 (drop 4 input) with
  | Ret z => Z.to_nat z
  | _ => 0
  end.

Definition value_len_field (input : list byte) : nat :=
  match Uint32 (drop (8 + key_len_field input) input) with
  | Ret z => Z.to_nat z
  | _ => 0
  end.

(** The buffer holds both length fields, the key and the value. *)
Definition lengths_fit (input : list byte) : Prop :=
  12 + key_len_field input + value_len_field input <= length input.

(** The bytes of the stream that the reader has not handed out yet. *)
Definition remaining (r : Reader) : list byte := rbuf r ++ rsrc r.

(** A store with one record of 34 bytes in its first segment, under a
    limit of 50 bytes. *)
Definition rotation_fs : dir :=
  {["segment-1" := Encode (Entry (bytes_of_string "a") (bytes_of_string "b"))]}.

Definition rotation_db : Db :=
  MkDb 50 (Some (MkFile "segment-1" false)) 1 34
    {[bytes_of_string "a" := MkRef 1 0]} (MkMu 0 false) [] false 1.

(** An engine in service: the stop channel is open, the writer goroutine
    runs and waits for a request, the lock is free and the handle of the
    current segment is open. *)
Definition in_service (db : Db) : Prop :=
  closeCh db = false /\ wg db = 1 /\ writeCh db = []
  /\ mu db = MkMu 0 false
  /\ exists f, currentSegment db = Some f /\ fclosed f = false.

(** The engine that [OpenWithLimit] returns on an empty directory. *)
Definition service_fs : dir := {["segment-1" := []]}.

Definition service_db : Db :=
  MkDb 50 (Some (MkFile "segment-1" false)) 1 0 ∅ (MkMu 0 false) [] false 1.

(** What [recoverSegment] does to the index, in either engine. *)
Definition recover_index (fs : dir) (idx : hashIndex) (id : Z)
  : option (outcome (hashIndex * option error)) :=
  match fs !! segmentFilename id with
  | None => Some (Ret (idx, Some ErrNotExist))
  | Some data => recover_loop (S (length data)) id (NewReader data) 0 idx
  end.

(** Open a directory, make the calls, close, open again and look a key
    up. *)
Definition reopen_get (pick_close : bool) (fs : dir) (limit : Z)
    (calls : list call) (k : list byte)
  : option (outcome (list byte * option error)) :=
  r ← session pick_close fs limit calls;
  match r with
  | Ret (fs, inl (db, _)) =>
      match Close pick_close fs db with
      | Ret _ =>
          r ← OpenWithLimit fs limit;
          Some ('(fs, opened) ← r;
                match opened with
                | inl db => '(_, v, err) ← Get fs db k; Ret (v, err)
                | inr err => Ret ([], Some err)
                end)
      | Panic => Some Panic
      | Blocked => Some Blocked
      end
  | Ret (_, inr err) => Some (Ret ([], Some err))
  | Panic => Some Panic
  | Blocked => Some Blocked
  end.

(** Ten records of 34 to 36 bytes under a limit of 50 bytes: one segment
    each.  The key ["k"] is written in segment 2 and again in segment 10. *)
Definition ten_segments : list call :=
  let filler := CallPut (bytes_of_string "f") (bytes_of_string "x") in
  [filler; CallPut (bytes_of_string "k") (bytes_of_string "old")]
    ++ replicate 7 filler
    ++ [CallPut (bytes_of_string "k") (bytes_of_string "new")].

(** 121 records of 34 bytes in one segment: the last one lies across the
    first 4096 bytes of the file. *)
Definition long_segment : list call :=
  replicate 121 (CallPut (bytes_of_string "k") (bytes_of_string "v")).

(** [bs[i] ^= mask] *)
Definition xor_at (i : nat) (mask : Z) (bs : list byte) : list byte :=
  alter (fun b => byte_of_Z (Z.lxor (byte_to_Z b) mask)) i bs.

(** [file.Seek(i, 0); file.Write([]byte{b})] inside a file *)
Definition set_at (i : nat) (b : byte) (bs : list byte) : list byte :=
  <[i := b]> bs.

(** The record and the store of the tests [TestEntry_HashMismatch] and
    [TestDb_DetectsCorruptedValue]. *)
Definition tampered_record : list byte :=
  let encoded := Encode (Entry (bytes_of_string "abc") (bytes_of_string "correct")) in
  xor_at (length encoded - 1) 0xFF encoded.

Definition tampered_store : option (outcome (list byte * option error)) :=
  let k := bytes_of_string "sensitive" in
  let v := bytes_of_string "secret-data" in
  r ← session false ∅ defaultMaxSegmentSize [CallPut k v];
  match r with
  | Ret (fs, inl (db, _)) =>
      match index db !! k with
      | Some ref =>
          let name := segmentFilename (segmentId ref) in
          let seekOffset := offset ref + (12 + length k + length v) in
          let fs := <[name := set_at seekOffset Byte.x00 (default [] (fs !! name))]> fs in
          Some ('(_, v, err) ← Get fs db k; Ret (v, err))
      | None => None
      end
  | _ => None
  end.

(** A record that [DecodeFromReader] finds whole in its buffer. *)
Definition fits (k v : list byte) : Prop :=
  12 + length k + length v + 20 <= defaultBufSize.

Definition fits_call (c : call) : Prop :=
  match c with
  | CallPut k v => fits k v
  | CallGet _ => True
  end.

(** The replies of a finite map to the same calls. *)
Fixpoint map_run (calls : list call) (m : gmap (list byte) (list byte))
  : list reply :=
  match calls with
  | [] => []
  | CallPut k v :: rest => PutReply None :: map_run rest (<[k := v]> m)
  | CallGet k :: rest =>
      match m !! k with
      | Some v => GetReply v None
      | None => GetReply [] (Some ErrNotFound)
      end :: map_run rest m
  end.

(** The engine and its directory hold the finite map [m]: the engine is in
    service, the current segment is the file of the current id and the write
    offset is its size, no segment with a higher id exists, and the index
    sends exactly the keys of [m] to the start of a record of the key and
    of its value in [m]. *)
Definition stored (fs : dir) (db : Db) (m : gmap (list byte) (list byte)) : Prop :=
  in_service db
  /\ (exists data,
        currentSegment db
        = Some (MkFile (segmentFilename (currentSegmentId db)) false)
        /\ fs !! segmentFilename (currentSegmentId db) = Some data
        /\ length data = currentOffset db)
  /\ (forall j, (currentSegmentId db < j)%Z -> fs !! segmentFilename j = None)
  /\ (forall k, index db !! k = None <-> m !! k = None)
  /\ (forall k ref, index db !! k = Some ref ->
        exists v pre rest,
          m !! k = Some v /\ fits k v
          /\ fs !! segmentFilename (segmentId ref)
             = Some (pre ++ Encode (Entry k v) ++ rest)
          /\ length pre = offset ref).

(** A log is a sequence of records, each a key and a value; its bytes are
    the encoded records, one after the other. *)
Fixpoint log_bytes (recs : list (list byte * list byte)) : list byte :=
  match recs with
  | [] => []
  | (k, v) :: rest => Encode (Entry k v) ++ log_bytes rest
  end.

(** The index after the records of a log that starts at offset [off] of
    the segment [id]. *)
Fixpoint log_index (id : Z) (off : nat) (recs : list (list byte * list byte))
    (idx : hashIndex) : hashIndex :=
  match recs with
  | [] => idx
  | (k, v) :: rest =>
      log_index id (off + length (Encode (Entry k v))) rest
        (<[k := MkRef id off]> idx)
  end.

(** The files named after the ids [id], [id + 1], ... *)
Fixpoint files (id : Z) (contents : list (list byte)) : dir :=
  match contents with
  | [] => ∅
  | data :: rest => <[segmentFilename id := data]> (files (id + 1) rest)
  end.

(** The logs of the segments [id], [id + 1], ... as a directory, and the
    index after their records. *)
Definition segs_fs (id : Z) (segs : list (list (list byte * list byte))) : dir :=
  files id (log_bytes <$> segs).

Fixpoint segs_index (id : Z) (segs : list (list (list byte * list byte)))
    (idx : hashIndex) : hashIndex :=
  match segs with
  | [] => idx
  | recs :: rest => segs_index (id + 1) rest (log_index id 0 recs idx)
  end.

(** The engine in service on the segments 1, 2, ... with the logs [segs],
    the last of them current. *)
Definition segs_db (limit : Z) (segs : list (list (list byte * list byte))) : Db :=
  let n := Z.of_nat (length segs) in
  MkDb limit (Some (MkFile (segmentFilename n) false)) n
    (length (log_bytes (default [] (last segs)))) (segs_index 1 segs ∅)
    (MkMu 0 false) [] false 1.

(** How the limit cuts a sequence of records into segments: a record that
    would take the current segment past the limit starts the next one. *)
Fixpoint pack (limit : Z) (full : list (list (list byte * list byte)))
    (cur : list (list byte * list byte)) (kvs : list (list byte * list byte))
  : list (list (list byte * list byte)) :=
  match kvs with
  | [] => full ++ [cur]
  | (k, v) :: rest =>
      if decide (Z.of_nat (length (log_bytes cur) + length (Encode (Entry k v)))
                 > limit)%Z
      then pack limit (full ++ [cur]) [(k, v)] rest
      else pack limit full (cur ++ [(k, v)]) rest
  end.

(** A sequence of [Put]s, and the finite map after them. *)
Definition puts (kvs : list (list byte * list byte)) : list call :=
  (fun kv => CallPut kv.1 kv.2) <$> kvs.

Fixpoint put_all (kvs : list (list byte * list byte))
    (m : gmap (list byte) (list byte)) : gmap (list byte) (list byte) :=
  match kvs with
  | [] => m
  | (k, v) :: rest => put_all rest (<[k := v]> m)
  end.

(** The ids [id], [id + 1], ..., [n] of them. *)
Fixpoint ids_from (id : Z) (n : nat) : list Z :=
  match n with
  | O => []
  | S n' => id :: ids_from (id + 1) n'
  end.

(** The engine and its directory hold the finite map [m], whatever the
    size of its records: as [stored], without the bound on the records. *)
Definition held (fs : dir) (db : Db) (m : gmap (list byte) (list byte)) : Prop :=
  in_service db
  /\ (exists data,
        currentSegment db
        = Some (MkFile (segmentFilename (currentSegmentId db)) false)
        /\ fs !! segmentFilename (currentSegmentId db) = Some data
        /\ length data = currentOffset db)
  /\ (forall j, (currentSegmentId db < j)%Z -> fs !! segmentFilename j = None)
  /\ (forall k, index db !! k = None <-> m !! k = None)
  /\ (forall k ref, index db !! k = Some ref ->
        exists v pre rest,
          m !! k = Some v
          /\ fs !! segmentFilename (segmentId ref)
             = Some (pre ++ Encode (Entry k v) ++ rest)
          /\ length pre = offset ref).

(** An engine in service that writes at the end of its current segment:
    the current segment is the file of the current id, the write offset is
    its size, no file has the next id yet and the current id is below the
    largest [int]. *)
Definition at_end (fs : dir) (db : Db) : Prop :=
  in_service db
  /\ (exists data,
        currentSegment db
        = Some (MkFile (segmentFilename (currentSegmentId db)) false)
        /\ fs !! segmentFilename (currentSegmentId db) = Some data
        /\ length data = currentOffset db)
  /\ fs !! segmentFilename (currentSegmentId db + 1) = None
  /\ (currentSegmentId db < 2 ^ 63 - 1)%Z.

(** * Properties *)

(** ** The digest *)

Lemma sha1_Sum_length data : length (sha1.Sum data) = sha1.Size.
Proof. unfold sha1.Sum. by destruct (sha1.blocks _ _ _). Qed.

(** The digests of the empty message and of ["abc"] (FIPS 180). *)
Example sha1_Sum_empty :
  byte_to_Z <$> sha1.Sum []
  = [0xda; 0x39; 0xa3; 0xee; 0x5e; 0x6b; 0x4b; 0x0d; 0x32; 0x55;
     0xbf; 0xef; 0x95; 0x60; 0x18; 0x90; 0xaf; 0xd8; 0x07; 0x09]%Z.
Proof. vm_compute. reflexivity. Qed.

Example sha1_Sum_abc :
  byte_to_Z <$> sha1.Sum (bytes_of_string "abc")
  = [0xa9; 0x99; 0x3e; 0x36; 0x47; 0x06; 0x81; 0x6a; 0xba; 0x3e;
     0x25; 0x71; 0x78; 0x50; 0xc2; 0x6c; 0x9c; 0xd0; 0xd8; 0x9d]%Z.
Proof. vm_compute. reflexivity. Qed.

(** ** Bytes and 32-bit words *)

Lemma byte_to_of_Z (x : Z) : byte_to_Z (byte_of_Z x) = (x mod 256)%Z.
Proof.
  unfold byte_to_Z, byte_of_Z, byte_of_N.
  assert (Hr : (0 <= x mod 256 < 256)%Z) by (apply Z.mod_pos_bound; lia).
  destruct (Byte.of_N (Z.to_N (x mod 256))) as [b|] eqn:Hb; simpl.
  - apply Byte.to_of_N in Hb. rewrite Hb. lia.
  - apply Byte.of_N_None_iff in Hb. lia.
Qed.

Lemma byte_to_Z_range (b : byte) : (0 <= byte_to_Z b < 256)%Z.
Proof.
  unfold byte_to_Z. pose proof (Byte.to_N_bounded b). lia.
Qed.

Lemma le32_value_le32 (v : Z) :
  le32_value (byte_of_Z v) (byte_of_Z (Z.shiftr v 8))
    (byte_of_Z (Z.shiftr v 16)) (byte_of_Z (Z.shiftr v 24)) = (v mod 2 ^ 32)%Z.
Proof.
  unfold le32_value. rewrite !byte_to_of_Z.
  change 256%Z with (2 ^ 8)%Z.
  apply Z.bits_inj'. intros n Hn.
  rewrite !Z.lor_spec, !Z.shiftl_spec, !Z.testbit_mod_pow2 by lia.
  destruct (Z.ltb_spec n 8); [|destruct (Z.ltb_spec n 16);
    [|destruct (Z.ltb_spec n 24); [|destruct (Z.ltb_spec n 32)]]].
  all: repeat match goal with
       | |- context [(?a <? ?b)%Z] =>
           destruct (Z.ltb_spec a b); try lia
       end; simpl.
  all: rewrite ?Z.shiftr_spec by lia.
  all: rewrite ?(Z.testbit_neg_r _ (n - 8)), ?(Z.testbit_neg_r _ (n - 16)),
         ?(Z.testbit_neg_r _ (n - 24)) by lia.
  all: rewrite ?orb_false_r, ?orb_false_l; try reflexivity.
  all: f_equal; lia.
Qed.

Lemma Uint32_le32 (v : Z) (rest : list byte) :
  Uint32 (le32 v ++ rest) = Ret (v mod 2 ^ 32)%Z.
Proof. simpl. by rewrite le32_value_le32. Qed.

Lemma length_le32 (v : Z) : length (le32 v) = 4.
Proof. reflexivity. Qed.

Lemma uint32_range (n : nat) : (0 <= uint32 n < 2 ^ 32)%Z.
Proof. apply Z.mod_pos_bound. lia. Qed.

Lemma uint32_small (n : nat) : (Z.of_nat n < 2 ^ 32)%Z -> Z.to_nat (uint32 n) = n.
Proof. intros H. unfold uint32. rewrite Z.mod_small by lia. lia. Qed.

(** ** The layout of an encoded record *)

Lemma copy_at_fill (pre src : list byte) (off n : nat) :
  off = length pre -> length src <= n ->
  copy_at (pre ++ replicate n Byte.x00) off src
  = (pre ++ src) ++ replicate (n - length src) Byte.x00.
Proof.
  intros -> Hle. unfold copy_at.
  rewrite take_app_length, length_app, length_replicate.
  replace (length pre + n - length pre) with n by lia.
  rewrite (take_ge src) by lia.
  rewrite drop_app_add, drop_replicate.
  by rewrite <- app_assoc.
Qed.

Lemma Encode_record_bytes (k v : list byte) :
  Encode (Entry k v) = record_bytes k v.
Proof.
  unfold Encode, record_bytes, PutUint32; simpl key; simpl value.
  pose proof (sha1_Sum_length v) as Hh. unfold sha1.Size in Hh. rewrite Hh.
  set (size := length k + length v + 12 + 20).
  change (replicate size Byte.x00) with ([] ++ replicate size Byte.x00).
  rewrite copy_at_fill by (simpl; lia).
  rewrite copy_at_fill by (rewrite ?length_app; simpl; lia).
  rewrite copy_at_fill by (rewrite ?length_app; simpl; lia).
  rewrite copy_at_fill by (rewrite ?length_app; simpl; lia).
  rewrite copy_at_fill by (rewrite ?length_app; simpl; lia).
  rewrite copy_at_fill by (rewrite ?length_app; simpl; lia).
  rewrite !length_le32, Hh.
  replace (size - 4 - 4 - length k - 4 - length v - 20) with 0 by lia.
  replace size with (12 + length k + length v + 20) by lia.
  simpl replicate. rewrite app_nil_r, <- !app_assoc. reflexivity.
Qed.

Lemma length_record_bytes (k v : list byte) :
  length (record_bytes k v) = 12 + length k + length v + 20.
Proof.
  unfold record_bytes. rewrite !length_app, !length_le32, sha1_Sum_length.
  unfold sha1.Size. lia.
Qed.

(** ** Decoding a buffer made of the six fields *)

Lemma bind_Ret {A B} (a : A) (k : A -> outcome B) : (Ret a ≫= k) = k a.
Proof. reflexivity. Qed.

Lemma slice_from_app (pre rest : list byte) (lo : nat) :
  lo = length pre -> slice_from (pre ++ rest) lo = Ret rest.
Proof.
  intros ->. unfold slice_from. rewrite length_app.
  rewrite decide_True by lia. by rewrite drop_app_length.
Qed.

Lemma slice_app (pre mid rest : list byte) (lo hi : nat) :
  lo = length pre -> hi = lo + length mid ->
  slice (pre ++ mid ++ rest) lo hi = Ret mid.
Proof.
  intros -> ->. unfold slice. rewrite !length_app.
  rewrite decide_True by lia. rewrite drop_app_length.
  replace (length pre + length mid - length pre) with (length mid) by lia.
  by rewrite take_app_length.
Qed.

Lemma equalHash_loop_refl (a : list byte) : equalHash_loop a a = true.
Proof. induction a as [|x a IH]; simpl; [done|]. by rewrite decide_False by auto. Qed.

Lemma equalHash_loop_eq (a b : list byte) :
  length a = length b -> equalHash_loop a b = true -> a = b.
Proof.
  revert b. induction a as [|x a IH]; intros [|y b] Hlen H; simpl in *; try done.
  destruct (decide (x <> y)) as [|Hxy]; [done|].
  apply dec_stable in Hxy. subst y. f_equal. apply IH; [lia|done].
Qed.

Lemma equalHash_true_iff (a b : list byte) : equalHash a b = true <-> a = b.
Proof.
  unfold equalHash. split.
  - destruct (decide (length a <> length b)) as [|Hl]; [done|].
    apply dec_stable in Hl. by apply equalHash_loop_eq.
  - intros ->. rewrite decide_False by auto. apply equalHash_loop_refl.
Qed.

Lemma Decode_fields (sz k v h : list byte) (klz vlz : Z) :
  length sz = 4 ->
  Z.to_nat (klz mod 2 ^ 32) = length k ->
  Z.to_nat (vlz mod 2 ^ 32) = length v ->
  Decode (sz ++ le32 klz ++ k ++ le32 vlz ++ v ++ h)
  = Ret (Entry k v,
         if equalHash h (sha1.Sum v) then None else Some (ErrHashMismatch k)).
Proof.
  intros Hsz Hkl Hvl.
  set (input := sz ++ le32 klz ++ k ++ le32 vlz ++ v ++ h).
  assert (H1 : slice_from input 4 = Ret (le32 klz ++ k ++ le32 vlz ++ v ++ h))
    by (by apply slice_from_app).
  assert (H2 : slice input 8 (8 + length k) = Ret k).
  { subst input. rewrite (app_assoc sz). apply slice_app.
    - rewrite length_app, length_le32. lia.
    - done. }
  assert (H3 : slice_from input (8 + length k) = Ret (le32 vlz ++ v ++ h)).
  { subst input. rewrite (app_assoc sz), (app_assoc (sz ++ _)).
    apply slice_from_app. rewrite !length_app, length_le32. lia. }
  assert (H4 : slice input (12 + length k) (12 + length k + length v) = Ret v).
  { subst input.
    rewrite (app_assoc sz), (app_assoc (sz ++ _)), (app_assoc ((sz ++ _) ++ _)).
    apply slice_app; [|done]. rewrite !length_app, !length_le32. lia. }
  assert (H5 : slice_from input (12 + length k + length v) = Ret h).
  { subst input.
    rewrite (app_assoc sz), (app_assoc (sz ++ _)), (app_assoc ((sz ++ _) ++ _)),
      (app_assoc (((sz ++ _) ++ _) ++ _)).
    apply slice_from_app. rewrite !length_app, !length_le32. lia. }
  unfold Decode.
  rewrite H1, bind_Ret, Uint32_le32, bind_Ret, Hkl, H2, bind_Ret, H3, bind_Ret,
    Uint32_le32, bind_Ret, Hvl, H4, bind_Ret, H5, bind_Ret.
  by destruct (equalHash h (sha1.Sum v)).
Qed.

Lemma length_Encode (k v : list byte) :
  length (Encode (Entry k v)) = 12 + length k + length v + 20.
Proof. rewrite Encode_record_bytes. apply length_record_bytes. Qed.

(** C9, as amended.  For every key and value whose record is shorter than
    [2^32] bytes, [Encode] produces the six fields in the order total size
    (4 bytes, little-endian), key length (4 bytes, little-endian), key,
    value length (4 bytes, little-endian), value, checksum (the 20 bytes of
    the SHA-1 digest of the value), where the total size is
    [12 + key_len + value_len + 20], which is also the length of the
    produced bytes.  Read back as [binary.LittleEndian.Uint32] reads them,
    the three 4-byte fields are the length of the record, of the key and of
    the value. *)
Theorem Encode_layout (k v : list byte) :
  let total := 12 + length k + length v + 20 in
  (Z.of_nat total < 2 ^ 32)%Z ->
  Encode (Entry k v)
  = le32 (Z.of_nat total) ++ le32 (Z.of_nat (length k)) ++ k
      ++ le32 (Z.of_nat (length v)) ++ v ++ sha1.Sum v
  /\ length (sha1.Sum v) = 20
  /\ length (Encode (Entry k v)) = total
  /\ Uint32 (Encode (Entry k v)) = Ret (Z.of_nat (length (Encode (Entry k v))))
  /\ Uint32 (drop 4 (Encode (Entry k v))) = Ret (Z.of_nat (length k))
  /\ Uint32 (drop (8 + length k) (Encode (Entry k v))) = Ret (Z.of_nat (length v)).
Proof.
  intros total Hfit.
  assert (Hu : forall n, n <= total -> uint32 n = Z.of_nat n)
    by (intros n Hn; unfold uint32; apply Z.mod_small; lia).
  assert (Hm : forall n, n <= total -> (Z.of_nat n mod 2 ^ 32)%Z = Z.of_nat n)
    by (intros n Hn; apply Z.mod_small; lia).
  assert (He : Encode (Entry k v)
               = le32 (Z.of_nat total) ++ le32 (Z.of_nat (length k)) ++ k
                   ++ le32 (Z.of_nat (length v)) ++ v ++ sha1.Sum v).
  { rewrite Encode_record_bytes. unfold record_bytes. fold total.
    by rewrite !Hu by (unfold total; lia). }
  split; [exact He|]. split; [apply sha1_Sum_length|].
  split; [apply length_Encode|].
  rewrite length_Encode. fold total. rewrite He. split; [|split].
  - by rewrite Uint32_le32, Hm.
  - rewrite drop_app_length' by reflexivity.
    by rewrite Uint32_le32, Hm by (unfold total; lia).
  - set (rest := le32 (Z.of_nat (length v)) ++ v ++ sha1.Sum v).
    assert (E : le32 (Z.of_nat total) ++ le32 (Z.of_nat (length k)) ++ k ++ rest
                = (le32 (Z.of_nat total) ++ le32 (Z.of_nat (length k)) ++ k)
                    ++ rest) by (by rewrite <- !app_assoc).
    rewrite E, drop_app_length' by (rewrite !length_app, !length_le32; lia).
    unfold rest. by rewrite Uint32_le32, Hm by (unfold total; lia).
Qed.

Lemma Encode_layout_witness :
  Encode (Entry (bytes_of_string "key") (bytes_of_string "value"))
  = le32 40 ++ le32 3 ++ bytes_of_string "key"
      ++ le32 5 ++ bytes_of_string "value"
      ++ sha1.Sum (bytes_of_string "value")
  /\ length (Encode (Entry (bytes_of_string "key") (bytes_of_string "value"))) = 40.
Proof.
  destruct (Encode_layout (bytes_of_string "key") (bytes_of_string "value"))
    as (He & _ & Hl & _); [simpl; lia|].
  split; [exact He|exact Hl].
Defined.

(** When the record has [2^32] bytes its size field holds 0. *)
Lemma Encode_size_wraps (n : nat) :
  Z.of_nat n = (2 ^ 32 - 32)%Z ->
  Uint32 (Encode (Entry (replicate n Byte.x00) [])) = Ret 0%Z
  /\ Z.of_nat (length (Encode (Entry (replicate n Byte.x00) []))) = (2 ^ 32)%Z.
Proof.
  intros Hn. split.
  - rewrite Encode_record_bytes. unfold record_bytes.
    rewrite length_replicate, Uint32_le32. f_equal.
    unfold uint32. rewrite Z.mod_mod by lia.
    replace (Z.of_nat (12 + n + length (@nil byte) + 20)) with (2 ^ 32)%Z
      by (cbn [length]; lia).
    reflexivity.
  - rewrite length_Encode, length_replicate. cbn [length]. lia.
Qed.

(** C9, counterexample: a key of [2^32 - 32] zero bytes with the empty
    value.  The record has [2^32] bytes and its size field holds 0. *)
Lemma Encode_layout_counterexample :
  let k := replicate (Z.to_nat (2 ^ 32 - 32)) Byte.x00 in
  Uint32 (Encode (Entry k [])) = Ret 0%Z
  /\ Z.of_nat (length (Encode (Entry k []))) = (2 ^ 32)%Z.
Proof. apply Encode_size_wraps. apply Z2Nat.id. lia. Qed.

(** ** Round trip *)

(** Below [2^32] bytes the lengths are stored exactly and the record decodes
    to the entry it was made from. *)
Lemma Decode_Encode_small (k v : list byte) :
  (Z.of_nat (length k) < 2 ^ 32)%Z ->
  (Z.of_nat (length v) < 2 ^ 32)%Z ->
  Decode (Encode (Entry k v)) = Ret (Entry k v, None).
Proof.
  intros Hk Hv. rewrite Encode_record_bytes. unfold record_bytes.
  rewrite Decode_fields.
  - assert (E : equalHash (sha1.Sum v) (sha1.Sum v) = true)
      by (by apply equalHash_true_iff).
    by rewrite E.
  - apply length_le32.
  - pose proof (uint32_range (length k)).
    rewrite Z.mod_small by done. by apply uint32_small.
  - pose proof (uint32_range (length v)).
    rewrite Z.mod_small by done. by apply uint32_small.
Qed.

(** C4, as amended.  For every key and every value of fewer than [2^32]
    bytes each, decoding the bytes produced by [Encode] returns no error and
    yields the original entry; empty keys and empty values are included. *)
Theorem Decode_Encode (k v : list byte) :
  (Z.of_nat (length k) < 2 ^ 32)%Z ->
  (Z.of_nat (length v) < 2 ^ 32)%Z ->
  Decode (Encode (Entry k v)) = Ret (Entry k v, None).
Proof. apply Decode_Encode_small. Qed.

Lemma Decode_Encode_witness :
  Decode (Encode (Entry (bytes_of_string "key") (bytes_of_string "value")))
  = Ret (Entry (bytes_of_string "key") (bytes_of_string "value"), None)
  /\ Decode (Encode (Entry [] [])) = Ret (Entry [] [], None).
Proof.
  split.
  - apply (Decode_Encode (bytes_of_string "key") (bytes_of_string "value"));
      simpl; lia.
  - apply (Decode_Encode [] []); simpl; lia.
Defined.

(** A key of [2^32] bytes is stored with the length field 0 and is read
    back as the empty key. *)
Lemma Decode_Encode_wraps (n : nat) (v : list byte) :
  Z.of_nat n = (2 ^ 32)%Z ->
  Decode (Encode (Entry (replicate n Byte.x00) v))
  <> Ret (Entry (replicate n Byte.x00) v, None).
Proof.
  intros Hn. rewrite Encode_record_bytes. unfold record_bytes.
  rewrite length_replicate.
  assert (Hu : uint32 n = 0%Z) by (unfold uint32; by rewrite Hn).
  rewrite Hu.
  assert (Hr : replicate n Byte.x00 = le32 0 ++ replicate (n - 4) Byte.x00).
  { change (le32 0) with (replicate 4 Byte.x00).
    rewrite <- replicate_add. f_equal. lia. }
  rewrite Hr at 1.
  rewrite <- (app_assoc (le32 0)).
  change (le32 0 ++ le32 0 ++ ?r) with (le32 0 ++ [] ++ le32 0 ++ [] ++ r).
  rewrite Decode_fields by done.
  intros Heq. injection Heq as Hk _ _.
  apply (f_equal length) in Hk. rewrite length_replicate in Hk.
  simpl in Hk. lia.
Qed.

(** C4, counterexample: a key of [2^32] zero bytes. *)
Lemma Decode_Encode_counterexample :
  Decode (Encode (Entry (replicate (Z.to_nat (2 ^ 32)) Byte.x00) []))
  <> Ret (Entry (replicate (Z.to_nat (2 ^ 32)) Byte.x00) [], None).
Proof.
  apply Decode_Encode_wraps. apply Z2Nat.id. apply Z.pow_nonneg. lia.
Qed.

(** ** Buffers whose length fields reach past their end *)

Lemma Uint32_cases (b : list byte) :
  (length b < 4 /\ Uint32 b = Panic) \/
  (4 <= length b /\ exists z, Uint32 b = Ret z).
Proof.
  destruct b as [|b0 [|b1 [|b2 [|b3 rest]]]]; simpl; try (left; split; [lia|done]).
  right. split; [lia|]. eauto.
Qed.

(** [Decode] either finds the buffer too short for what its length fields
    announce, and panics, or returns. *)
Lemma Decode_fit_cases (input : list byte) :
  (Decode input = Panic <-> ~ lengths_fit input)
  /\ (lengths_fit input ->
      exists e err, Decode input = Ret (e, err)
        /\ (err = None \/ err = Some (ErrHashMismatch (key e)))).
Proof.
  unfold lengths_fit, value_len_field, key_len_field, Decode, slice_from, slice.
  destruct (decide (4 <= length input)) as [H4|H4]; cycle 1.
  { rewrite (drop_ge input 4) by lia. simpl. split; [split; [lia|done]|lia]. }
  rewrite bind_Ret.
  destruct (Uint32_cases (drop 4 input)) as [[Hl ->]|[Hl [klz ->]]].
  { rewrite length_drop in Hl.
    change (Panic ≫= _) with (@Panic (entry * option error)).
    rewrite (drop_ge input (8 + 0)) by lia. simpl. split; [split; [lia|done]|lia]. }
  rewrite bind_Ret. rewrite length_drop in Hl.
  set (kl := Z.to_nat klz).
  destruct (decide (8 <= 8 + kl <= length input)) as [Hk|Hk]; cycle 1.
  { rewrite (drop_ge input (8 + kl)) by lia. simpl. split; [split; [lia|done]|lia]. }
  rewrite bind_Ret, decide_True, bind_Ret by lia.
  destruct (Uint32_cases (drop (8 + kl) input)) as [[Hv ->]|[Hv [vlz ->]]].
  { rewrite length_drop in Hv. simpl. split; [split; [lia|done]|lia]. }
  rewrite bind_Ret. rewrite length_drop in Hv.
  set (vl := Z.to_nat vlz).
  destruct (decide (12 + kl <= 12 + kl + vl <= length input)) as [Hw|Hw]; cycle 1.
  { simpl. split; [split; [lia|done]|lia]. }
  rewrite bind_Ret, decide_True, bind_Ret by lia.
  split.
  - split; [|lia]. by destruct (negb _).
  - intros _. destruct (negb _); eauto.
Qed.

(** C3, as amended.  [Decode] checks no bounds and has no error for
    malformed lengths: it panics exactly on the buffers that are too short
    for the key and the value that their length fields announce, and on every
    other buffer it returns, with no error or with the hash mismatch. *)
Theorem Decode_panics_iff (input : list byte) :
  (Decode input = Panic <-> ~ lengths_fit input)
  /\ (lengths_fit input ->
      exists e err, Decode input = Ret (e, err)
        /\ (err = None \/ err = Some (ErrHashMismatch (key e)))).
Proof. apply Decode_fit_cases. Qed.

Lemma Decode_panics_iff_witness :
  exists e err,
    Decode (Encode (Entry (bytes_of_string "k") (bytes_of_string "v"))) = Ret (e, err)
    /\ (err = None \/ err = Some (ErrHashMismatch (key e))).
Proof.
  destruct (Decode_panics_iff
              (Encode (Entry (bytes_of_string "k") (bytes_of_string "v"))))
    as [_ Hfit].
  apply Hfit. unfold lengths_fit. vm_compute. lia.
Defined.

(** C3, counterexample: eight bytes whose key length field is 100.  The
    slice [input[8:108]] is out of range and [Decode] panics; no error is
    returned. *)
Lemma Decode_malformed_counterexample :
  Decode (le32 12 ++ le32 100) = Panic.
Proof. reflexivity. Qed.

(** ** Reading a record from a stream *)

Lemma Decode_not_Blocked (input : list byte) : Decode input <> Blocked.
Proof.
  destruct (decide (12 + key_len_field input + value_len_field input
                    <= length input)) as [Hfit|Hfit].
  - destruct (proj2 (Decode_fit_cases input) Hfit) as (e & err & -> & _). done.
  - apply (proj1 (Decode_fit_cases input)) in Hfit. by rewrite Hfit.
Qed.

Lemma Decode_error (input : list byte) (e : entry) (err : error) :
  Decode input = Ret (e, Some err) -> err = ErrHashMismatch (key e).
Proof.
  intros Hd.
  destruct (decide (12 + key_len_field input + value_len_field input
                    <= length input)) as [Hfit|Hfit].
  - destruct (proj2 (Decode_fit_cases input) Hfit) as (e' & err' & Hd' & Herr).
    rewrite Hd in Hd'. injection Hd' as <- <-.
    destruct Herr as [?|Herr]; [done|]. by injection Herr.
  - apply (proj1 (Decode_fit_cases input)) in Hfit. by rewrite Hfit in Hd.
Qed.

Lemma defaultBufSize_gt : 4 < defaultBufSize.
Proof. unfold defaultBufSize. lia. Qed.

Lemma Peek_4_short (r : Reader) :
  length (remaining r) < 4 ->
  Peek r 4 = (MkReader (remaining r) [], remaining r, Some EOF).
Proof.
  pose proof defaultBufSize_gt as HB.
  unfold remaining. rewrite length_app. intros Hlen.
  destruct r as [buf src]; cbn [rbuf rsrc] in *.
  unfold Peek. cbn [Peek_loop]. unfold Buffered; cbn [rbuf rsrc].
  rewrite decide_True by lia.
  unfold fill, Buffered; cbn [rbuf rsrc].
  destruct (decide ((defaultBufSize - length buf) `min` length src = 0)) as [Hz|Hz].
  - assert (src = []) as -> by (apply length_zero_iff_nil; lia).
    rewrite app_nil_r. cbn [length] in *. cbv beta iota.
    unfold Buffered; cbn [rbuf rsrc]. by rewrite decide_True by lia.
  - replace ((defaultBufSize - length buf) `min` length src) with (length src) by lia.
    rewrite take_ge, drop_ge by lia. cbn [rbuf rsrc].
    assert (Hl : length (buf ++ src) < 4) by (rewrite length_app; lia).
    rewrite decide_True by lia.
    unfold fill, Buffered; cbn [rbuf rsrc length].
    rewrite Nat.min_0_r.
    rewrite decide_True by lia.
    unfold Buffered; cbn [rbuf rsrc].
    by rewrite decide_True by lia.
Qed.

Lemma Peek_4_enough (r : Reader) :
  4 <= length (remaining r) ->
  exists r', Peek r 4 = (r', take 4 (rbuf r'), None)
    /\ 4 <= Buffered r' /\ remaining r' = remaining r.
Proof.
  pose proof defaultBufSize_gt as HB.
  unfold remaining. rewrite length_app. intros Hlen.
  destruct r as [buf src]; cbn [rbuf rsrc] in *.
  unfold Peek. cbn [Peek_loop]. unfold Buffered; cbn [rbuf rsrc].
  destruct (decide (length buf < 4 /\ length buf < defaultBufSize)) as [Hb|Hb].
  - unfold fill, Buffered; cbn [rbuf rsrc].
    rewrite decide_False by lia.
    set (n := (defaultBufSize - length buf) `min` length src).
    cbn [rbuf rsrc].
    assert (Hl : 4 <= length (buf ++ take n src))
      by (rewrite length_app, length_take; lia).
    rewrite (decide_False (P := length (buf ++ take n src) < 4 /\ _)) by lia.
    unfold Buffered; cbn [rbuf rsrc].
    rewrite decide_False by lia.
    exists (MkReader (buf ++ take n src) (drop n src)).
    split; [reflexivity|]. unfold Buffered; cbn [rbuf rsrc]. split; [exact Hl|].
    by rewrite <- app_assoc, take_drop.
  - cbn [rbuf rsrc]. rewrite decide_False by lia.
    exists (MkReader buf src).
    split; [reflexivity|]. unfold Buffered; cbn [rbuf rsrc]. split; [lia|done].
Qed.

Lemma take_min_length {A} (l : list A) (n : nat) :
  take (n `min` length l) l = take n l.
Proof.
  destruct (decide (n <= length l)).
  - by rewrite Nat.min_l by lia.
  - rewrite Nat.min_r by lia. by rewrite !take_ge by lia.
Qed.

Lemma drop_min_length {A} (l : list A) (n : nat) :
  drop (n `min` length l) l = drop n l.
Proof.
  destruct (decide (n <= length l)).
  - by rewrite Nat.min_l by lia.
  - rewrite Nat.min_r by lia. by rewrite !drop_ge by lia.
Qed.

(** With four bytes or more left, [DecodeFromReader] reads the declared
    size, takes what the buffer holds of the record, and decodes these
    bytes padded with zeros up to the declared size. *)
Lemma DecodeFromReader_enough (e0 : entry) (r : Reader) :
  4 <= length (remaining r) ->
  exists r' size,
    4 <= Buffered r' /\ remaining r' = remaining r
    /\ Uint32 (remaining r) = Ret size
    /\ let n := Z.to_nat size `min` Buffered r' in
       DecodeFromReader e0 r
       = ('(e, derr) ← Decode (take n (remaining r)
                                 ++ replicate (Z.to_nat size - n) Byte.x00);
          Ret (MkReader (drop n (rbuf r')) (rsrc r'), e, n, derr)).
Proof.
  intros Hlen.
  destruct (Peek_4_enough r Hlen) as (r' & HP & Hb & Hrem).
  exists r'.
  assert (Hu : Uint32 (take 4 (rbuf r')) = Uint32 (remaining r)).
  { rewrite <- Hrem. unfold remaining. unfold Buffered in Hb.
    destruct (rbuf r') as [|b0 [|b1 [|b2 [|b3 rest]]]]; simpl in *; try lia.
    done. }
  destruct (Uint32_cases (remaining r)) as [[? _]|[_ [size Hsz]]]; [lia|].
  exists size. split; [done|]. split; [done|]. split; [done|].
  intros n. unfold DecodeFromReader. rewrite HP, Hu, Hsz, bind_Ret.
  assert (Hgot : take (Z.to_nat size) (rbuf r') = take n (remaining r)).
  { rewrite <- Hrem. unfold remaining, n, Buffered.
    rewrite take_app_le by lia. by rewrite take_min_length. }
  assert (Hdrop : drop (Z.to_nat size) (rbuf r') = drop n (rbuf r'))
    by (unfold n, Buffered; by rewrite drop_min_length).
  assert (Hn : length (take n (remaining r)) = n).
  { rewrite length_take, <- Hrem. unfold remaining. rewrite length_app.
    unfold n, Buffered. lia. }
  unfold Read.
  destruct (decide (Z.to_nat size = 0)) as [Hz|Hz].
  - assert (n = 0) as Hn0 by (unfold n; lia). rewrite Hn0, Hz.
    rewrite take_0, drop_0. cbn [length app]. by destruct r'.
  - rewrite decide_False by lia.
    rewrite Hgot, Hdrop, Hn. reflexivity.
Qed.

(** Apart from a panic, [DecodeFromReader] ends in one of three ways. *)
Lemma DecodeFromReader_error (e0 : entry) (r r' : Reader) (e : entry) (n : nat)
    (err : error) :
  DecodeFromReader e0 r = Ret (r', e, n, Some err) ->
  (err = EOF /\ length (remaining r) < 4 /\ n = 0 /\ e = e0)
  \/ (err = ErrHashMismatch (key e) /\ 4 <= length (remaining r)).
Proof.
  intros Hd. destruct (decide (length (remaining r) < 4)) as [Hs|Hs].
  - unfold DecodeFromReader in Hd. rewrite Peek_4_short in Hd by done.
    simpl in Hd. injection Hd as <- <- <- <-. left. done.
  - destruct (DecodeFromReader_enough e0 r) as (r1 & size & _ & _ & _ & Heq); [lia|].
    rewrite Heq in Hd. clear Heq.
    destruct (Decode _) as [[e1 [derr|]]| |] eqn:HD; simpl in Hd; try done.
    injection Hd as <- <- <- <-. right. split; [|lia].
    by apply Decode_error in HD.
Qed.

Lemma DecodeFromReader_not_Blocked (e0 : entry) (r : Reader) :
  DecodeFromReader e0 r <> Blocked.
Proof.
  destruct (decide (length (remaining r) < 4)) as [Hs|Hs].
  - unfold DecodeFromReader. by rewrite Peek_4_short by done.
  - destruct (DecodeFromReader_enough e0 r) as (r1 & size & _ & _ & _ & Heq); [lia|].
    rewrite Heq. pose proof (Decode_not_Blocked
      (take (Z.to_nat size `min` Buffered r1) (remaining r) ++
       replicate (Z.to_nat size - Z.to_nat size `min` Buffered r1) Byte.x00)).
    by destruct (Decode _) as [[e1 derr]| |].
Qed.

(** A record that is read without error takes at least one byte off the
    stream. *)
Lemma DecodeFromReader_progress (e0 : entry) (r r' : Reader) (e : entry) (n : nat) :
  DecodeFromReader e0 r = Ret (r', e, n, None) ->
  1 <= n /\ remaining r' = drop n (remaining r) /\ n <= length (remaining r).
Proof.
  intros Hd. destruct (decide (length (remaining r) < 4)) as [Hs|Hs].
  - unfold DecodeFromReader in Hd. by rewrite Peek_4_short in Hd by done.
  - destruct (DecodeFromReader_enough e0 r) as (r1 & size & Hb & Hrem & _ & Heq); [lia|].
    rewrite Heq in Hd. clear Heq.
    set (m := Z.to_nat size `min` Buffered r1) in *.
    destruct (Decode _) as [[e1 [derr|]]| |] eqn:HD; simpl in Hd; try done.
    injection Hd as <- <- <-.
    assert (Hm : m <= Buffered r1) by (unfold m; lia).
    assert (Hlen : length (remaining r) = Buffered r1 + length (rsrc r1)).
    { rewrite <- Hrem. unfold remaining, Buffered. by rewrite length_app. }
    split; [|split].
    + destruct (decide (m = 0)) as [Hm0|]; [|lia].
      assert (Hz : Z.to_nat size = 0) by (unfold m in Hm0; lia).
      rewrite Hm0, Hz in HD. by vm_compute in HD.
    + rewrite <- Hrem. unfold remaining. cbn [rbuf rsrc].
      unfold Buffered in Hm. by rewrite drop_app_le by lia.
    + lia.
Qed.

(** C8, as amended.  [DecodeFromReader] returns the end-of-data condition,
    [io.EOF] itself with nothing consumed, exactly when fewer than four
    bytes are left before the peek: no byte at all and a partial size prefix
    alike.  It has no condition for a truncated record: with four bytes or
    more left it returns at least one byte consumed and no error or the
    hash mismatch of [Decode], or it panics. *)
Theorem DecodeFromReader_end_of_data (e0 : entry) (r : Reader) :
  (length (remaining r) < 4 ->
   DecodeFromReader e0 r = Ret (MkReader (remaining r) [], e0, 0, Some EOF))
  /\ (4 <= length (remaining r) ->
      match DecodeFromReader e0 r with
      | Ret (_, e, n, err) =>
          1 <= n /\ (err = None \/ err = Some (ErrHashMismatch (key e)))
      | Panic => True
      | Blocked => False
      end).
Proof.
  split; intros Hlen.
  - unfold DecodeFromReader. by rewrite Peek_4_short.
  - destruct (DecodeFromReader e0 r) as [[[[r' e] n] [err|]]| |] eqn:Hd.
    + pose proof Hd as Hd'.
      apply DecodeFromReader_error in Hd' as [(_ & ? & _)|[-> _]]; [lia|].
      split; [|by right].
      destruct (decide (n = 0)) as [->|]; [|lia]. exfalso.
      destruct (DecodeFromReader_enough e0 r Hlen)
        as (r1 & size & Hb & _ & _ & Heq).
      rewrite Heq in Hd.
      destruct (Decode _) as [[e1 derr]| |] eqn:HD; simpl in Hd; try done.
      injection Hd as _ _ Hn _.
      assert (Hz : Z.to_nat size = 0) by lia.
      rewrite Hn, Hz in HD. by vm_compute in HD.
    + apply DecodeFromReader_progress in Hd. split; [lia|by left].
    + done.
    + by apply DecodeFromReader_not_Blocked in Hd.
Qed.

Lemma DecodeFromReader_end_of_data_witness :
  DecodeFromReader no_entry (NewReader [Byte.x22])
  = Ret (MkReader [Byte.x22] [], no_entry, 0, Some EOF).
Proof.
  destruct (DecodeFromReader_end_of_data no_entry (NewReader [Byte.x22]))
    as [Hshort _].
  apply Hshort. simpl. lia.
Defined.

(** C8, counterexample.  A stream that ends inside the size prefix gives
    the same [io.EOF] as an empty stream, and a stream that ends inside the
    record (30 of its 34 bytes) gives the hash mismatch of a corrupted
    record. *)
Lemma DecodeFromReader_truncated_counterexample :
  DecodeFromReader no_entry (NewReader [])
  = Ret (MkReader [] [], no_entry, 0, Some EOF)
  /\ DecodeFromReader no_entry (NewReader [Byte.x22; Byte.x00])
     = Ret (MkReader [Byte.x22; Byte.x00] [], no_entry, 0, Some EOF)
  /\ DecodeFromReader no_entry
       (NewReader (take 30 (Encode (Entry (bytes_of_string "k") (bytes_of_string "v")))))
     = Ret (MkReader [] [], Entry (bytes_of_string "k") (bytes_of_string "v"), 30,
            Some (ErrHashMismatch (bytes_of_string "k"))).
Proof. repeat split; vm_compute; reflexivity. Qed.

(** ** Appending and rotation *)

Lemma OpenFile_create_write (fs : dir) (name : string) (data : list byte) :
  let '(fs1, f) := OpenFile_create fs name in
  f = MkFile name false
  /\ File_Write fs1 (Some f) data
     = (<[name := default [] (fs !! name) ++ data]> fs, length data, None).
Proof.
  unfold OpenFile_create.
  destruct (fs !! name) as [old|] eqn:Hn; (split; [done|]); unfold File_Write;
    cbn [fclosed fname].
  - by rewrite Hn.
  - rewrite lookup_insert_eq. cbn [default]. by rewrite insert_insert_eq.
Qed.

Ltac db_simpl :=
  cbn [segmentLimit currentSegment currentSegmentId currentOffset index mu
       writeCh closeCh wg set_segment set_index set_mu set_chans
       fclosed fname] in *.

(** What [writeEntry] does on an engine whose segment handle is open and
    whose lock is free, with and without rotation. *)
Lemma writeEntry_spec (fs : dir) (db : Db) (k v : list byte) (f : File) :
  currentSegment db = Some f -> fclosed f = false -> mu db = MkMu 0 false ->
  let data := Encode (Entry k v) in
  let id := currentSegmentId db in
  writeEntry fs db k v =
    if decide (Z.of_nat (currentOffset db + length data) > segmentLimit db)%Z
    then
      let new := segmentFilename (id + 1) in
      Ret (<[new := default [] (fs !! new) ++ data]> fs,
           MkDb (segmentLimit db) (Some (MkFile new false)) (id + 1)%Z
             (length data) (<[k := MkRef (id + 1) 0]> (index db))
             (mu db) (writeCh db) (closeCh db) (wg db),
           None)
    else
      Ret (<[fname f := default [] (fs !! fname f) ++ data]> fs,
           MkDb (segmentLimit db) (Some f) id
             (currentOffset db + length data)
             (<[k := MkRef id (currentOffset db)]> (index db))
             (mu db) (writeCh db) (closeCh db) (wg db),
           None).
Proof.
  intros Hf Hopen Hmu data id. unfold writeEntry. fold data.
  destruct db as [limit seg cid off idx m q cl w]; db_simpl. subst seg m id.
  destruct f as [name closed]; db_simpl; subst closed.
  destruct (decide (Z.of_nat (off + length data) > limit)%Z) as [Hrot|Hrot].
  - unfold File_Close, createNewSegment; db_simpl.
    pose proof (OpenFile_create_write fs (segmentFilename (cid + 1)) data) as Hw.
    destruct (OpenFile_create fs (segmentFilename (cid + 1))) as [fs1 f1].
    destruct Hw as [-> Hw]. db_simpl. rewrite Hw. reflexivity.
  - reflexivity.
Qed.




(** ** Closing the engine *)

(** What the first [Close] does, and what the second does. *)
Lemma Close_spec (pick_close : bool) (fs : dir) (db : Db) (f : File) :
  closeCh db = false -> wg db = 1 -> writeCh db = [] ->
  currentSegment db = Some f -> fclosed f = false ->
  let db' := MkDb (segmentLimit db) (Some (MkFile (fname f) true))
               (currentSegmentId db) (currentOffset db) (index db) (mu db)
               [] true 0 in
  Close pick_close fs db = Ret (db', None)
  /\ Close pick_close fs db' = Panic.
Proof.
  intros Hc Hw Hq Hf Hopen db'. split; [|reflexivity].
  unfold Close, writer. rewrite Hc. db_simpl. rewrite Hw, Hq. cbn [decide].
  rewrite decide_False by done. db_simpl. cbn [Nat.sub].
  rewrite decide_True by done. rewrite bind_Ret. db_simpl.
  rewrite Hf. unfold File_Close. rewrite Hopen. reflexivity.
Qed.

(** C2, as amended.  On an engine in service the first [Close] stops the
    writer (it closes the stop channel), waits until the writer has left its
    loop, closes the handle of the current segment and returns no error.
    A second [Close] is not a no-op: closing the closed channel panics. *)
Theorem Close_once (pick_close : bool) (fs : dir) (db : Db) :
  in_service db ->
  exists db',
    Close pick_close fs db = Ret (db', None)
    /\ closeCh db' = true /\ wg db' = 0
    /\ (exists f, currentSegment db' = Some f /\ fclosed f = true)
    /\ Close pick_close fs db' = Panic.
Proof.
  intros (Hc & Hw & Hq & _ & f & Hf & Hopen).
  destruct (Close_spec pick_close fs db f Hc Hw Hq Hf Hopen) as [H1 H2].
  eexists. split; [exact H1|]. db_simpl.
  split; [done|]. split; [done|]. split; [|exact H2].
  eexists. split; reflexivity.
Qed.

Lemma Close_once_witness :
  OpenWithLimit ∅ 50 = Some (Ret (service_fs, inl service_db))
  /\ exists db',
      Close false service_fs service_db = Ret (db', None)
      /\ closeCh db' = true /\ wg db' = 0
      /\ (exists f, currentSegment db' = Some f /\ fclosed f = true)
      /\ Close false service_fs db' = Panic.
Proof.
  split; [vm_compute; reflexivity|].
  apply (Close_once false service_fs service_db).
  repeat split. exists (MkFile "segment-1" false). split; reflexivity.
Defined.

(** C2, counterexample: open an empty directory, close, close again. *)
Lemma Close_twice_counterexample :
  let fs : dir := {["segment-1" := []]} in
  let db := MkDb defaultMaxSegmentSize (Some (MkFile "segment-1" false)) 1 0 ∅
              (MkMu 0 false) [] false 1 in
  let db' := MkDb defaultMaxSegmentSize (Some (MkFile "segment-1" true)) 1 0 ∅
               (MkMu 0 false) [] true 0 in
  Open ∅ = Some (Ret (fs, inl db))
  /\ Close false fs db = Ret (db', None)
  /\ Close false fs db' = Panic.
Proof. repeat split; vm_compute; reflexivity. Qed.

(** ** The two engines under sequential use *)

Ltac seq_simpl :=
  cbn [Sequential.segmentLimit Sequential.currentSegment
       Sequential.currentSegmentId Sequential.currentOffset Sequential.index
       plain] in *.

Lemma fmap_Ret {A B} (g : A -> B) (a : A) : g <$> Ret a = Ret (g a).
Proof. reflexivity. Qed.

(** With the lock free, [writeEntry] is the plain [Put] on the common
    fields, and it leaves the channels, the wait group and the lock as they
    were. *)
Lemma writeEntry_plain (fs : dir) (db : Db) (k v : list byte) :
  mu db = MkMu 0 false ->
  exists fs' db' err,
    writeEntry fs db k v = Ret (fs', db', err)
    /\ Sequential.Put fs (plain db) k v = (fs', plain db', err)
    /\ mu db' = mu db /\ writeCh db' = writeCh db
    /\ closeCh db' = closeCh db /\ wg db' = wg db.
Proof.
  intros Hmu. destruct db as [limit seg cid off idx m q cl w]; db_simpl. subst m.
  unfold writeEntry, Sequential.Put, plain; db_simpl; seq_simpl.
  set (data := Encode (Entry k v)).
  destruct (decide (Z.of_nat (off + length data) > limit)%Z) as [Hrot|Hrot].
  - destruct seg as [[name [|]]|]; cbn [File_Close fclosed fname]; db_simpl.
    + eexists _, _, _. repeat split; reflexivity.
    + unfold createNewSegment, Sequential.createNewSegment; db_simpl; seq_simpl.
      destruct (OpenFile_create fs (segmentFilename (cid + 1))) as [fs1 f1] eqn:Hc.
      assert (Hf1 : f1 = MkFile (segmentFilename (cid + 1)) false).
      { unfold OpenFile_create in Hc. destruct (fs !! _); by injection Hc. }
      subst f1. db_simpl; seq_simpl. cbn [File_Write fclosed fname].
      eexists _, _, _. repeat split; reflexivity.
    + eexists _, _, _. repeat split; reflexivity.
  - destruct seg as [[name [|]]|]; cbn [File_Write fclosed fname]; db_simpl.
    + eexists _, _, _. repeat split; reflexivity.
    + eexists _, _, _. repeat split; reflexivity.
    + eexists _, _, _. repeat split; reflexivity.
Qed.

(** The handle of the current segment stays open across [writeEntry]. *)
Lemma writeEntry_in_service (fs fs' : dir) (db db' : Db) (k v : list byte)
    (err : option error) :
  in_service db -> writeEntry fs db k v = Ret (fs', db', err) ->
  in_service db' /\ err = None.
Proof.
  intros (Hc & Hw & Hq & Hmu & f & Hf & Hopen) Hwe.
  rewrite (writeEntry_spec fs db k v f Hf Hopen Hmu) in Hwe.
  destruct (decide _); injection Hwe as <- <- <-; (split; [|done]);
    unfold in_service; db_simpl; repeat split; try done; eauto.
Qed.

Lemma Put_plain (pick_close : bool) (fs : dir) (db : Db) (k v : list byte) :
  in_service db ->
  exists fs' db',
    Put pick_close fs db k v = Ret (fs', db', None)
    /\ Sequential.Put fs (plain db) k v = (fs', plain db', None)
    /\ in_service db'.
Proof.
  intros Hs. pose proof Hs as (Hc & Hw & Hq & Hmu & _).
  unfold Put, writer. db_simpl. rewrite Hw, Hq, Hc. cbn [app].
  rewrite decide_False by done.
  assert (Hdb : set_chans (set_chans db [MkReq k v] false 1) [] false 1 = db).
  { destruct db; db_simpl. by subst. }
  rewrite Hdb. cbn [req_key req_value].
  destruct (writeEntry_plain fs db k v Hmu)
    as (fs' & db' & err & Hwe & Hput & _).
  rewrite Hwe. rewrite decide_True by done.
  destruct (writeEntry_in_service _ _ _ _ _ _ _ Hs Hwe) as [Hs' ->].
  eauto.
Qed.

Lemma DecodeFromReader_not_corrupted (e0 : entry) (r r' : Reader) (e : entry)
    (n : nat) (err : error) :
  DecodeFromReader e0 r = Ret (r', e, n, Some err) ->
  errors_Is err ErrCorrupted = false.
Proof.
  intros Hd. by apply DecodeFromReader_error in Hd as [(-> & _)|(-> & _)].
Qed.

Lemma Get_plain (fs : dir) (db : Db) (k : list byte) :
  mu db = MkMu 0 false ->
  Get fs db k = (fun '(v, err) => (db, v, err)) <$> Sequential.Get fs (plain db) k.
Proof.
  intros Hmu. unfold Get, Sequential.Get. rewrite Hmu. seq_simpl.
  unfold RLock, RUnlock; cbn [locked readers]. rewrite !bind_Ret.
  cbn [locked readers]. rewrite bind_Ret.
  assert (Hdb : set_mu db (MkMu 0 false) = db).
  { destruct db; db_simpl. by subst. }
  rewrite Hdb.
  destruct (index db !! k) as [ref|]; [|done].
  destruct (fs !! segmentFilename (segmentId ref)) as [data|]; [|done].
  destruct (DecodeFromReader no_entry (NewReader (drop (offset ref) data)))
    as [[[[r' e] n] [err|]]| |] eqn:Hd; try done.
  cbn. by rewrite (DecodeFromReader_not_corrupted _ _ _ _ _ _ Hd).
Qed.

(** From an engine in service, the same calls give the same replies, the
    same files and the same common fields in both engines. *)
Lemma run_plain (pick_close : bool) (calls : list call) (fs : dir) (db : Db) :
  in_service db ->
  (fun '(fs', db', rs) => (fs', plain db', rs)) <$> run pick_close calls fs db
  = Sequential.run calls fs (plain db).
Proof.
  revert fs db. induction calls as [|[k v|k] rest IH]; intros fs db Hs.
  - reflexivity.
  - cbn [run Sequential.run].
    destruct (Put_plain pick_close fs db k v Hs) as (fs' & db' & HP & HS & Hs').
    rewrite HP, HS, bind_Ret. rewrite <- (IH fs' db' Hs').
    by destruct (run pick_close rest fs' db') as [[[fs2 db2] rs]| |].
  - cbn [run Sequential.run].
    pose proof Hs as (_ & _ & _ & Hmu & _).
    rewrite (Get_plain fs db k Hmu).
    destruct (Sequential.Get fs (plain db) k) as [[val err]| |]; try done.
    rewrite fmap_Ret, !bind_Ret. rewrite <- (IH fs db Hs).
    by destruct (run pick_close rest fs db) as [[[fs2 db2] rs]| |].
Qed.

(** *** Recovery in the two engines *)

(** The fuel handed to the loop of [recoverSegment] is enough: every record
    read without error takes at least one byte off the stream. *)
Lemma recover_loop_total (fuel : nat) (id : Z) (reader : Reader) (off : nat)
    (idx : hashIndex) :
  length (remaining reader) < fuel ->
  is_Some (recover_loop fuel id reader off idx).
Proof.
  revert reader off idx. induction fuel as [|fuel IH]; intros reader off idx Hlt.
  - lia.
  - cbn [recover_loop].
    destruct (DecodeFromReader no_entry reader)
      as [[[[r' e] n] [err|]]| |] eqn:Hd; try done.
    + by destruct (errors_Is err EOF).
    + apply IH. apply DecodeFromReader_progress in Hd as (Hn & -> & Hle).
      rewrite length_drop. lia.
Qed.

Lemma recover_index_total (fs : dir) (idx : hashIndex) (id : Z) :
  is_Some (recover_index fs idx id).
Proof.
  unfold recover_index. destruct (fs !! segmentFilename id) as [data|]; [|done].
  apply recover_loop_total. unfold remaining, NewReader. simpl. lia.
Qed.

Lemma set_index_same (db : Db) : set_index db (index db) = db.
Proof. by destruct db. Qed.

Lemma recoverSegment_index (fs : dir) (db : Db) (id : Z) :
  recoverSegment fs db id
  = fmap (M := option)
      (fmap (M := outcome) (fun '(idx, err) => (set_index db idx, err)))
      (recover_index fs (index db) id).
Proof.
  unfold recoverSegment, recover_index.
  destruct (fs !! segmentFilename id) as [data|].
  - destruct (recover_loop (S (length data)) id (NewReader data) 0 (index db))
      as [[[idx err]| |]|]; reflexivity.
  - cbn. by rewrite set_index_same.
Qed.

Lemma Sequential_recoverSegment_index (fs : dir) (db : Db) (id : Z) :
  Sequential.recoverSegment fs (plain db) id
  = fmap (M := option)
      (fmap (M := outcome) (fun '(idx, err) => (plain (set_index db idx), err)))
      (recover_index fs (index db) id).
Proof.
  unfold Sequential.recoverSegment, recover_index. seq_simpl.
  destruct (fs !! segmentFilename id) as [data|].
  - destruct (recover_loop (S (length data)) id (NewReader data) 0 (index db))
      as [[[idx err]| |]|]; reflexivity.
  - cbn. by destruct db.
Qed.

Lemma recover_all_plain (fs : dir) (ids : list Z) (db : Db) (maxId : Z) :
  is_Some (recover_all fs db maxId ids)
  /\ fmap (M := option)
       (fmap (M := outcome) (fun '(db', m, err) => (plain db', m, err)))
       (recover_all fs db maxId ids)
     = Sequential.recover_all fs (plain db) maxId ids
  /\ (forall db' m err,
        recover_all fs db maxId ids = Some (Ret (db', m, err)) ->
        exists idx, db' = set_index db idx).
Proof.
  revert db maxId. induction ids as [|id rest IH]; intros db maxId.
  - cbn. split; [done|]. split; [done|]. intros db' m err [= <- _ _].
    exists (index db). by rewrite set_index_same.
  - cbn [recover_all Sequential.recover_all].
    rewrite recoverSegment_index, Sequential_recoverSegment_index.
    destruct (recover_index_total fs (index db) id) as [o ->].
    destruct o as [[idx [err|]]| |]; cbn; try done.
    + split; [done|]. split; [done|]. intros db' m e [= <- _ _]. eauto.
    + destruct (IH (set_index db idx)
                  (if decide (id > maxId)%Z then id else maxId))
        as (Hsome & Heq & Hframe).
      split; [done|]. split; [done|].
      intros db' m e Hr. destruct (Hframe db' m e Hr) as [idx' ->].
      exists idx'. by destruct db.
Qed.

Lemma loadSegments_plain (fs : dir) (db : Db) :
  is_Some (loadSegments fs db)
  /\ fmap (M := option)
       (fmap (M := outcome) (fun '(fs', db', err) => (fs', plain db', err)))
       (loadSegments fs db)
     = Sequential.loadSegments fs (plain db)
  /\ (forall fs' db',
        loadSegments fs db = Some (Ret (fs', db', None)) ->
        mu db' = mu db /\ writeCh db' = writeCh db
        /\ closeCh db' = closeCh db /\ wg db' = wg db
        /\ exists f, currentSegment db' = Some f /\ fclosed f = false).
Proof.
  unfold loadSegments, Sequential.loadSegments.
  destruct (decide (length (scan_ids (ReadDir fs)) = 0)) as [Hz|Hz].
  - unfold createNewSegment, Sequential.createNewSegment. seq_simpl.
    destruct (OpenFile_create fs _) as [fs1 f1] eqn:Hc.
    assert (Hf1 : fclosed f1 = false).
    { unfold OpenFile_create in Hc.
      destruct (fs !! _); injection Hc as _ <-; reflexivity. }
    split; [by eexists|]. split; [reflexivity|].
    intros fs' db' [= _ <-]. db_simpl. eauto 10.
  - destruct (recover_all_plain fs (scan_ids (ReadDir fs)) db (-1))
      as ([o Ho] & Heq & Hframe).
    rewrite <- Heq, Ho. cbn.
    destruct o as [[[db1 m] [err|]]| |]; cbn; try done.
    destruct (Hframe db1 m None Ho) as [idx ->].
    unfold OpenFile_append. db_simpl; seq_simpl.
    destruct (fs !! segmentFilename m) as [data|]; cbn; [|done].
    split; [done|]. split; [done|].
    intros fs' db' [= _ <-]. db_simpl. eauto 10.
Qed.

Lemma OpenWithLimit_plain (fs : dir) (limit : Z) :
  is_Some (OpenWithLimit fs limit)
  /\ fmap (M := option)
       (fmap (M := outcome)
          (fun '(fs', opened) =>
             (fs', match opened with
                   | inl db => inl (plain db)
                   | inr err => inr err
                   end)))
       (OpenWithLimit fs limit)
     = Sequential.OpenWithLimit fs limit
  /\ (forall fs' db,
        OpenWithLimit fs limit = Some (Ret (fs', inl db)) -> in_service db).
Proof.
  unfold OpenWithLimit, Sequential.OpenWithLimit.
  set (db0 := MkDb limit None 0 0 ∅ (MkMu 0 false) [] false 0).
  change (Sequential.MkDb limit None 0 0 ∅) with (plain db0).
  destruct (loadSegments_plain fs db0) as ([o Ho] & Heq & Hframe).
  rewrite <- Heq, Ho. cbn.
  destruct o as [[[fs1 db1] [err|]]| |]; cbn; try done.
  destruct (Hframe fs1 db1 Ho) as (Hmu & Hq & Hc & Hw & f & Hf & Hopen).
  split; [done|]. split; [by destruct db1|].
  intros fs' db [= _ <-]. unfold in_service. db_simpl.
  rewrite Hmu, Hq, Hc, Hw. subst db0. db_simpl. eauto 10.
Qed.

(** C10.  Opened on the same directory contents with the same segment
    limit, and given the same calls to [Put] and [Get] one at a time, the
    serializer-based engine and the plain sequential engine both come to an
    end with the same outcome: the same error of [OpenWithLimit], or the
    same replies, the same contents of the segment files and the same limit,
    current segment, offset and index; or the same panic in a [Get]. *)
Theorem engines_equivalent (pick_close : bool) (fs : dir) (limit : Z)
    (calls : list call) :
  exists result,
    Sequential.session fs limit calls = Some result
    /\ observe (session pick_close fs limit calls) = Some result.
Proof.
  unfold session, Sequential.session, observe.
  destruct (OpenWithLimit_plain fs limit) as ([o Ho] & Heq & Hserv).
  rewrite <- Heq, Ho. cbn.
  eexists. split; [reflexivity|]. f_equal.
  destruct o as [[fs1 [db|err]]| |]; cbn; try done.
  rewrite <- (run_plain pick_close calls fs1 db (Hserv fs1 db Ho)).
  by destruct (run pick_close calls fs1 db) as [[[fs2 db2] rs]| |].
Qed.

(** ** The engine as a finite map *)

Lemma string_app_inj_l (p a b : string) : p +:+ a = p +:+ b -> a = b.
Proof. induction p as [|c p IH]; simpl; [done|]. intros [= H]. by apply IH. Qed.

(** Two segments have two file names. *)
Lemma segmentFilename_inj (a b : Z) :
  segmentFilename a = segmentFilename b -> a = b.
Proof.
  unfold segmentFilename. intros H. apply string_app_inj_l in H.
  apply DecimalZ.to_int_inj.
  assert (Hnn : forall z, Z.to_int z <> Decimal.Pos Decimal.Nil
                          /\ Z.to_int z <> Decimal.Neg Decimal.Nil).
  { intros [|p|p]; simpl; split; try discriminate;
      intros [= Hp]; by apply DecimalPos.Unsigned.to_uint_nonnil in Hp. }
  apply (f_equal NilZero.int_of_string) in H.
  rewrite !NilZero.isi in H by apply Hnn. by injection H.
Qed.

Lemma defaultBufSize_small : (Z.of_nat defaultBufSize < 2 ^ 32)%Z.
Proof. vm_compute. reflexivity. Qed.

Lemma Peek_NewReader (data : list byte) :
  4 <= length data ->
  Peek (NewReader data) 4
  = (MkReader (take defaultBufSize data) (drop defaultBufSize data),
     take 4 data, None).
Proof.
  pose proof defaultBufSize_gt as HB. intros Hlen.
  unfold Peek, NewReader. cbn [Peek_loop]. unfold Buffered; cbn [rbuf rsrc length].
  rewrite decide_True by lia.
  unfold fill, Buffered; cbn [rbuf rsrc length app].
  rewrite Nat.sub_0_r.
  rewrite (decide_False (P := defaultBufSize `min` length data = 0)) by lia.
  cbn [rbuf rsrc].
  assert (Hl : 4 <= length (take (defaultBufSize `min` length data) data))
    by (rewrite length_take; lia).
  rewrite (decide_False (P := _ < 4 /\ _)) by lia.
  unfold Buffered; cbn [rbuf rsrc]. rewrite decide_False by lia.
  rewrite take_take. rewrite take_min_length, drop_min_length.
  f_equal. f_equal. f_equal. lia.
Qed.

(** A record followed by anything is read back whole when it fits the
    buffer. *)
Lemma DecodeFromReader_record (k v rest : list byte) :
  fits k v ->
  exists r',
    DecodeFromReader no_entry (NewReader (Encode (Entry k v) ++ rest))
    = Ret (r', Entry k v, 12 + length k + length v + 20, None).
Proof.
  unfold fits. intros Hfit. pose proof defaultBufSize_small as HB.
  set (total := 12 + length k + length v + 20) in *.
  set (enc := Encode (Entry k v)).
  assert (Hlen : length enc = total) by apply length_Encode.
  assert (Hsz : Uint32 (take 4 (enc ++ rest)) = Ret (Z.of_nat total)).
  { unfold enc. rewrite Encode_record_bytes. unfold record_bytes.
    rewrite <- !app_assoc.
    change (take 4 (le32 ?x ++ ?y)) with (le32 x ++ []).
    rewrite Uint32_le32. f_equal. unfold uint32.
    rewrite Z.mod_mod by lia. apply Z.mod_small. lia. }
  unfold DecodeFromReader.
  rewrite Peek_NewReader by (rewrite length_app; lia).
  rewrite Hsz, bind_Ret, Nat2Z.id.
  unfold Read, Buffered; cbn [rbuf rsrc].
  rewrite decide_False by lia.
  rewrite decide_False by (rewrite length_take, length_app; lia).
  rewrite take_take, Nat.min_l by lia.
  rewrite (take_app_length' enc rest total (eq_sym Hlen)).
  rewrite Hlen, Nat.sub_diag. cbn [replicate]. rewrite app_nil_r.
  unfold enc. rewrite Decode_Encode_small by lia.
  rewrite bind_Ret. eauto.
Qed.

Lemma Put_writeEntry (pick_close : bool) (fs : dir) (db : Db) (k v : list byte) :
  in_service db -> Put pick_close fs db k v = writeEntry fs db k v.
Proof.
  intros (Hc & Hw & Hq & Hmu & _).
  unfold Put, writer. db_simpl. rewrite Hw, Hq, Hc. cbn [app].
  rewrite decide_False by done.
  assert (Hdb : set_chans (set_chans db [MkReq k v] false 1) [] false 1 = db).
  { destruct db; db_simpl. by subst. }
  rewrite Hdb. cbn [req_key req_value].
  destruct (writeEntry_plain fs db k v Hmu) as (fs' & db' & err & -> & _).
  by rewrite decide_True by done.
Qed.

Lemma writeEntry_stored (fs : dir) (db : Db) (m : gmap (list byte) (list byte))
    (k v : list byte) :
  stored fs db m -> fits k v ->
  exists fs' db',
    writeEntry fs db k v = Ret (fs', db', None)
    /\ stored fs' db' (<[k := v]> m).
Proof.
  intros (Hs & (data & Hf & Hcur & Hlen) & Hhigh & Hdom & Hidx) Hfit.
  pose proof Hs as (Hc & Hw & Hq & Hmu & _).
  rewrite (writeEntry_spec fs db k v _ Hf eq_refl Hmu). cbv zeta.
  set (enc := Encode (Entry k v)). set (cid := currentSegmentId db) in *.
  destruct (decide (Z.of_nat (currentOffset db + length enc) > segmentLimit db)%Z)
    as [Hrot|Hrot].
  - set (new := segmentFilename (cid + 1)).
    assert (Hnew : fs !! new = None) by (apply Hhigh; lia).
    rewrite Hnew. cbn [default app].
    eexists _, _. split; [reflexivity|].
    unfold stored, in_service. db_simpl.
    split; [by eauto 10|]. split.
    { exists enc. split; [done|]. split; [|done]. apply lookup_insert_eq. }
    split.
    { intros j Hj. rewrite lookup_insert_ne; [apply Hhigh; lia|].
      intros Heq. apply segmentFilename_inj in Heq. lia. }
    split.
    { intros k'. destruct (decide (k = k')) as [->|Hne].
      - by rewrite !lookup_insert_eq.
      - rewrite !lookup_insert_ne by done. apply Hdom. }
    intros k' ref. destruct (decide (k = k')) as [<-|Hne].
    + rewrite lookup_insert_eq. intros [= <-]. cbn [segmentId offset].
      exists v, [], []. rewrite lookup_insert_eq, app_nil_r.
      split; [done|]. split; [done|]. split; [|done]. apply lookup_insert_eq.
    + rewrite lookup_insert_ne by done. intros Hk.
      destruct (Hidx k' ref Hk) as (v' & pre & rest & Hm & Hfit' & Hfile & Hpre).
      exists v', pre, rest. rewrite lookup_insert_ne by done.
      split; [done|]. split; [done|]. split; [|done].
      rewrite lookup_insert_ne; [done|]. intros Heq. by rewrite <- Heq, Hnew in Hfile.
  - cbn [fname]. fold cid. rewrite Hcur. cbn [default].
    eexists _, _. split; [reflexivity|].
    unfold stored, in_service. db_simpl. fold cid.
    split; [by eauto 10|]. split.
    { exists (data ++ enc). split; [done|]. split; [apply lookup_insert_eq|].
      rewrite length_app. lia. }
    split.
    { intros j Hj. rewrite lookup_insert_ne; [apply Hhigh; lia|].
      intros Heq. apply segmentFilename_inj in Heq. lia. }
    split.
    { intros k'. destruct (decide (k = k')) as [->|Hne].
      - by rewrite !lookup_insert_eq.
      - rewrite !lookup_insert_ne by done. apply Hdom. }
    intros k' ref. destruct (decide (k = k')) as [<-|Hne].
    + rewrite lookup_insert_eq. intros [= <-]. cbn [segmentId offset].
      exists v, data, []. rewrite !lookup_insert_eq, app_nil_r.
      split; [done|]. split; [done|]. split; done.
    + rewrite lookup_insert_ne by done. intros Hk.
      destruct (Hidx k' ref Hk) as (v' & pre & rest & Hm & Hfit' & Hfile & Hpre).
      rewrite lookup_insert_ne by done.
      destruct (decide (segmentFilename cid = segmentFilename (segmentId ref)))
        as [Heq|Hneq].
      * rewrite <- Heq in *. rewrite Hcur in Hfile. injection Hfile as ->.
        exists v', pre, (rest ++ enc). rewrite lookup_insert_eq.
        split; [done|]. split; [done|]. split; [|done].
        unfold id. by rewrite <- !app_assoc.
      * exists v', pre, rest. rewrite lookup_insert_ne by done. done.
Qed.

Lemma Get_stored (fs : dir) (db : Db) (m : gmap (list byte) (list byte))
    (k : list byte) :
  stored fs db m ->
  Get fs db k
  = Ret (db, default [] (m !! k),
         match m !! k with Some _ => None | None => Some ErrNotFound end).
Proof.
  intros (Hs & _ & _ & Hdom & Hidx). pose proof Hs as (_ & _ & _ & Hmu & _).
  unfold Get. rewrite Hmu.
  unfold RLock, RUnlock; cbn [locked readers]. rewrite !bind_Ret.
  cbn [locked readers]. rewrite bind_Ret.
  assert (Hdb : set_mu db (MkMu 0 false) = db).
  { destruct db; db_simpl. by subst. }
  rewrite Hdb.
  destruct (index db !! k) as [ref|] eqn:Hk.
  - destruct (Hidx k ref Hk) as (v & pre & rest & -> & Hfit & -> & Hpre).
    rewrite drop_app_length' by done.
    destruct (DecodeFromReader_record k v rest Hfit) as [r' ->].
    reflexivity.
  - apply Hdom in Hk. by rewrite Hk.
Qed.

Lemma run_stored (pick_close : bool) (calls : list call) (fs : dir) (db : Db)
    (m : gmap (list byte) (list byte)) :
  stored fs db m -> Forall fits_call calls ->
  exists fs' db', run pick_close calls fs db = Ret (fs', db', map_run calls m).
Proof.
  revert fs db m. induction calls as [|[k v|k] rest IH]; intros fs db m Hst Hfit.
  - cbn. eauto.
  - apply Forall_cons in Hfit as [Hkv Hrest]. cbn [run map_run].
    rewrite (Put_writeEntry _ _ _ _ _ (proj1 Hst)).
    destruct (writeEntry_stored fs db m k v Hst Hkv) as (fs1 & db1 & -> & Hst1).
    rewrite bind_Ret.
    destruct (IH fs1 db1 _ Hst1 Hrest) as (fs2 & db2 & ->). cbn. eauto.
  - apply Forall_cons in Hfit as [_ Hrest]. cbn [run map_run].
    rewrite (Get_stored fs db m k Hst), bind_Ret.
    destruct (IH fs db m Hst Hrest) as (fs2 & db2 & ->). cbn.
    destruct (m !! k); eauto.
Qed.

Lemma OpenWithLimit_empty (limit : Z) :
  let db := MkDb limit (Some (MkFile "segment-1" false)) 1 0 ∅
              (MkMu 0 false) [] false 1 in
  OpenWithLimit ∅ limit = Some (Ret (service_fs, inl db))
  /\ stored service_fs db ∅.
Proof.
  intros db. split; [reflexivity|].
  unfold stored, in_service, service_fs. subst db. db_simpl.
  split; [by eauto 10|]. split.
  { exists []. split; [reflexivity|]. split; [|done]. reflexivity. }
  split.
  { intros j Hj. apply lookup_singleton_ne.
    change "segment-1" with (segmentFilename 1).
    intros Heq. apply segmentFilename_inj in Heq. lia. }
  split; [done|]. intros k ref. by rewrite lookup_empty.
Qed.

(** On a directory that starts empty, and as long as every record fits the
    buffer of the reader (4096 bytes), the engine answers every sequence of
    [Put] and [Get] as a finite map does: a [Get] returns the value of the
    last [Put] of its key, whatever the segment limit and the number of
    rotations, and [ErrNotFound] for a key that was never put. *)
Theorem engine_refines_map (pick_close : bool) (limit : Z) (calls : list call) :
  Forall fits_call calls ->
  exists fs db,
    session pick_close ∅ limit calls
    = Some (Ret (fs, inl (db, map_run calls ∅))).
Proof.
  intros Hfit. unfold session.
  destruct (OpenWithLimit_empty limit) as [-> Hst]. cbn [mbind option_bind].
  rewrite bind_Ret.
  destruct (run_stored pick_close calls _ _ ∅ Hst Hfit) as (fs' & db' & ->).
  cbn. eauto.
Qed.

(** ** Reopening a store *)

(** C1, the code at the failing input.  With ten segments the directory
    listing, sorted by name, gives the ids in the order 1, 10, 2, ..., 9.
    Before the engine is closed the key ["k"] reads as its last value; after
    [Close] and [OpenWithLimit] on the same directory the record of segment 2
    has replaced the one of segment 10 in the index and the key reads as the
    older value. *)
Lemma reopen_ten_segments :
  match session false ∅ 50 ten_segments with
  | Some (Ret (fs, inl (db, _))) =>
      scan_ids (ReadDir fs) = [1; 10; 2; 3; 4; 5; 6; 7; 8; 9]%Z
      /\ (fun '(_, v, err) => (v, err)) <$> Get fs db (bytes_of_string "k")
         = Ret (bytes_of_string "new", None)
  | _ => False
  end
  /\ reopen_get false ∅ 50 ten_segments (bytes_of_string "k")
     = Some (Ret (bytes_of_string "old", None)).
Proof. vm_compute. repeat split; reflexivity. Qed.

(** A second way in which reopening fails: [DecodeFromReader] takes what
    the buffer holds of a record, so the record that lies across the end of
    the buffer is read short, its checksum does not match, and
    [OpenWithLimit] returns the error of a corrupted segment. *)
Lemma reopen_long_segment :
  reopen_get false ∅ defaultMaxSegmentSize long_segment (bytes_of_string "k")
  = Some (Ret ([], Some (Wrap "corrupted segment"
                           (ErrHashMismatch (bytes_of_string "k"))))).
Proof. vm_compute. reflexivity. Qed.

(** ** Reading back a large record *)

(** C7, the code at the failing input: a value of 4100 bytes.  Both calls
    of [Put] succeed; [Get] reads the 4096 bytes that its buffer holds of
    the record of 4133 bytes and returns the hash mismatch instead of the
    value. *)
Lemma Put_Put_Get_large_value :
  let k := bytes_of_string "k" in
  let v2 := replicate 4100 "x"%byte in
  match session false ∅ defaultMaxSegmentSize
          [CallPut k (bytes_of_string "v1"); CallPut k v2; CallGet k] with
  | Some (Ret (_, inl (_, replies))) =>
      replies = [PutReply None; PutReply None;
                 GetReply [] (Some (ErrHashMismatch k))]
  | _ => False
  end.
Proof. vm_compute. reflexivity. Qed.

(** ** Tampered records *)

(** C5, the code at the failing input.  [Decode] notices the flipped
    checksum byte, but the error it returns is not [ErrCorrupted] and does
    not wrap it; [Get] hands the same error on, so that a caller testing
    [errors.Is(err, ErrCorrupted)] does not see a corrupted record. *)
Lemma Decode_tampered_not_ErrCorrupted :
  Decode tampered_record
  = Ret (Entry (bytes_of_string "abc") (bytes_of_string "correct"),
         Some (ErrHashMismatch (bytes_of_string "abc")))
  /\ errors_Is (ErrHashMismatch (bytes_of_string "abc")) ErrCorrupted = false
  /\ tampered_store
     = Some (Ret ([], Some (ErrHashMismatch (bytes_of_string "sensitive"))))
  /\ errors_Is (ErrHashMismatch (bytes_of_string "sensitive")) ErrCorrupted = false.
Proof. vm_compute. repeat split; reflexivity. Qed.

(** Flipping one bit changes the byte. *)
Lemma byte_xor_bit_ne (b : byte) (j : nat) :
  j < 8 -> byte_of_Z (Z.lxor (byte_to_Z b) (2 ^ Z.of_nat j)) <> b.
Proof.
  intros Hj.
  do 8 (destruct j as [|j]; [destruct b; vm_compute; discriminate|]).
  lia.
Qed.

Lemma xor_at_ge (i : nat) (mask : Z) (bs : list byte) :
  length bs <= i -> xor_at i mask bs = bs.
Proof.
  unfold xor_at. revert i. induction bs as [|b bs IH]; intros [|i] Hi;
    simpl in *; try done; try lia.
  f_equal. apply IH. lia.
Qed.

Lemma length_xor_at (i : nat) (mask : Z) (bs : list byte) :
  length (xor_at i mask bs) = length bs.
Proof. apply length_alter. Qed.

Lemma xor_at_bit_ne (i j : nat) (bs : list byte) :
  i < length bs -> j < 8 -> xor_at i (2 ^ Z.of_nat j) bs <> bs.
Proof.
  intros Hi Hj Heq. destruct (lookup_lt_is_Some_2 bs i Hi) as [b Hb].
  apply (f_equal (fun l => l !! i)) in Heq. unfold xor_at in Heq.
  rewrite list_lookup_alter_eq, Hb in Heq. cbn in Heq.
  injection Heq as Heq. by apply byte_xor_bit_ne in Heq.
Qed.

Lemma xor_at_app_r (pre rest : list byte) (i : nat) (mask : Z) :
  xor_at (length pre + i) mask (pre ++ rest) = pre ++ xor_at i mask rest.
Proof. unfold xor_at. by rewrite alter_app_r. Qed.

Lemma Decode_flipped_checksum (k v : list byte) (i j : nat) :
  (Z.of_nat (length k) < 2 ^ 32)%Z -> (Z.of_nat (length v) < 2 ^ 32)%Z ->
  i < 20 -> j < 8 ->
  Decode (xor_at (12 + length k + length v + i) (2 ^ Z.of_nat j)
            (Encode (Entry k v)))
  = Ret (Entry k v, Some (ErrHashMismatch k)).
Proof.
  intros Hk Hv Hi Hj. rewrite Encode_record_bytes. unfold record_bytes.
  set (sz := le32 (uint32 (12 + length k + length v + 20))).
  rewrite !(app_assoc _ _ (sha1.Sum v)), !(app_assoc _ _ v),
    !(app_assoc _ _ (le32 (uint32 (length v)))), !(app_assoc _ _ k).
  replace (12 + length k + length v + i)
    with (length ((((sz ++ le32 (uint32 (length k))) ++ k)
                     ++ le32 (uint32 (length v))) ++ v) + i)
    by (rewrite !length_app, !length_le32; unfold sz; rewrite length_le32; lia).
  rewrite xor_at_app_r, <- !app_assoc.
  rewrite Decode_fields.
  - destruct (equalHash _ _) eqn:E; [|done].
    apply equalHash_true_iff in E.
    apply xor_at_bit_ne in E; [done| |done].
    rewrite sha1_Sum_length. unfold sha1.Size. lia.
  - apply length_le32.
  - pose proof (uint32_range (length k)).
    rewrite Z.mod_small by done. by apply uint32_small.
  - pose proof (uint32_range (length v)).
    rewrite Z.mod_small by done. by apply uint32_small.
Qed.

(** A bit flipped in the value is noticed whenever the two values have
    different SHA-1 digests. *)
Lemma Decode_value_flip (k v : list byte) (i j : nat) :
  (Z.of_nat (length k) < 2 ^ 32)%Z -> (Z.of_nat (length v) < 2 ^ 32)%Z ->
  sha1.Sum (xor_at i (2 ^ Z.of_nat j) v) <> sha1.Sum v ->
  Decode (xor_at (12 + length k + i) (2 ^ Z.of_nat j) (Encode (Entry k v)))
  = Ret (Entry k (xor_at i (2 ^ Z.of_nat j) v), Some (ErrHashMismatch k)).
Proof.
  intros Hk Hv Hsum. rewrite Encode_record_bytes. unfold record_bytes.
  set (sz := le32 (uint32 (12 + length k + length v + 20))).
  rewrite !(app_assoc _ _ (v ++ sha1.Sum v)),
    !(app_assoc _ _ (le32 (uint32 (length v)))), !(app_assoc _ _ k).
  replace (12 + length k + i)
    with (length (((sz ++ le32 (uint32 (length k))) ++ k)
                    ++ le32 (uint32 (length v))) + i)
    by (rewrite !length_app, !length_le32; unfold sz; rewrite length_le32; lia).
  rewrite xor_at_app_r, <- !app_assoc.
  assert (Hx : xor_at i (2 ^ Z.of_nat j) (v ++ sha1.Sum v)
               = xor_at i (2 ^ Z.of_nat j) v
                   ++ (if decide (i < length v) then sha1.Sum v
                       else xor_at (i - length v) (2 ^ Z.of_nat j) (sha1.Sum v))).
  { unfold xor_at. destruct (decide (i < length v)).
    - by rewrite alter_app_l.
    - replace i with (length v + (i - length v)) at 1 by lia.
      rewrite alter_app_r. f_equal. symmetry. apply xor_at_ge. lia. }
  rewrite Hx. clear Hx.
  destruct (decide (i < length v)) as [Hi|Hi]; cycle 1.
  { exfalso. apply Hsum. f_equal. apply xor_at_ge. lia. }
  rewrite Decode_fields.
  - destruct (equalHash _ _) eqn:E; [|done].
    apply equalHash_true_iff in E. by symmetry in E.
  - apply length_le32.
  - pose proof (uint32_range (length k)).
    rewrite Z.mod_small by done. by apply uint32_small.
  - rewrite length_xor_at. pose proof (uint32_range (length v)).
    rewrite Z.mod_small by done. by apply uint32_small.
Qed.

(** ** More on the codec *)

(** [equalHash] is equality of byte sequences: it answers [true] exactly on
    two slices of the same length with the same bytes. *)
Theorem equalHash_eq (a b : list byte) : equalHash a b = true <-> a = b.
Proof. apply equalHash_true_iff. Qed.

Lemma slice_from_drop (a rest : list byte) (lo : nat) :
  length a <= lo ->
  slice_from (a ++ rest) lo = slice_from rest (lo - length a).
Proof.
  intros Hlo. unfold slice_from. rewrite length_app.
  destruct (decide (lo <= length a + length rest)),
    (decide (lo - length a <= length rest)); try lia; try reflexivity.
  rewrite drop_app_ge by lia. reflexivity.
Qed.

Lemma slice_drop (a rest : list byte) (lo hi : nat) :
  length a <= lo -> lo <= hi ->
  slice (a ++ rest) lo hi = slice rest (lo - length a) (hi - length a).
Proof.
  intros Hlo Hhi. unfold slice. rewrite length_app.
  destruct (decide (lo <= hi <= length a + length rest)),
    (decide (lo - length a <= hi - length a <= length rest));
    try lia; try reflexivity.
  rewrite drop_app_ge by lia. do 2 f_equal. lia.
Qed.

(** [Decode] never reads the first four bytes of its input: the total size
    written by [Encode] is not checked, and two buffers that differ in these
    bytes only decode alike. *)
Theorem Decode_ignores_size (a b rest : list byte) :
  length a = 4 -> length b = 4 -> Decode (a ++ rest) = Decode (b ++ rest).
Proof.
  intros Ha Hb. unfold Decode.
  rewrite (slice_from_drop a), (slice_from_drop b), Ha, Hb by lia.
  destruct (slice_from rest _) as [s| |]; try reflexivity.
  cbn [mbind outcome_bind].
  destruct (Uint32 s) as [klz| |]; try reflexivity.
  cbn [mbind outcome_bind].
  rewrite (slice_drop a), (slice_drop b), Ha, Hb by lia.
  destruct (slice rest _ _) as [k| |]; try reflexivity.
  cbn [mbind outcome_bind].
  rewrite (slice_from_drop a), (slice_from_drop b), Ha, Hb by lia.
  destruct (slice_from rest _) as [s'| |]; try reflexivity.
  cbn [mbind outcome_bind].
  destruct (Uint32 s') as [vlz| |]; try reflexivity.
  cbn [mbind outcome_bind].
  rewrite (slice_drop a), (slice_drop b), Ha, Hb by lia.
  destruct (slice rest _ _) as [v| |]; try reflexivity.
  cbn [mbind outcome_bind].
  rewrite (slice_from_drop a), (slice_from_drop b), Ha, Hb by lia.
  reflexivity.
Qed.

Lemma Decode_ignores_size_witness :
  Decode (le32 0 ++ drop 4 (Encode (Entry (bytes_of_string "k") (bytes_of_string "v"))))
  = Decode (le32 34 ++ drop 4 (Encode (Entry (bytes_of_string "k") (bytes_of_string "v")))).
Proof. apply Decode_ignores_size; reflexivity. Defined.

(** [Decode] takes everything after the value for the checksum: a record
    followed by one byte or more does not decode, the comparison of the
    hashes fails on the lengths. *)
Theorem Decode_trailing_bytes (k v extra : list byte) :
  (Z.of_nat (length k) < 2 ^ 32)%Z -> (Z.of_nat (length v) < 2 ^ 32)%Z ->
  extra <> [] ->
  Decode (Encode (Entry k v) ++ extra)
  = Ret (Entry k v, Some (ErrHashMismatch k)).
Proof.
  intros Hk Hv Hne. rewrite Encode_record_bytes. unfold record_bytes.
  rewrite <- !app_assoc. rewrite Decode_fields.
  - destruct (equalHash _ _) eqn:E; [|done].
    apply equalHash_true_iff in E.
    apply (f_equal length) in E. rewrite length_app in E.
    destruct extra; [done|]. simpl in E. lia.
  - apply length_le32.
  - pose proof (uint32_range (length k)).
    rewrite Z.mod_small by done. by apply uint32_small.
  - pose proof (uint32_range (length v)).
    rewrite Z.mod_small by done. by apply uint32_small.
Qed.

Lemma Decode_trailing_bytes_witness :
  Decode (Encode (Entry (bytes_of_string "k") (bytes_of_string "v")) ++ [Byte.x00])
  = Ret (Entry (bytes_of_string "k") (bytes_of_string "v"),
         Some (ErrHashMismatch (bytes_of_string "k"))).
Proof. apply Decode_trailing_bytes; [simpl; lia|simpl; lia|discriminate]. Defined.

(** A bit flipped in the checksum of a record is always noticed by
    [Decode], which returns its hash mismatch. *)
Theorem Decode_checksum_flip (k v : list byte) (i j : nat) :
  (Z.of_nat (length k) < 2 ^ 32)%Z -> (Z.of_nat (length v) < 2 ^ 32)%Z ->
  i < 20 -> j < 8 ->
  Decode (xor_at (12 + length k + length v + i) (2 ^ Z.of_nat j)
            (Encode (Entry k v)))
  = Ret (Entry k v, Some (ErrHashMismatch k)).
Proof. apply Decode_flipped_checksum. Qed.

Lemma Decode_checksum_flip_witness :
  Decode (xor_at (12 + length (bytes_of_string "abc")
                  + length (bytes_of_string "correct") + 19) (2 ^ Z.of_nat 7)
            (Encode (Entry (bytes_of_string "abc") (bytes_of_string "correct"))))
  = Ret (Entry (bytes_of_string "abc") (bytes_of_string "correct"),
         Some (ErrHashMismatch (bytes_of_string "abc"))).
Proof.
  apply (Decode_checksum_flip (bytes_of_string "abc") (bytes_of_string "correct") 19 7);
    simpl; lia.
Defined.

Lemma Decode_value_flip_witness :
  Decode (xor_at (12 + length (bytes_of_string "abc") + 0) (2 ^ Z.of_nat 0)
            (Encode (Entry (bytes_of_string "abc") (bytes_of_string "correct"))))
  = Ret (Entry (bytes_of_string "abc")
           (xor_at 0 (2 ^ Z.of_nat 0) (bytes_of_string "correct")),
         Some (ErrHashMismatch (bytes_of_string "abc"))).
Proof.
  apply (Decode_value_flip (bytes_of_string "abc") (bytes_of_string "correct") 0 0).
  - simpl; lia.
  - simpl; lia.
  - vm_compute. discriminate.
Defined.

(** ** The names of the segments *)

Lemma digits_value_acc (d : Decimal.uint) (acc : positive) :
  digits_value (Z.pos acc) (NilEmpty.string_of_uint d)
  = Some (Z.pos (Pos.of_uint_acc d acc)).
Proof.
  revert acc. induction d; intros acc; cbn [NilEmpty.string_of_uint digits_value];
    [reflexivity|..];
    (change (digit_value _) with (Some 0%Z) || change (digit_value _) with (Some 1%Z)
     || change (digit_value _) with (Some 2%Z) || change (digit_value _) with (Some 3%Z)
     || change (digit_value _) with (Some 4%Z) || change (digit_value _) with (Some 5%Z)
     || change (digit_value _) with (Some 6%Z) || change (digit_value _) with (Some 7%Z)
     || change (digit_value _) with (Some 8%Z) || change (digit_value _) with (Some 9%Z));
    cbn [Pos.of_uint_acc];
    match goal with
    | |- digits_value ?z _ = Some (Z.pos (Pos.of_uint_acc _ ?p)) =>
        replace z with (Z.pos p) by lia
    end; apply IHd.
Qed.

Lemma digits_value_0 (d : Decimal.uint) :
  digits_value 0 (NilEmpty.string_of_uint d) = Some (Z.of_N (Pos.of_uint d)).
Proof.
  induction d; cbn [NilEmpty.string_of_uint digits_value Pos.of_uint];
    [reflexivity|..];
    (change (digit_value _) with (Some 0%Z) || change (digit_value _) with (Some 1%Z)
     || change (digit_value _) with (Some 2%Z) || change (digit_value _) with (Some 3%Z)
     || change (digit_value _) with (Some 4%Z) || change (digit_value _) with (Some 5%Z)
     || change (digit_value _) with (Some 6%Z) || change (digit_value _) with (Some 7%Z)
     || change (digit_value _) with (Some 8%Z) || change (digit_value _) with (Some 9%Z));
    [exact IHd|..]; apply digits_value_acc.
Qed.

Lemma digits_value_to_uint (p : positive) :
  digits_value 0 (NilEmpty.string_of_uint (Pos.to_uint p)) = Some (Z.pos p).
Proof. by rewrite digits_value_0, DecimalPos.Unsigned.of_to. Qed.

Lemma Atoi_string_of_int (id : Z) :
  (- 2 ^ 63 <= id < 2 ^ 63)%Z ->
  Atoi (NilZero.string_of_int (Z.to_int id)) = Some id.
Proof.
  intros Hr. destruct id as [|p|p].
  - reflexivity.
  - cbn [Z.to_int NilZero.string_of_int]. unfold NilZero.string_of_uint.
    pose proof (digits_value_to_uint p) as Hd.
    pose proof (DecimalPos.Unsigned.to_uint_nonnil p) as Hnn.
    destruct (Pos.to_uint p) as [|d|d|d|d|d|d|d|d|d|d]; [done|..];
      unfold Atoi; cbn [NilEmpty.string_of_uint] in *; rewrite Hd;
      by rewrite decide_True by done.
  - cbn [Z.to_int NilZero.string_of_int]. unfold NilZero.string_of_uint.
    pose proof (digits_value_to_uint p) as Hd.
    pose proof (DecimalPos.Unsigned.to_uint_nonnil p) as Hnn.
    destruct (Pos.to_uint p) as [|d|d|d|d|d|d|d|d|d|d]; [done|..];
      unfold Atoi; cbn [NilEmpty.string_of_uint] in *; rewrite Hd;
      by rewrite decide_True by lia.
Qed.

Lemma substring_all (s : string) : String.substring 0 (String.length s) s = s.
Proof. induction s as [|c s IH]; simpl; [done|]. by rewrite IH. Qed.

Lemma HasPrefix_nil (t : string) : HasPrefix t "" = true.
Proof. by destruct t. Qed.

Lemma TrimPrefix_segment (t : string) :
  HasPrefix (outFileNamePrefix +:+ t) outFileNamePrefix = true
  /\ TrimPrefix (outFileNamePrefix +:+ t) outFileNamePrefix = t.
Proof.
  unfold TrimPrefix, outFileNamePrefix. cbv [String.append]. cbn [HasPrefix].
  repeat (rewrite decide_True by done).
  cbn [String.length Nat.sub String.substring].
  rewrite HasPrefix_nil, Nat.sub_0_r. split; [done|]. apply substring_all.
Qed.

(** The name of a segment is read back as its id: the listing of a
    directory recognises every name that [segmentFilename] makes of an id of
    the range of [int], negative ones included. *)
Theorem segmentFilename_Atoi (id : Z) :
  (- 2 ^ 63 <= id < 2 ^ 63)%Z ->
  HasPrefix (segmentFilename id) outFileNamePrefix = true
  /\ Atoi (TrimPrefix (segmentFilename id) outFileNamePrefix) = Some id.
Proof.
  intros Hr. unfold segmentFilename.
  destruct (TrimPrefix_segment (NilZero.string_of_int (Z.to_int id))) as [-> ->].
  split; [done|]. by apply Atoi_string_of_int.
Qed.

Lemma segmentFilename_Atoi_witness :
  HasPrefix (segmentFilename 10) outFileNamePrefix = true
  /\ Atoi (TrimPrefix (segmentFilename 10) outFileNamePrefix) = Some 10%Z.
Proof. apply segmentFilename_Atoi. lia. Defined.

(** Two ids never share a file: the names of two segments are equal only
    when the ids are. *)
Theorem segmentFilename_distinct (a b : Z) :
  segmentFilename a = segmentFilename b <-> a = b.
Proof. split; [apply segmentFilename_inj|by intros ->]. Qed.

(** ** Records read from a stream *)

(** A record that fits the buffer is read whole from the start of a
    stream, whatever follows it: [DecodeFromReader] returns the entry and
    the length of the record, and leaves the reader at the first byte after
    the record. *)
Theorem DecodeFromReader_whole_record (k v rest : list byte) :
  fits k v ->
  exists r',
    DecodeFromReader no_entry (NewReader (Encode (Entry k v) ++ rest))
    = Ret (r', Entry k v, length (Encode (Entry k v)), None)
    /\ remaining r' = rest.
Proof.
  intros Hfit. destruct (DecodeFromReader_record k v rest Hfit) as [r' Hd].
  exists r'. rewrite length_Encode. split; [done|].
  apply DecodeFromReader_progress in Hd as (_ & -> & _).
  unfold remaining, NewReader; cbn [rbuf rsrc app].
  by rewrite drop_app_length' by (by rewrite length_Encode).
Qed.

Lemma DecodeFromReader_whole_record_witness :
  exists r',
    DecodeFromReader no_entry
      (NewReader (Encode (Entry (bytes_of_string "key") (bytes_of_string "value"))
                  ++ bytes_of_string "what follows"))
    = Ret (r', Entry (bytes_of_string "key") (bytes_of_string "value"),
           length (Encode (Entry (bytes_of_string "key") (bytes_of_string "value"))),
           None)
    /\ remaining r' = bytes_of_string "what follows".
Proof.
  apply DecodeFromReader_whole_record. unfold fits, defaultBufSize. simpl. lia.
Defined.

Lemma Peek_4_whole (r : Reader) :
  rbuf r = [] \/ rsrc r = [] ->
  4 <= length (remaining r) <= defaultBufSize ->
  Peek r 4 = (MkReader (remaining r) [], take 4 (remaining r), None).
Proof.
  destruct r as [buf src]. unfold remaining; cbn [rbuf rsrc].
  intros [->| ->] Hlen.
  - cbn [app] in *. change (MkReader [] src) with (NewReader src).
    rewrite Peek_NewReader by lia. by rewrite take_ge, drop_ge by lia.
  - rewrite app_nil_r in *. unfold Peek. cbn [Peek_loop].
    unfold Buffered; cbn [rbuf rsrc].
    rewrite (decide_False (P := _ < 4 /\ _)) by lia.
    cbn [rbuf rsrc]. by rewrite decide_False by lia.
Qed.

(** A record at the head of a stream that fits the buffer whole. *)
Lemma DecodeFromReader_whole_stream (e0 : entry) (r : Reader) (k v rest : list byte) :
  rbuf r = [] \/ rsrc r = [] ->
  remaining r = Encode (Entry k v) ++ rest ->
  length (remaining r) <= defaultBufSize ->
  DecodeFromReader e0 r
  = Ret (MkReader rest [], Entry k v, length (Encode (Entry k v)), None).
Proof.
  intros Hr Hrem Hlen. pose proof defaultBufSize_small as HB.
  set (enc := Encode (Entry k v)) in *.
  assert (Henc : length enc = 12 + length k + length v + 20) by apply length_Encode.
  assert (Hl : length (remaining r) = length enc + length rest)
    by (by rewrite Hrem, length_app).
  assert (Hsz : Uint32 (take 4 (enc ++ rest)) = Ret (Z.of_nat (length enc))).
  { rewrite Henc. unfold enc. rewrite Encode_record_bytes. unfold record_bytes.
    rewrite <- !app_assoc.
    change (take 4 (le32 ?x ++ ?y)) with (le32 x ++ []).
    rewrite Uint32_le32. f_equal. unfold uint32.
    rewrite Z.mod_mod by lia. apply Z.mod_small. lia. }
  unfold DecodeFromReader. rewrite Peek_4_whole by (done || lia).
  rewrite Hrem, Hsz, bind_Ret, Nat2Z.id.
  unfold Read, Buffered; cbn [rbuf rsrc].
  rewrite decide_False by lia.
  rewrite decide_False by (rewrite length_app; lia).
  rewrite take_app_length, drop_app_length, Nat.sub_diag.
  cbn [replicate]. rewrite app_nil_r.
  unfold enc. rewrite Decode_Encode_small by lia.
  by rewrite bind_Ret.
Qed.

(** ** The engine after [Close] *)

Lemma Close_Ret_fields (pick_close : bool) (fs : dir) (db db' : Db)
    (err : option error) :
  Close pick_close fs db = Ret (db', err) ->
  wg db' = 0 /\ closeCh db' = true /\ index db' = index db /\ mu db' = mu db.
Proof.
  unfold Close. destruct (closeCh db) eqn:Hc; [done|]. db_simpl.
  set (closed := set_chans db (writeCh db) true (wg db)).
  assert (Hw : forall waited,
             (if decide (wg db = 0) then Ret closed
              else match writer pick_close fs closed with
                   | Exited d => if decide (wg d = 0) then Ret d else Blocked
                   | Stuck Panic => Panic
                   | _ => Blocked
                   end) = Ret waited ->
             wg waited = 0 /\ closeCh waited = true
             /\ index waited = index db /\ mu waited = mu db).
  { intros waited. destruct (decide (wg db = 0)) as [H0|H0].
    - intros [= <-]. by subst closed; db_simpl.
    - unfold writer. subst closed; db_simpl.
      destruct (writeCh db) as [|req rest]; [|destruct pick_close].
      + destruct (decide _) as [Hz|]; [|done]. intros [= <-]. by db_simpl.
      + destruct (decide _) as [Hz|]; [|done]. intros [= <-]. by db_simpl.
      + destruct (writeEntry _ _ _ _) as [[[? ?] ?]| |]; done. }
  destruct (if decide (wg db = 0) then _ else _) as [waited| |] eqn:Hwait;
    [|done|done].
  specialize (Hw waited eq_refl) as (H1 & H2 & H3 & H4).
  rewrite bind_Ret.
  destruct (currentSegment waited) as [f|] eqn:Hf.
  - destruct (File_Close (Some f)) as [f' e']. intros [= <- <-]. by db_simpl.
  - by intros [= <- <-].
Qed.

(** A [Put] on a closed engine never returns: the writer has left its
    loop, nobody answers the request. *)
Theorem Put_after_Close (pick_close pick_close' : bool) (fs fs' : dir)
    (db db' : Db) (err : option error) (k v : list byte) :
  Close pick_close fs db = Ret (db', err) ->
  Put pick_close' fs' db' k v = Blocked.
Proof.
  intros Hc. apply Close_Ret_fields in Hc as (Hw & _).
  unfold Put. by rewrite decide_True by done.
Qed.

Lemma Put_after_Close_witness :
  Put false service_fs
    (MkDb 50 (Some (MkFile "segment-1" true)) 1 0 ∅ (MkMu 0 false) [] true 0)
    (bytes_of_string "k") (bytes_of_string "v")
  = Blocked.
Proof.
  apply (Put_after_Close false false service_fs service_fs service_db _ None).
  reflexivity.
Defined.

(** [Close] stops the writes only: a [Get] on the closed engine answers as
    it did before. *)
Theorem Get_after_Close (pick_close : bool) (fs : dir) (db db' : Db)
    (err : option error) (k : list byte) :
  Close pick_close fs db = Ret (db', err) ->
  (fun '(_, v, e) => (v, e)) <$> Get fs db' k
  = (fun '(_, v, e) => (v, e)) <$> Get fs db k.
Proof.
  intros Hc. apply Close_Ret_fields in Hc as (_ & _ & Hi & Hm).
  unfold Get. rewrite Hi, Hm.
  destruct (RLock (mu db)) as [m| |]; [|done|done]. rewrite !bind_Ret.
  destruct (RUnlock m) as [m'| |]; [|done|done]. rewrite !bind_Ret.
  destruct (index db !! k) as [ref|]; [|done].
  destruct (fs !! _) as [data|]; [|done].
  destruct (DecodeFromReader _ _) as [[[[r e] n] [derr|]]| |]; try done.
  rewrite !bind_Ret. by destruct (errors_Is derr ErrCorrupted).
Qed.

Lemma Get_after_Close_witness :
  (fun '(_, v, e) => (v, e))
    <$> Get rotation_fs
          (MkDb 50 (Some (MkFile "segment-1" true)) 1 34
             {[bytes_of_string "a" := MkRef 1 0]} (MkMu 0 false) [] true 0)
          (bytes_of_string "a")
  = (fun '(_, v, e) => (v, e)) <$> Get rotation_fs rotation_db (bytes_of_string "a").
Proof.
  apply (Get_after_Close false rotation_fs rotation_db _ None). reflexivity.
Defined.

(** In the plain engine [Close] closes the handle of the segment and
    nothing else; a second [Close] returns the error of the closed file and
    changes nothing. *)
Theorem Sequential_Close_twice (db : Sequential.Db) (f : File) :
  Sequential.currentSegment db = Some f -> fclosed f = false ->
  let db' := Sequential.MkDb (Sequential.segmentLimit db)
               (Some (MkFile (fname f) true)) (Sequential.currentSegmentId db)
               (Sequential.currentOffset db) (Sequential.index db) in
  Sequential.Close db = (db', None)
  /\ Sequential.Close db' = (db', Some ErrClosed).
Proof.
  intros Hf Ho db'. unfold Sequential.Close. rewrite Hf.
  unfold File_Close. rewrite Ho. by split.
Qed.

Lemma Sequential_Close_twice_witness :
  let db := Sequential.MkDb 50 (Some (MkFile "segment-1" false)) 1 0 ∅ in
  let db' := Sequential.MkDb 50 (Some (MkFile "segment-1" true)) 1 0 ∅ in
  Sequential.Close db = (db', None)
  /\ Sequential.Close db' = (db', Some ErrClosed).
Proof.
  apply (Sequential_Close_twice
           (Sequential.MkDb 50 (Some (MkFile "segment-1" false)) 1 0 ∅)
           (MkFile "segment-1" false)); reflexivity.
Defined.

(** A [Put] on the closed plain engine returns the error of the closed
    file, with or without a rotation due, and writes nothing: the directory
    and the engine are as before. *)
Theorem Sequential_Put_closed (fs : dir) (db : Sequential.Db) (f : File)
    (k v : list byte) :
  Sequential.currentSegment db = Some f -> fclosed f = true ->
  Sequential.Put fs db k v = (fs, db, Some ErrClosed).
Proof.
  intros Hf Hc. unfold Sequential.Put, File_Write, File_Close.
  destruct db as [lim seg id off idx]; cbn in Hf; subst seg.
  cbn [Sequential.currentSegment Sequential.segmentLimit
       Sequential.currentSegmentId Sequential.currentOffset Sequential.index].
  rewrite Hc. destruct (decide _); [reflexivity|].
  cbn [Sequential.currentSegment]. by rewrite Hc.
Qed.

Lemma Sequential_Put_closed_witness :
  let db := Sequential.MkDb 50 (Some (MkFile "segment-1" true)) 1 0 ∅ in
  Sequential.Put service_fs db (bytes_of_string "k") (bytes_of_string "v")
  = (service_fs, db, Some ErrClosed).
Proof.
  apply (Sequential_Put_closed service_fs
           (Sequential.MkDb 50 (Some (MkFile "segment-1" true)) 1 0 ∅)
           (MkFile "segment-1" true)); reflexivity.
Defined.

(** ** The layout of the segments *)

Lemma log_bytes_app (a b : list (list byte * list byte)) :
  log_bytes (a ++ b) = log_bytes a ++ log_bytes b.
Proof.
  induction a as [|[k v] a IH]; [done|]. cbn [app log_bytes].
  by rewrite IH, app_assoc.
Qed.

Lemma log_bytes_one (k v : list byte) : log_bytes [(k, v)] = Encode (Entry k v).
Proof. cbn. apply app_nil_r. Qed.

Lemma log_index_snoc (id : Z) (recs : list (list byte * list byte))
    (k v : list byte) (off : nat) (idx : hashIndex) :
  log_index id off (recs ++ [(k, v)]) idx
  = <[k := MkRef id (off + length (log_bytes recs))]> (log_index id off recs idx).
Proof.
  revert off idx. induction recs as [|[k' v'] recs IH]; intros off idx.
  - cbn. by rewrite Nat.add_0_r.
  - cbn [app log_index log_bytes]. rewrite IH, length_app.
    f_equal. f_equal. lia.
Qed.

Lemma files_lookup_lt (id j : Z) (contents : list (list byte)) :
  (j < id)%Z -> files id contents !! segmentFilename j = None.
Proof.
  revert id. induction contents as [|d rest IH]; intros id Hj; [done|].
  cbn [files]. rewrite lookup_insert_ne; [apply IH; lia|].
  intros Heq. apply segmentFilename_inj in Heq. lia.
Qed.

Lemma files_lookup_ge (id j : Z) (contents : list (list byte)) :
  (id + Z.of_nat (length contents) <= j)%Z ->
  files id contents !! segmentFilename j = None.
Proof.
  revert id. induction contents as [|d rest IH]; intros id Hj; [done|].
  cbn [files length] in *. rewrite lookup_insert_ne; [apply IH; lia|].
  intros Heq. apply segmentFilename_inj in Heq. lia.
Qed.

Lemma files_lookup (id : Z) (contents : list (list byte)) (j : nat) :
  files id contents !! segmentFilename (id + Z.of_nat j) = contents !! j.
Proof.
  revert id j. induction contents as [|d rest IH]; intros id j; [done|].
  cbn [files]. destruct j as [|j].
  - rewrite Z.add_0_r. apply lookup_insert_eq.
  - rewrite lookup_insert_ne
      by (intros Heq; apply segmentFilename_inj in Heq; lia).
    replace (id + Z.of_nat (S j))%Z with (id + 1 + Z.of_nat j)%Z by lia.
    apply IH.
Qed.

Lemma files_snoc (id : Z) (contents : list (list byte)) (d : list byte) :
  files id (contents ++ [d])
  = <[segmentFilename (id + Z.of_nat (length contents)) := d]> (files id contents).
Proof.
  revert id. induction contents as [|c rest IH]; intros id.
  - cbn. by rewrite Z.add_0_r.
  - cbn [app files length]. rewrite IH.
    replace (id + 1 + Z.of_nat (length rest))%Z
      with (id + Z.of_nat (S (length rest)))%Z by lia.
    apply insert_insert_ne.
    intros Heq. apply segmentFilename_inj in Heq. lia.
Qed.

Lemma segs_index_snoc (id : Z) (segs : list (list (list byte * list byte)))
    (cur : list (list byte * list byte)) (idx : hashIndex) :
  segs_index id (segs ++ [cur]) idx
  = log_index (id + Z.of_nat (length segs)) 0 cur (segs_index id segs idx).
Proof.
  revert id idx. induction segs as [|s rest IH]; intros id idx.
  - cbn. by rewrite Z.add_0_r.
  - cbn [app segs_index length]. rewrite IH.
    by replace (id + 1 + Z.of_nat (length rest))%Z
      with (id + Z.of_nat (S (length rest)))%Z by lia.
Qed.

Lemma segs_db_snoc (limit : Z) (full : list (list (list byte * list byte)))
    (cur : list (list byte * list byte)) :
  segs_db limit (full ++ [cur])
  = MkDb limit
      (Some (MkFile (segmentFilename (Z.of_nat (length full) + 1)) false))
      (Z.of_nat (length full) + 1) (length (log_bytes cur))
      (log_index (Z.of_nat (length full) + 1) 0 cur (segs_index 1 full ∅))
      (MkMu 0 false) [] false 1.
Proof.
  unfold segs_db. rewrite last_snoc, length_app, segs_index_snoc.
  cbn [length default]. unfold id.
  replace (Z.of_nat (length full + 1)) with (Z.of_nat (length full) + 1)%Z by lia.
  by replace (1 + Z.of_nat (length full))%Z with (Z.of_nat (length full) + 1)%Z by lia.
Qed.

Lemma segs_fs_snoc (full : list (list (list byte * list byte)))
    (cur : list (list byte * list byte)) :
  segs_fs 1 (full ++ [cur])
  = <[segmentFilename (Z.of_nat (length full) + 1) := log_bytes cur]>
      (segs_fs 1 full).
Proof.
  unfold segs_fs. rewrite fmap_app. cbn [fmap list_fmap].
  rewrite files_snoc, length_fmap.
  by replace (1 + Z.of_nat (length full))%Z with (Z.of_nat (length full) + 1)%Z by lia.
Qed.

(** One [writeEntry] on the engine of the segments [full ++ [cur]]. *)
Lemma writeEntry_segs (limit : Z) (full : list (list (list byte * list byte)))
    (cur : list (list byte * list byte)) (k v : list byte) :
  let segs' :=
    if decide (Z.of_nat (length (log_bytes cur) + length (Encode (Entry k v)))
               > limit)%Z
    then (full ++ [cur]) ++ [[(k, v)]] else full ++ [cur ++ [(k, v)]] in
  writeEntry (segs_fs 1 (full ++ [cur])) (segs_db limit (full ++ [cur])) k v
  = Ret (segs_fs 1 segs', segs_db limit segs', None).
Proof.
  intros segs'. set (n := (Z.of_nat (length full) + 1)%Z).
  rewrite (segs_db_snoc limit full cur). fold n.
  rewrite (writeEntry_spec _ _ k v (MkFile (segmentFilename n) false))
    by reflexivity.
  cbv zeta. db_simpl. subst segs'.
  destruct (decide (Z.of_nat (length (log_bytes cur) + length (Encode (Entry k v)))
                    > limit)%Z) as [Hrot|Hrot].
  - rewrite (segs_db_snoc limit (full ++ [cur])), (segs_fs_snoc (full ++ [cur])).
    rewrite length_app. cbn [length].
    replace (Z.of_nat (length full + 1)) with n by lia.
    unfold segs_fs at 1.
    rewrite files_lookup_ge by (rewrite length_fmap, length_app; cbn [length]; lia).
    cbn [default app log_index]. rewrite log_bytes_one.
    rewrite (segs_index_snoc 1 full cur).
    by replace (1 + Z.of_nat (length full))%Z with n by lia.
  - rewrite (segs_db_snoc limit full), !(segs_fs_snoc full). fold n.
    rewrite lookup_insert_eq. cbn [default].
    rewrite insert_insert_eq, log_bytes_app, log_bytes_one, log_index_snoc.
    rewrite length_app. reflexivity.
Qed.

Lemma in_service_segs_db (limit : Z) (segs : list (list (list byte * list byte))) :
  in_service (segs_db limit segs).
Proof. unfold in_service, segs_db; db_simpl. by eauto 10. Qed.

Lemma run_puts_segs (pick_close : bool) (limit : Z)
    (kvs : list (list byte * list byte))
    (full : list (list (list byte * list byte)))
    (cur : list (list byte * list byte)) :
  run pick_close (puts kvs) (segs_fs 1 (full ++ [cur]))
    (segs_db limit (full ++ [cur]))
  = Ret (segs_fs 1 (pack limit full cur kvs),
         segs_db limit (pack limit full cur kvs),
         replicate (length kvs) (PutReply None)).
Proof.
  revert full cur. induction kvs as [|[k v] kvs IH]; intros full cur; [done|].
  cbn [puts fmap list_fmap run pack length replicate fst snd].
  rewrite Put_writeEntry by apply in_service_segs_db.
  rewrite writeEntry_segs. cbv zeta. rewrite bind_Ret.
  fold (puts kvs).
  destruct (decide _) as [Hrot|Hrot]; by rewrite IH.
Qed.

Lemma OpenWithLimit_empty_segs (limit : Z) :
  OpenWithLimit ∅ limit = Some (Ret (segs_fs 1 [[]], inl (segs_db limit [[]]))).
Proof. reflexivity. Qed.

Lemma session_puts_segs (pick_close : bool) (limit : Z)
    (kvs : list (list byte * list byte)) :
  session pick_close ∅ limit (puts kvs)
  = Some (Ret (segs_fs 1 (pack limit [] [] kvs),
               inl (segs_db limit (pack limit [] [] kvs),
                    replicate (length kvs) (PutReply None)))).
Proof.
  unfold session. rewrite OpenWithLimit_empty_segs.
  cbn [mbind option_bind]. rewrite bind_Ret.
  change [[]] with (@nil (list (list byte * list byte)) ++ [[]]).
  by rewrite (run_puts_segs pick_close limit kvs [] []).
Qed.

(** From an empty directory, a sequence of [Put]s of records of any size
    never fails, and leaves the records in the order of the calls in the
    segments 1, 2, ...: a record that would take the current segment past
    the limit starts the next segment.  The index holds the position of the
    last record of every key, and the write offset is the size of the last
    segment. *)
Theorem Put_sequence_layout (pick_close : bool) (limit : Z)
    (kvs : list (list byte * list byte)) :
  session pick_close ∅ limit (puts kvs)
  = Some (Ret (segs_fs 1 (pack limit [] [] kvs),
               inl (segs_db limit (pack limit [] [] kvs),
                    replicate (length kvs) (PutReply None)))).
Proof. apply session_puts_segs. Qed.

Lemma pack_concat (limit : Z) (kvs : list (list byte * list byte))
    (full : list (list (list byte * list byte)))
    (cur : list (list byte * list byte)) :
  concat (pack limit full cur kvs) = concat full ++ cur ++ kvs.
Proof.
  revert full cur. induction kvs as [|[k v] kvs IH]; intros full cur;
    cbn [pack].
  - by rewrite concat_app, app_nil_r; cbn; rewrite app_nil_r.
  - destruct (decide _); rewrite IH.
    + rewrite concat_app. cbn. by rewrite app_nil_r, <- app_assoc.
    + by rewrite <- app_assoc.
Qed.

Lemma pack_bounded (limit : Z) (kvs : list (list byte * list byte))
    (full : list (list (list byte * list byte)))
    (cur : list (list byte * list byte)) :
  let ok recs :=
    (Z.of_nat (length (log_bytes recs)) <= limit)%Z \/ length recs <= 1 in
  Forall ok full -> ok cur -> Forall ok (pack limit full cur kvs).
Proof.
  intros ok. revert full cur.
  induction kvs as [|[k v] kvs IH]; intros full cur Hd Hc; cbn [pack].
  - apply Forall_app. split; [done|]. by apply Forall_singleton.
  - destruct (decide _) as [Hrot|Hrot]; apply IH.
    + apply Forall_app. split; [done|]. by apply Forall_singleton.
    + right. cbn. lia.
    + done.
    + left. rewrite log_bytes_app, log_bytes_one, length_app. lia.
Qed.

(** The segments that a sequence of [Put]s leaves hold every record once,
    in the order of the calls, and a segment goes past the limit only when
    it holds a single record. *)
Theorem Put_sequence_segments (pick_close : bool) (limit : Z)
    (kvs : list (list byte * list byte)) :
  exists segs rs,
    session pick_close ∅ limit (puts kvs)
    = Some (Ret (segs_fs 1 segs, inl (segs_db limit segs, rs)))
    /\ concat segs = kvs
    /\ Forall (fun recs =>
                 (Z.of_nat (length (log_bytes recs)) <= limit)%Z
                 \/ length recs <= 1) segs.
Proof.
  eexists _, _. split; [apply session_puts_segs|]. split.
  - by rewrite pack_concat.
  - apply pack_bounded; [done|]. right. cbn. lia.
Qed.

(** ** Recovery of the segments *)

Lemma length_log_bytes (recs : list (list byte * list byte)) :
  length recs <= length (log_bytes recs).
Proof.
  induction recs as [|[k v] recs IH]; [done|].
  cbn [log_bytes length]. rewrite length_app, length_Encode. lia.
Qed.

(** The loop of [recoverSegment] on a log that the buffer holds whole. *)
Lemma recover_loop_log (recs : list (list byte * list byte)) (fuel : nat)
    (id : Z) (r : Reader) (off : nat) (idx : hashIndex) :
  rbuf r = [] \/ rsrc r = [] ->
  remaining r = log_bytes recs ->
  length (log_bytes recs) <= defaultBufSize ->
  length recs < fuel ->
  recover_loop fuel id r off idx = Some (Ret (log_index id off recs idx, None)).
Proof.
  revert fuel r off idx.
  induction recs as [|[k v] recs IH]; intros fuel r off idx Hr Hrem Hlen Hfuel;
    (destruct fuel as [|fuel]; [cbn in Hfuel; lia|]); cbn [recover_loop].
  - unfold DecodeFromReader.
    rewrite Peek_4_short by (rewrite Hrem; cbn; lia). reflexivity.
  - cbn [log_bytes] in *.
    rewrite (DecodeFromReader_whole_stream no_entry r k v (log_bytes recs))
      by (done || rewrite Hrem; done).
    cbn [key log_index]. apply IH.
    + by right.
    + unfold remaining; cbn [rbuf rsrc]. apply app_nil_r.
    + rewrite length_app in Hlen. lia.
    + cbn in Hfuel. lia.
Qed.

Lemma recoverSegment_log (fs : dir) (db : Db) (id : Z)
    (recs : list (list byte * list byte)) :
  fs !! segmentFilename id = Some (log_bytes recs) ->
  length (log_bytes recs) <= defaultBufSize ->
  recoverSegment fs db id
  = Some (Ret (set_index db (log_index id 0 recs (index db)), None)).
Proof.
  intros Hf Hlen. unfold recoverSegment. rewrite Hf.
  rewrite (recover_loop_log recs); [done|by left|done|done|].
  pose proof (length_log_bytes recs). lia.
Qed.

Lemma recover_all_segs (fs : dir) (segs : list (list (list byte * list byte)))
    (id : Z) (db : Db) (maxId : Z) :
  (forall (j : nat) recs, segs !! j = Some recs ->
     fs !! segmentFilename (id + Z.of_nat j) = Some (log_bytes recs)) ->
  Forall (fun recs => length (log_bytes recs) <= defaultBufSize) segs ->
  (maxId < id)%Z ->
  recover_all fs db maxId (ids_from id (length segs))
  = Some (Ret (set_index db (segs_index id segs (index db)),
               match segs with
               | [] => maxId
               | _ => (id + Z.of_nat (length segs) - 1)%Z
               end, None)).
Proof.
  revert id db maxId.
  induction segs as [|recs segs IH]; intros id db maxId Hfs Hlen Hmax.
  - cbn. by rewrite set_index_same.
  - apply Forall_cons in Hlen as [Hl Hlen].
    cbn [length ids_from recover_all segs_index].
    rewrite decide_True by lia.
    rewrite (recoverSegment_log fs db id recs);
      [|by rewrite <- (Hfs 0 recs eq_refl), Z.add_0_r|done].
    cbn [mbind option_bind].
    rewrite IH; [|intros j recs' Hj|done|lia].
    + assert (Hm : match segs with
                   | [] => id
                   | _ => (id + 1 + Z.of_nat (length segs) - 1)%Z
                   end = (id + Z.of_nat (S (length segs)) - 1)%Z)
        by (destruct segs; cbn [length]; lia).
      rewrite Hm. by destruct db.
    + replace (id + 1 + Z.of_nat j)%Z with (id + Z.of_nat (S j))%Z by lia.
      by apply Hfs.
Qed.

Lemma scan_ids_files (contents : list (list byte)) :
  length contents <= 9 ->
  scan_ids (ReadDir (files 1 contents)) = ids_from 1 (length contents).
Proof.
  intros Hlen.
  do 10 (destruct contents as [|? contents]; [vm_compute; reflexivity|]).
  cbn [length] in Hlen. lia.
Qed.

Lemma OpenWithLimit_segs (limit : Z) (segs : list (list (list byte * list byte))) :
  1 <= length segs <= 9 ->
  Forall (fun recs => length (log_bytes recs) <= defaultBufSize) segs ->
  OpenWithLimit (segs_fs 1 segs) limit
  = Some (Ret (segs_fs 1 segs, inl (segs_db limit segs))).
Proof.
  intros Hn Hlen. unfold OpenWithLimit, loadSegments. cbv zeta.
  assert (Hscan : scan_ids (ReadDir (segs_fs 1 segs)) = ids_from 1 (length segs)).
  { unfold segs_fs. rewrite scan_ids_files by (rewrite length_fmap; lia).
    by rewrite length_fmap. }
  rewrite Hscan.
  assert (Hids : length (ids_from 1 (length segs)) <> 0)
    by (destruct segs; [cbn in Hn; lia|done]).
  rewrite decide_False by done.
  rewrite (recover_all_segs (segs_fs 1 segs) segs 1); [|intros j recs Hj|done|lia].
  2:{ unfold segs_fs. by rewrite files_lookup, list_lookup_fmap, Hj. }
  cbn [mbind option_bind]. rewrite bind_Ret. db_simpl.
  assert (Hmax : match segs with
                 | [] => (-1)%Z
                 | _ => (1 + Z.of_nat (length segs) - 1)%Z
                 end = Z.of_nat (length segs))
    by (destruct segs; [cbn in Hn; lia|lia]).
  rewrite Hmax.
  destruct (last segs) as [cur|] eqn:Hlast;
    [|apply last_None in Hlast; subst; cbn in Hn; lia].
  assert (Hfile : segs_fs 1 segs !! segmentFilename (Z.of_nat (length segs))
                  = Some (log_bytes cur)).
  { unfold segs_fs.
    replace (Z.of_nat (length segs)) with (1 + Z.of_nat (length segs - 1))%Z by lia.
    rewrite files_lookup, list_lookup_fmap.
    rewrite last_lookup in Hlast. 
    replace (length segs - 1) with (pred (length segs)) by lia.
    by rewrite Hlast. }
  unfold OpenFile_append. rewrite Hfile. cbn [default].
  rewrite bind_Ret. unfold segs_db. rewrite Hlast. reflexivity.
Qed.

(** A directory that holds the segments 1 to [n], nine at most, each a
    sequence of whole records of at most 4096 bytes in all, is recovered in
    full: [OpenWithLimit] returns the engine whose index holds the position
    of the last record of every key, the last segment current and the write
    offset at its end. *)
Theorem OpenWithLimit_recovers (limit : Z)
    (segs : list (list (list byte * list byte))) :
  1 <= length segs <= 9 ->
  Forall (fun recs => length (log_bytes recs) <= defaultBufSize) segs ->
  OpenWithLimit (segs_fs 1 segs) limit
  = Some (Ret (segs_fs 1 segs, inl (segs_db limit segs))).
Proof. apply OpenWithLimit_segs. Qed.

Lemma OpenWithLimit_recovers_witness :
  let segs := [[(bytes_of_string "a", bytes_of_string "1");
                (bytes_of_string "b", bytes_of_string "2")];
               [(bytes_of_string "a", bytes_of_string "3")]] in
  OpenWithLimit (segs_fs 1 segs) 70
  = Some (Ret (segs_fs 1 segs, inl (segs_db 70 segs))).
Proof.
  cbv zeta. apply OpenWithLimit_recovers.
  - cbn [length]. lia.
  - repeat (apply Forall_cons; split); try apply Forall_nil; try exact I;
      cbn [log_bytes]; rewrite ?length_app, !length_Encode;
      unfold defaultBufSize; simpl; lia.
Defined.

(** ** Closing and reopening a small store *)

Lemma pack_length (limit : Z) (kvs : list (list byte * list byte))
    (full : list (list (list byte * list byte)))
    (cur : list (list byte * list byte)) :
  1 <= length (pack limit full cur kvs).
Proof.
  revert full cur. induction kvs as [|[k v] kvs IH]; intros full cur; cbn [pack].
  - rewrite length_app. cbn. lia.
  - destruct (decide _); apply IH.
Qed.

Lemma pack_within (limit : Z) (kvs : list (list byte * list byte))
    (full : list (list (list byte * list byte)))
    (cur : list (list byte * list byte)) :
  let ok recs := (Z.of_nat (length (log_bytes recs)) <= limit)%Z in
  Forall (fun kv => (Z.of_nat (length (Encode (Entry kv.1 kv.2))) <= limit)%Z) kvs ->
  Forall ok full -> ok cur -> Forall ok (pack limit full cur kvs).
Proof.
  intros ok. revert full cur.
  induction kvs as [|[k v] kvs IH]; intros full cur Hk Hd Hc; cbn [pack].
  - apply Forall_app. split; [done|]. by apply Forall_singleton.
  - apply Forall_cons in Hk as [Hkv Hk]. cbn [fst snd] in Hkv.
    destruct (decide _) as [Hrot|Hrot]; apply IH; try done.
    + apply Forall_app. split; [done|]. by apply Forall_singleton.
    + unfold ok. by rewrite log_bytes_one.
    + unfold ok. rewrite log_bytes_app, log_bytes_one, length_app. lia.
Qed.

Lemma puts_stored (pick_close : bool) (kvs : list (list byte * list byte))
    (fs : dir) (db : Db) (m : gmap (list byte) (list byte)) :
  stored fs db m -> Forall (fun kv => fits kv.1 kv.2) kvs ->
  exists fs' db' rs,
    run pick_close (puts kvs) fs db = Ret (fs', db', rs)
    /\ stored fs' db' (put_all kvs m).
Proof.
  revert fs db m. induction kvs as [|[k v] kvs IH]; intros fs db m Hst Hfit.
  - cbn. by eauto.
  - apply Forall_cons in Hfit as [Hkv Hfit]. cbn [fst snd] in Hkv.
    cbn [puts fmap list_fmap run put_all fst snd]. fold (puts kvs).
    rewrite (Put_writeEntry _ _ _ _ _ (proj1 Hst)).
    destruct (writeEntry_stored fs db m k v Hst Hkv) as (fs1 & db1 & -> & Hst1).
    rewrite bind_Ret.
    destruct (IH fs1 db1 _ Hst1 Hfit) as (fs2 & db2 & rs & -> & Hst2).
    rewrite bind_Ret. by eauto.
Qed.

Lemma reopen_get_puts (pick_close : bool) (limit : Z)
    (kvs : list (list byte * list byte)) (k : list byte) :
  (0 <= limit <= Z.of_nat defaultBufSize)%Z ->
  Forall (fun kv => (Z.of_nat (length (Encode (Entry kv.1 kv.2))) <= limit)%Z) kvs ->
  length (pack limit [] [] kvs) <= 9 ->
  reopen_get pick_close ∅ limit (puts kvs) k
  = Some (Ret (match put_all kvs ∅ !! k with
               | Some v => (v, None)
               | None => ([], Some ErrNotFound)
               end)).
Proof.
  intros Hlim Hrec Hn. unfold reopen_get.
  rewrite session_puts_segs. cbn [mbind option_bind].
  set (segs := pack limit [] [] kvs) in *.
  assert (Hst : stored (segs_fs 1 segs) (segs_db limit segs) (put_all kvs ∅)).
  { destruct (OpenWithLimit_empty limit) as [_ Hst0].
    destruct (puts_stored pick_close kvs _ _ ∅ Hst0) as (fs' & db' & rs & Hrun & Hst).
    - eapply Forall_impl; [exact Hrec|]. intros [k' v'] Hkv. cbn [fst snd] in *.
      unfold fits. rewrite length_Encode in Hkv. lia.
    - change service_fs with (segs_fs 1 ([] ++ [[]])) in Hrun.
      change (MkDb limit (Some (MkFile "segment-1" false)) 1 0 ∅
                (MkMu 0 false) [] false 1)
        with (segs_db limit ([] ++ [[]])) in Hrun.
      rewrite run_puts_segs in Hrun. by injection Hrun as <- <- _. }
  destruct (Close_spec pick_close (segs_fs 1 segs) (segs_db limit segs)
              (MkFile (segmentFilename (Z.of_nat (length segs))) false))
    as [-> _]; try reflexivity.
  rewrite OpenWithLimit_segs.
  - cbn [mbind option_bind]. rewrite bind_Ret.
    rewrite (Get_stored _ _ _ k Hst), bind_Ret.
    by destruct (put_all kvs ∅ !! k).
  - pose proof (pack_length limit kvs [] []). fold segs in H. lia.
  - eapply Forall_impl; [apply pack_within; try done|].
    + cbn. lia.
    + cbn beta. intros recs Hr. lia.
Qed.

(** A store written from an empty directory is found again after [Close]
    and [OpenWithLimit] when the limit is at most 4096 bytes, no record is
    longer than the limit and there are at most nine segments: every key
    reads as the value of its last [Put], and a key never put as not
    found. *)
Theorem reopen_small_store (pick_close : bool) (limit : Z)
    (kvs : list (list byte * list byte)) (k : list byte) :
  (0 <= limit <= Z.of_nat defaultBufSize)%Z ->
  Forall (fun kv => (Z.of_nat (length (Encode (Entry kv.1 kv.2))) <= limit)%Z) kvs ->
  length (pack limit [] [] kvs) <= 9 ->
  reopen_get pick_close ∅ limit (puts kvs) k
  = Some (Ret (match put_all kvs ∅ !! k with
               | Some v => (v, None)
               | None => ([], Some ErrNotFound)
               end)).
Proof. apply reopen_get_puts. Qed.

Lemma reopen_small_store_witness :
  let kvs := [(bytes_of_string "a", bytes_of_string "1");
              (bytes_of_string "b", bytes_of_string "2");
              (bytes_of_string "a", bytes_of_string "3")] in
  reopen_get false ∅ 70 (puts kvs) (bytes_of_string "a")
  = Some (Ret (match put_all kvs ∅ !! bytes_of_string "a" with
               | Some v => (v, None)
               | None => ([], Some ErrNotFound)
               end)).
Proof.
  cbv zeta. apply reopen_small_store.
  - unfold defaultBufSize. lia.
  - repeat (apply Forall_cons; split); try apply Forall_nil; try exact I;
      vm_compute; discriminate.
  - vm_compute. lia.
Defined.

(** ** The HTTP front of the store *)

Lemma TrimPrefix_db (k : string) : TrimPrefix ("/db/" +:+ k) "/db/" = k.
Proof.
  unfold TrimPrefix. cbv [String.append]. cbn [HasPrefix].
  repeat (rewrite decide_True by done).
  cbn [String.length Nat.sub String.substring].
  rewrite HasPrefix_nil, Nat.sub_0_r. apply substring_all.
Qed.

Lemma Get_free (fs : dir) (db : Db) (k : list byte) :
  mu db = MkMu 0 false ->
  Get fs db k
  = match index db !! k with
    | None => Ret (db, [], Some ErrNotFound)
    | Some ref =>
        match fs !! segmentFilename (segmentId ref) with
        | None => Ret (db, [], Some ErrNotExist)
        | Some data =>
            '(_, record, _, err) ←
              DecodeFromReader no_entry (NewReader (drop (offset ref) data));
            match err with
            | Some err => Ret (db, [], Some err)
            | None => Ret (db, value record, None)
            end
        end
    end.
Proof.
  intros Hmu. unfold Get. rewrite Hmu.
  unfold RLock, RUnlock; cbn [locked readers]. rewrite !bind_Ret.
  cbn [locked readers]. rewrite bind_Ret.
  assert (Hdb : set_mu db (MkMu 0 false) = db).
  { destruct db; db_simpl. by subst. }
  rewrite Hdb.
  destruct (index db !! k) as [ref|]; [|done].
  destruct (fs !! segmentFilename (segmentId ref)) as [data|]; [|done].
  destruct (DecodeFromReader no_entry (NewReader (drop (offset ref) data)))
    as [[[[r' e] n] [err|]]| |] eqn:Hd; try done.
  rewrite !bind_Ret. by rewrite (DecodeFromReader_not_corrupted _ _ _ _ _ _ Hd).
Qed.

(** On an engine that writes at the end of its current segment, a [Put]
    of a record that fits the buffer of the reader is read back by the
    [Get] after it. *)
Lemma Put_Get_at_end (pick_close : bool) (fs : dir) (db : Db) (k v : list byte) :
  at_end fs db -> fits k v ->
  exists fs' db',
    Put pick_close fs db k v = Ret (fs', db', None)
    /\ Get fs' db' k = Ret (db', v, None).
Proof.
  intros (Hs & (data & Hf & Hcur & Hlen) & Hnext & Hid) Hfit.
  pose proof Hs as (Hc & Hw & Hq & Hmu & _).
  rewrite (Put_writeEntry _ _ _ _ _ Hs).
  rewrite (writeEntry_spec fs db k v _ Hf eq_refl Hmu). cbv zeta.
  set (enc := Encode (Entry k v)). set (cid := currentSegmentId db) in *.
  destruct (decide (Z.of_nat (currentOffset db + length enc) > segmentLimit db)%Z)
    as [Hrot|Hrot].
  - rewrite Hnext. cbn [default app].
    eexists _, _. split; [reflexivity|].
    rewrite Get_free by (db_simpl; done). db_simpl.
    rewrite lookup_insert_eq. cbn [segmentId offset].
    rewrite lookup_insert_eq, drop_0.
    destruct (DecodeFromReader_record k v [] Hfit) as [r' Hd].
    rewrite app_nil_r in Hd. fold enc in Hd. by rewrite Hd, bind_Ret.
  - cbn [fname]. fold cid. rewrite Hcur. cbn [default].
    eexists _, _. split; [reflexivity|].
    rewrite Get_free by (db_simpl; done). db_simpl.
    rewrite lookup_insert_eq. cbn [segmentId offset].
    rewrite lookup_insert_eq.
    rewrite drop_app_length' by done.
    destruct (DecodeFromReader_record k v [] Hfit) as [r' Hd].
    rewrite app_nil_r in Hd. fold enc in Hd. by rewrite Hd, bind_Ret.
Qed.

(** On an engine in service that writes at the end of its current segment
    (no file of the next id yet, an id below the largest [int]), a [POST]
    of a value under a key answers 201, and a [GET] of the key after it
    answers 200 with the key and the value, for every record that fits the
    buffer of the reader; the other records of the store do not matter. *)
Theorem dbHandler_POST_GET (pick_close : bool) (fs : dir) (db : Db)
    (k : string) (v : list byte) :
  at_end fs db -> k <> "" -> fits (bytes_of_string k) v ->
  exists fs' db',
    dbHandler pick_close fs db (MkRequest "POST" ("/db/" +:+ k) (Some v))
    = Ret (fs', db', WriteHeader StatusCreated)
    /\ dbHandler pick_close fs' db' (MkRequest "GET" ("/db/" +:+ k) None)
       = Ret (fs', db', http_JSON (bytes_of_string k) v).
Proof.
  intros Hst Hk Hfit.
  destruct (Put_Get_at_end pick_close fs db _ v Hst Hfit) as (fs1 & db1 & HP & HG).
  exists fs1, db1. unfold dbHandler. cbn [Path Method].
  rewrite TrimPrefix_db. rewrite !(decide_False (P := k = "")) by done.
  rewrite (decide_False (P := "POST" = "GET")) by done.
  rewrite (decide_True (P := "POST" = "POST")) by done.
  rewrite (decide_True (P := "GET" = "GET")) by done.
  unfold handlePost, handleGet. cbn [Body].
  rewrite HP, bind_Ret. split; [done|].
  by rewrite HG, !bind_Ret.
Qed.

Lemma dbHandler_POST_GET_witness :
  exists fs' db',
    dbHandler false service_fs service_db
      (MkRequest "POST" ("/db/" +:+ "team") (Some (bytes_of_string "2026-10-30")))
    = Ret (fs', db', WriteHeader StatusCreated)
    /\ dbHandler false fs' db' (MkRequest "GET" ("/db/" +:+ "team") None)
       = Ret (fs', db', http_JSON (bytes_of_string "team")
                          (bytes_of_string "2026-10-30")).
Proof.
  apply (dbHandler_POST_GET false service_fs service_db).
  - unfold at_end, in_service, service_db, service_fs. db_simpl.
    split; [by eauto 10|]. split.
    + exists []. by repeat split.
    + split; [reflexivity|lia].
  - discriminate.
  - unfold fits, defaultBufSize. simpl. lia.
Defined.

(** A [GET] is answered 404 exactly when the key is not in the index.  For
    a key of the index whose record cannot be read back (a missing file, a
    checksum that does not match) the answer is never 404: no error of
    [Get] but [ErrNotFound] passes the test of [handleGet]. *)
Theorem dbHandler_GET_404 (pick_close : bool) (fs : dir) (db : Db) (k : string) :
  mu db = MkMu 0 false -> k <> "" ->
  (exists fs' db',
     dbHandler pick_close fs db (MkRequest "GET" ("/db/" +:+ k) None)
     = Ret (fs', db', http_NotFound))
  <-> index db !! bytes_of_string k = None.
Proof.
  intros Hmu Hk. unfold dbHandler. cbn [Path Method].
  rewrite TrimPrefix_db. rewrite (decide_False (P := k = "")) by done.
  rewrite (decide_True (P := "GET" = "GET")) by done.
  unfold handleGet. rewrite (Get_free _ _ _ Hmu).
  destruct (index db !! bytes_of_string k) as [ref|].
  - split; [|done]. intros (fs' & db' & H). exfalso.
    destruct (fs !! segmentFilename (segmentId ref)) as [data|];
      [|by rewrite !bind_Ret in H].
    destruct (DecodeFromReader no_entry (NewReader (drop (offset ref) data)))
      as [[[[r' e] n] [err|]]| |] eqn:Hd; try done.
    rewrite !bind_Ret in H.
    apply DecodeFromReader_error in Hd as [(-> & _)|(-> & _)]; by cbn in H.
  - split; [done|]. intros _. exists fs, db. by rewrite !bind_Ret.
Qed.

Lemma dbHandler_GET_404_witness :
  (exists fs' db',
     dbHandler false service_fs service_db (MkRequest "GET" ("/db/" +:+ "k") None)
     = Ret (fs', db', http_NotFound))
  <-> index service_db !! bytes_of_string "k" = None.
Proof. apply dbHandler_GET_404; [reflexivity|discriminate]. Defined.

(** ** More edge behaviour *)

(** Two entries with the same record are the same entry: the format is
    unambiguous (below [2^32] bytes for each key and value). *)
Theorem Encode_inj (k v k' v' : list byte) :
  (Z.of_nat (length k) < 2 ^ 32)%Z -> (Z.of_nat (length v) < 2 ^ 32)%Z ->
  (Z.of_nat (length k') < 2 ^ 32)%Z -> (Z.of_nat (length v') < 2 ^ 32)%Z ->
  Encode (Entry k v) = Encode (Entry k' v') -> k = k' /\ v = v'.
Proof.
  intros Hk Hv Hk' Hv' Heq.
  pose proof (Decode_Encode_small k v Hk Hv) as H.
  rewrite Heq, (Decode_Encode_small k' v' Hk' Hv') in H.
  by injection H as -> ->.
Qed.

Lemma Encode_inj_witness :
  bytes_of_string "k" = [Byte.x6b] /\ bytes_of_string "v" = [Byte.x76].
Proof.
  apply (Encode_inj (bytes_of_string "k") (bytes_of_string "v")
           [Byte.x6b] [Byte.x76]);
    simpl; (lia || reflexivity).
Defined.

(** A record whose size field announces fewer than 12 bytes makes
    [DecodeFromReader] panic: the buffer it allocates is too short for the
    two length fields that [Decode] reads without a check. *)
Theorem DecodeFromReader_small_size (e0 : entry) (r : Reader) (size : Z) :
  4 <= length (remaining r) ->
  Uint32 (remaining r) = Ret size -> (size < 12)%Z ->
  DecodeFromReader e0 r = Panic.
Proof.
  intros Hlen Hsz Hsmall.
  destruct (DecodeFromReader_enough e0 r Hlen)
    as (r' & size' & Hb & Hrem & Hsz' & ->).
  rewrite Hsz in Hsz'. injection Hsz' as <-.
  set (n := Z.to_nat size `min` Buffered r').
  set (buf := take n (remaining r) ++ replicate (Z.to_nat size - n) Byte.x00).
  assert (Hbuf : length buf < 12).
  { unfold buf. rewrite length_app, length_take, length_replicate. lia. }
  destruct (Decode_fit_cases buf) as [[_ HP] _].
  rewrite HP; [done|]. unfold lengths_fit. lia.
Qed.

Lemma DecodeFromReader_small_size_witness :
  DecodeFromReader no_entry (NewReader (le32 8 ++ le32 0)) = Panic.
Proof.
  apply (DecodeFromReader_small_size no_entry (NewReader (le32 8 ++ le32 0)) 8).
  - simpl. lia.
  - reflexivity.
  - lia.
Defined.

Lemma Get_same_db (fs : dir) (db db' : Db) (k v : list byte)
    (err : option error) :
  Get fs db k = Ret (db', v, err) -> db' = db.
Proof.
  unfold Get, RLock, RUnlock. destruct db as [lim seg id off idx [n l] q c w].
  db_simpl. cbn [locked readers]. destruct l; [done|].
  rewrite !bind_Ret. cbn [readers locked]. rewrite bind_Ret. unfold set_mu. db_simpl.
  destruct (idx !! k) as [ref|]; [|by intros [= <- _ _]].
  destruct (fs !! _) as [data|]; [|by intros [= <- _ _]].
  destruct (DecodeFromReader _ _) as [[[[r e] m] [derr|]]| |]; try done;
    rewrite bind_Ret.
  - destruct (errors_Is derr ErrCorrupted); by intros [= <- _ _].
  - by intros [= <- _ _].
Qed.

(** A [Get] that returns leaves the engine as it was: the read lock is
    released on every path, with a value, with an error and for a key that
    is not found, and nothing else is written. *)
Theorem Get_keeps_engine (fs : dir) (db db' : Db) (k v : list byte)
    (err : option error) :
  Get fs db k = Ret (db', v, err) -> db' = db.
Proof. apply Get_same_db. Qed.

Lemma Get_keeps_engine_witness :
  Get rotation_fs rotation_db (bytes_of_string "a")
  = Ret (rotation_db, bytes_of_string "b", None)
  /\ rotation_db = rotation_db.
Proof.
  split; [reflexivity|].
  apply (Get_keeps_engine rotation_fs rotation_db rotation_db
           (bytes_of_string "a") (bytes_of_string "b") None).
  reflexivity.
Defined.

(** A request that is answered with a status of the class 4xx (a missing
    key, a method that is not allowed, a body that does not decode, a key
    that is not found) changes neither the files nor the engine. *)
Theorem dbHandler_client_error (pick_close : bool) (fs fs' : dir) (db db' : Db)
    (r : Request) (resp : Response) :
  dbHandler pick_close fs db r = Ret (fs', db', resp) ->
  400 <= StatusCode resp < 500 ->
  fs' = fs /\ db' = db.
Proof.
  unfold dbHandler. destruct (decide _); [by intros [= <- <- <-]|].
  destruct (decide _).
  { unfold handleGet.
    destruct (Get fs db _) as [[[db1 val] err]| |] eqn:HG; [|done|done].
    apply Get_same_db in HG as ->. rewrite bind_Ret.
    destruct err as [err|]; [destruct (_ || _)|]; rewrite bind_Ret;
      by intros [= <- <- <-]. }
  destruct (decide _); [|by intros [= <- <- <-]].
  unfold handlePost. destruct (Body r) as [v|]; [|by intros [= <- <- <-]].
  destruct (Put _ _ _ _ _) as [[[fs1 db1] err]| |]; [|done|done].
  rewrite bind_Ret. destruct err; intros [= <- <- <-];
    unfold StatusCode, StatusInternalServerError, StatusCreated; lia.
Qed.

Lemma dbHandler_client_error_witness :
  dbHandler false service_fs service_db (MkRequest "DELETE" "/db/k" None)
  = Ret (service_fs, service_db,
         http_Error "method not allowed" StatusMethodNotAllowed)
  /\ service_fs = service_fs /\ service_db = service_db.
Proof.
  split; [reflexivity|].
  apply (dbHandler_client_error false service_fs service_fs service_db service_db
           (MkRequest "DELETE" "/db/k" None)
           (http_Error "method not allowed" StatusMethodNotAllowed)).
  - reflexivity.
  - unfold StatusCode, StatusMethodNotAllowed. lia.
Defined.

(** ** The plain engine on the same stores *)

Lemma Sequential_session_plain (pick_close : bool) (fs fs' : dir) (limit : Z)
    (calls : list call) (db : Db) (rs : list reply) :
  session pick_close fs limit calls = Some (Ret (fs', inl (db, rs))) ->
  Sequential.session fs limit calls = Some (Ret (fs', inl (plain db, rs))).
Proof.
  unfold session, Sequential.session.
  destruct (OpenWithLimit_plain fs limit) as ([o Ho] & Heq & Hserv).
  rewrite <- Heq, Ho. cbn [mbind option_bind fmap option_fmap option_map].
  destruct o as [[fs1 [db1|err]]| |]; cbn; try done.
  rewrite <- (run_plain pick_close calls fs1 db1 (Hserv fs1 db1 Ho)).
  destruct (run pick_close calls fs1 db1) as [[[fs2 db2] rs2]| |]; cbn; try done.
  by intros [= <- <- <-].
Qed.

(** The plain engine, too, answers as a finite map on a directory that
    starts empty, as long as every record fits the buffer of the reader. *)
Theorem Sequential_refines_map (limit : Z) (calls : list call) :
  Forall fits_call calls ->
  exists fs db,
    Sequential.session ∅ limit calls
    = Some (Ret (fs, inl (db, map_run calls ∅))).
Proof.
  intros Hfit. unfold session.
  destruct (OpenWithLimit_empty limit) as [Ho Hst].
  destruct (run_stored false calls _ _ ∅ Hst Hfit) as (fs' & db' & Hrun).
  exists fs', (plain db').
  apply (Sequential_session_plain false). unfold session.
  rewrite Ho. cbn [mbind option_bind]. by rewrite bind_Ret, Hrun.
Qed.

Lemma Sequential_refines_map_witness :
  exists fs db,
    Sequential.session ∅ 50
      [CallPut (bytes_of_string "k") (bytes_of_string "v");
       CallGet (bytes_of_string "k"); CallGet (bytes_of_string "j")]
    = Some (Ret (fs, inl (db, [PutReply None;
                               GetReply (bytes_of_string "v") None;
                               GetReply [] (Some ErrNotFound)]))).
Proof.
  apply (Sequential_refines_map 50
           [CallPut (bytes_of_string "k") (bytes_of_string "v");
            CallGet (bytes_of_string "k"); CallGet (bytes_of_string "j")]).
  repeat (apply Forall_cons; split); try apply Forall_nil; try exact I;
    unfold fits_call, fits, defaultBufSize; simpl; lia.
Defined.

(** The plain engine lays a sequence of [Put]s out in the same segments. *)
Theorem Sequential_Put_sequence_layout (limit : Z)
    (kvs : list (list byte * list byte)) :
  Sequential.session ∅ limit (puts kvs)
  = Some (Ret (segs_fs 1 (pack limit [] [] kvs),
               inl (plain (segs_db limit (pack limit [] [] kvs)),
                    replicate (length kvs) (PutReply None)))).
Proof.
  apply (Sequential_session_plain false). apply session_puts_segs.
Qed.

(** The plain engine recovers the same small stores. *)
Theorem Sequential_OpenWithLimit_recovers (limit : Z)
    (segs : list (list (list byte * list byte))) :
  1 <= length segs <= 9 ->
  Forall (fun recs => length (log_bytes recs) <= defaultBufSize) segs ->
  Sequential.OpenWithLimit (segs_fs 1 segs) limit
  = Some (Ret (segs_fs 1 segs, inl (plain (segs_db limit segs)))).
Proof.
  intros Hn Hlen.
  destruct (OpenWithLimit_plain (segs_fs 1 segs) limit) as (_ & <- & _).
  by rewrite OpenWithLimit_segs.
Qed.

Lemma Sequential_OpenWithLimit_recovers_witness :
  Sequential.OpenWithLimit
    (segs_fs 1 [[(bytes_of_string "a", bytes_of_string "1")];
                [(bytes_of_string "a", bytes_of_string "3")]]) 40
  = Some (Ret (segs_fs 1 [[(bytes_of_string "a", bytes_of_string "1")];
                          [(bytes_of_string "a", bytes_of_string "3")]],
               inl (plain (segs_db 40
                             [[(bytes_of_string "a", bytes_of_string "1")];
                              [(bytes_of_string "a", bytes_of_string "3")]])))).
Proof.
  apply Sequential_OpenWithLimit_recovers.
  - cbn [length]. lia.
  - repeat (apply Forall_cons; split); try apply Forall_nil; try exact I;
      cbn [log_bytes]; rewrite ?length_app, !length_Encode;
      unfold defaultBufSize; simpl; lia.
Defined.

Lemma engine_refines_map_witness :
  exists fs db,
    session false ∅ 50
      [CallPut (bytes_of_string "k") (bytes_of_string "v");
       CallPut (bytes_of_string "k") (bytes_of_string "w");
       CallGet (bytes_of_string "k"); CallGet (bytes_of_string "j")]
    = Some (Ret (fs, inl (db, [PutReply None; PutReply None;
                               GetReply (bytes_of_string "w") None;
                               GetReply [] (Some ErrNotFound)]))).
Proof.
  apply (engine_refines_map false 50
           [CallPut (bytes_of_string "k") (bytes_of_string "v");
            CallPut (bytes_of_string "k") (bytes_of_string "w");
            CallGet (bytes_of_string "k"); CallGet (bytes_of_string "j")]).
  repeat (apply Forall_cons; split); try apply Forall_nil; try exact I;
    unfold fits_call, fits, defaultBufSize; simpl; lia.
Defined.

(** ** The index after writes of any size *)

Lemma writeEntry_held (fs : dir) (db : Db) (m : gmap (list byte) (list byte))
    (k v : list byte) :
  held fs db m ->
  exists fs' db',
    writeEntry fs db k v = Ret (fs', db', None)
    /\ held fs' db' (<[k := v]> m)
    /\ (currentSegmentId db <= currentSegmentId db'
        <= currentSegmentId db + 1)%Z.
Proof.
  intros (Hs & (data & Hf & Hcur & Hlen) & Hhigh & Hdom & Hidx).
  pose proof Hs as (Hc & Hw & Hq & Hmu & _).
  rewrite (writeEntry_spec fs db k v _ Hf eq_refl Hmu). cbv zeta.
  set (enc := Encode (Entry k v)). set (cid := currentSegmentId db) in *.
  destruct (decide (Z.of_nat (currentOffset db + length enc) > segmentLimit db)%Z)
    as [Hrot|Hrot].
  - set (new := segmentFilename (cid + 1)).
    assert (Hnew : fs !! new = None) by (apply Hhigh; lia).
    rewrite Hnew. cbn [default app].
    eexists _, _. split; [reflexivity|]. split; [|db_simpl; lia].
    unfold held, in_service. db_simpl.
    split; [by eauto 10|]. split.
    { exists enc. split; [done|]. split; [|done]. apply lookup_insert_eq. }
    split.
    { intros j Hj. rewrite lookup_insert_ne; [apply Hhigh; lia|].
      intros Heq. apply segmentFilename_inj in Heq. lia. }
    split.
    { intros k'. destruct (decide (k = k')) as [->|Hne].
      - by rewrite !lookup_insert_eq.
      - rewrite !lookup_insert_ne by done. apply Hdom. }
    intros k' ref. destruct (decide (k = k')) as [<-|Hne].
    + rewrite lookup_insert_eq. intros [= <-]. cbn [segmentId offset].
      exists v, [], []. rewrite lookup_insert_eq, app_nil_r.
      split; [done|]. split; [|done]. apply lookup_insert_eq.
    + rewrite lookup_insert_ne by done. intros Hk.
      destruct (Hidx k' ref Hk) as (v' & pre & rest & Hm & Hfile & Hpre).
      exists v', pre, rest. rewrite lookup_insert_ne by done.
      split; [done|]. split; [|done].
      rewrite lookup_insert_ne; [done|]. intros Heq. by rewrite <- Heq, Hnew in Hfile.
  - cbn [fname]. fold cid. rewrite Hcur. cbn [default].
    eexists _, _. split; [reflexivity|]. split; [|db_simpl; lia].
    unfold held, in_service. db_simpl. fold cid.
    split; [by eauto 10|]. split.
    { exists (data ++ enc). split; [done|]. split; [apply lookup_insert_eq|].
      rewrite length_app. lia. }
    split.
    { intros j Hj. rewrite lookup_insert_ne; [apply Hhigh; lia|].
      intros Heq. apply segmentFilename_inj in Heq. lia. }
    split.
    { intros k'. destruct (decide (k = k')) as [->|Hne].
      - by rewrite !lookup_insert_eq.
      - rewrite !lookup_insert_ne by done. apply Hdom. }
    intros k' ref. destruct (decide (k = k')) as [<-|Hne].
    + rewrite lookup_insert_eq. intros [= <-]. cbn [segmentId offset].
      exists v, data, []. rewrite !lookup_insert_eq, app_nil_r.
      split; [done|]. split; done.
    + rewrite lookup_insert_ne by done. intros Hk.
      destruct (Hidx k' ref Hk) as (v' & pre & rest & Hm & Hfile & Hpre).
      rewrite lookup_insert_ne by done.
      destruct (decide (segmentFilename cid = segmentFilename (segmentId ref)))
        as [Heq|Hneq].
      * rewrite <- Heq in *. rewrite Hcur in Hfile. injection Hfile as ->.
        exists v', pre, (rest ++ enc). rewrite lookup_insert_eq.
        split; [done|]. split; [|done].
        unfold id. by rewrite <- !app_assoc.
      * exists v', pre, rest. rewrite lookup_insert_ne by done. done.
Qed.

Lemma held_empty (limit : Z) :
  held (segs_fs 1 [[]]) (segs_db limit [[]]) ∅.
Proof.
  unfold held. split; [apply in_service_segs_db|].
  split.
  { exists []. split; [reflexivity|]. split; [|done]. reflexivity. }
  split.
  { intros j Hj. cbn in Hj. apply (files_lookup_ge 1 j [[]]). cbn. lia. }
  split; [done|]. intros k ref. by rewrite lookup_empty.
Qed.

(** A [Put] on an engine that holds a map, with a current id below the
    largest [int], never fails, whatever the size of the record, not even
    past the segment limit, and the engine holds the map with the new value
    after it: the write offset is still the size of the current segment, no
    segment has a higher id than the current one, which has grown by one at
    most, and every key of the index still points at the start of a record
    of this key and of its last value. *)
Theorem Put_held (pick_close : bool) (fs : dir) (db : Db)
    (m : gmap (list byte) (list byte)) (k v : list byte) :
  held fs db m -> (currentSegmentId db < 2 ^ 63 - 1)%Z ->
  exists fs' db',
    Put pick_close fs db k v = Ret (fs', db', None)
    /\ held fs' db' (<[k := v]> m)
    /\ (currentSegmentId db <= currentSegmentId db' <= currentSegmentId db + 1)%Z
    /\ (currentSegmentId db' < 2 ^ 63)%Z.
Proof.
  intros Hh Hid. rewrite (Put_writeEntry _ _ _ _ _ (proj1 Hh)).
  destruct (writeEntry_held fs db m k v Hh) as (fs' & db' & Hw & Hh' & Hid').
  exists fs', db'. split; [done|]. split; [done|]. split; [done|]. lia.
Qed.

Lemma Put_held_witness :
  exists fs' db',
    Put false (segs_fs 1 [[]]) (segs_db 50 [[]])
      (bytes_of_string "k") (replicate 5000 Byte.x00)
    = Ret (fs', db', None)
    /\ held fs' db' (<[bytes_of_string "k" := replicate 5000 Byte.x00]> ∅)
    /\ (currentSegmentId (segs_db 50 [[]]) <= currentSegmentId db'
        <= currentSegmentId (segs_db 50 [[]]) + 1)%Z
    /\ (currentSegmentId db' < 2 ^ 63)%Z.
Proof. apply Put_held; [apply held_empty|cbn; lia]. Defined.

(** ** Damaged records *)

(** Bytes at the head of a stream that announce their own length are read
    whole when they fit the buffer, and handed to [Decode]. *)
Lemma DecodeFromReader_bytes (e0 : entry) (rec rest : list byte) :
  Uint32 rec = Ret (Z.of_nat (length rec)) ->
  length rec <= defaultBufSize ->
  exists r',
    DecodeFromReader e0 (NewReader (rec ++ rest))
    = ('(e, derr) ← Decode rec; Ret (r', e, length rec, derr)).
Proof.
  intros Hsz Hfit.
  assert (H4 : 4 <= length rec).
  { destruct rec as [|b0 [|b1 [|b2 [|b3 rec]]]]; try done. cbn. lia. }
  assert (Hsz' : Uint32 (take 4 (rec ++ rest)) = Ret (Z.of_nat (length rec))).
  { rewrite <- Hsz. by destruct rec as [|b0 [|b1 [|b2 [|b3 rec]]]]. }
  unfold DecodeFromReader.
  rewrite Peek_NewReader by (rewrite length_app; lia).
  rewrite Hsz', bind_Ret, Nat2Z.id.
  unfold Read, Buffered; cbn [rbuf rsrc].
  rewrite decide_False by lia.
  rewrite decide_False by (rewrite length_take, length_app; lia).
  rewrite take_take, Nat.min_l by lia.
  rewrite take_app_length, Nat.sub_diag. cbn [replicate]. rewrite app_nil_r.
  eexists. destruct (Decode rec) as [[e derr]| |]; reflexivity.
Qed.

Lemma flipped_record (k v : list byte) (off : nat) (mask : Z) :
  (Z.of_nat (12 + length k + length v + 20) < 2 ^ 32)%Z ->
  let t := xor_at (4 + off) mask (Encode (Entry k v)) in
  length t = length (Encode (Entry k v))
  /\ Uint32 t = Ret (Z.of_nat (length t)).
Proof.
  intros Hfit t. assert (Hl : length t = length (Encode (Entry k v)))
    by apply length_xor_at.
  split; [done|]. rewrite Hl, length_Encode. unfold t.
  rewrite Encode_record_bytes. unfold record_bytes.
  rewrite <- (length_le32 (uint32 (12 + length k + length v + 20))) at 1.
  rewrite xor_at_app_r, Uint32_le32. f_equal.
  unfold uint32. rewrite Z.mod_mod by lia. by apply Z.mod_small; lia.
Qed.

(** A [Get] of a key whose record has one bit of its checksum flipped in
    the file returns the hash mismatch of [Decode], as it comes: the error is
    not [ErrCorrupted], and the value is not returned. *)
Theorem Get_flipped_checksum (fs : dir) (db : Db) (k v pre rest : list byte)
    (ref : segmentRef) (i j : nat) :
  mu db = MkMu 0 false -> index db !! k = Some ref ->
  fs !! segmentFilename (segmentId ref)
  = Some (pre ++ xor_at (12 + length k + length v + i) (2 ^ Z.of_nat j)
                   (Encode (Entry k v)) ++ rest) ->
  length pre = offset ref -> fits k v -> i < 20 -> j < 8 ->
  Get fs db k = Ret (db, [], Some (ErrHashMismatch k)).
Proof.
  intros Hmu Hk Hfile Hpre Hfit Hi Hj. pose proof defaultBufSize_small as HB.
  unfold fits in Hfit.
  rewrite (Get_free _ _ _ Hmu), Hk, Hfile, drop_app_length' by done.
  destruct (flipped_record k v (8 + length k + length v + i) (2 ^ Z.of_nat j))
    as [Hl Hsz]; [lia|].
  replace (4 + (8 + length k + length v + i))
    with (12 + length k + length v + i) in * by lia.
  destruct (DecodeFromReader_bytes no_entry _ rest Hsz) as [r' ->].
  { rewrite Hl, length_Encode. lia. }
  rewrite Decode_flipped_checksum by lia. by rewrite !bind_Ret.
Qed.

Lemma Get_flipped_checksum_witness :
  Get {["segment-1" :=
          [] ++ xor_at (12 + length (bytes_of_string "a")
                        + length (bytes_of_string "b") + 19) (2 ^ Z.of_nat 0)
                  (Encode (Entry (bytes_of_string "a") (bytes_of_string "b")))
             ++ []]}
    rotation_db (bytes_of_string "a")
  = Ret (rotation_db, [], Some (ErrHashMismatch (bytes_of_string "a"))).
Proof.
  apply (Get_flipped_checksum _ rotation_db (bytes_of_string "a")
           (bytes_of_string "b") [] [] (MkRef 1 0) 19 0).
  - reflexivity.
  - reflexivity.
  - reflexivity.
  - reflexivity.
  - unfold fits, defaultBufSize. simpl. lia.
  - lia.
  - lia.
Defined.
Lemma DecodeFromReader_bytes_whole (e0 : entry) (r : Reader)
    (rec rest : list byte) :
  rbuf r = [] \/ rsrc r = [] ->
  remaining r = rec ++ rest ->
  length (remaining r) <= defaultBufSize ->
  Uint32 rec = Ret (Z.of_nat (length rec)) ->
  DecodeFromReader e0 r
  = ('(e, derr) ← Decode rec; Ret (MkReader rest [], e, length rec, derr)).
Proof.
  intros Hr Hrem Hlen Hsz.
  assert (H4 : 4 <= length rec).
  { destruct rec as [|b0 [|b1 [|b2 [|b3 rec]]]]; try done. cbn. lia. }
  assert (Hl : length (remaining r) = length rec + length rest)
    by (by rewrite Hrem, length_app).
  assert (Hsz' : Uint32 (take 4 (rec ++ rest)) = Ret (Z.of_nat (length rec))).
  { rewrite <- Hsz. by destruct rec as [|b0 [|b1 [|b2 [|b3 rec]]]]. }
  unfold DecodeFromReader. rewrite Peek_4_whole by (done || lia).
  rewrite Hrem, Hsz', bind_Ret, Nat2Z.id.
  unfold Read, Buffered; cbn [rbuf rsrc].
  rewrite decide_False by lia.
  rewrite decide_False by (rewrite length_app; lia).
  rewrite take_app_length, drop_app_length, Nat.sub_diag.
  cbn [replicate]. rewrite app_nil_r.
  destruct (Decode rec) as [[e derr]| |]; reflexivity.
Qed.

(** The loop of [recoverSegment] over the whole records at the head of a
    segment that the buffer holds whole. *)
Lemma recover_loop_prefix (recs : list (list byte * list byte)) (tail : list byte)
    (id : Z) (r : Reader) (off : nat) (idx : hashIndex) :
  rbuf r = [] \/ rsrc r = [] ->
  remaining r = log_bytes recs ++ tail ->
  length (remaining r) <= defaultBufSize ->
  exists r',
    (rbuf r' = [] \/ rsrc r' = []) /\ remaining r' = tail
    /\ forall fuel,
         recover_loop (length recs + fuel) id r off idx
         = recover_loop fuel id r' (off + length (log_bytes recs))
             (log_index id off recs idx).
Proof.
  revert r off idx.
  induction recs as [|[k v] recs IH]; intros r off idx Hr Hrem Hlen.
  - exists r. split; [done|]. split; [done|]. intros fuel. cbn.
    by rewrite Nat.add_0_r.
  - cbn [log_bytes] in Hrem. rewrite <- app_assoc in Hrem.
    destruct (IH (MkReader (log_bytes recs ++ tail) [])
                (off + length (Encode (Entry k v))) (<[k := MkRef id off]> idx))
      as (r' & Hr' & Hrem' & Hloop).
    + by right.
    + unfold remaining; cbn [rbuf rsrc]. apply app_nil_r.
    + unfold remaining; cbn [rbuf rsrc]. rewrite app_nil_r.
      rewrite Hrem, length_app in Hlen. lia.
    + exists r'. split; [done|]. split; [done|]. intros fuel.
      cbn [length plus recover_loop log_bytes log_index].
      rewrite (DecodeFromReader_whole_stream no_entry r k v _ Hr Hrem Hlen).
      cbn [key]. rewrite Hloop. rewrite length_app. f_equal. lia.
Qed.

(** One flipped bit in the checksum of one record of the only segment, and
    the store does not open any more: [OpenWithLimit] returns the hash
    mismatch of this record as the error of a corrupted segment, whatever
    the records before it and the bytes after it. *)
Theorem OpenWithLimit_flipped_checksum (limit : Z)
    (before : list (list byte * list byte)) (k v rest : list byte) (i j : nat) :
  let data :=
    log_bytes before
    ++ xor_at (12 + length k + length v + i) (2 ^ Z.of_nat j) (Encode (Entry k v))
    ++ rest in
  length data <= defaultBufSize -> i < 20 -> j < 8 ->
  OpenWithLimit {["segment-1" := data]} limit
  = Some (Ret ({["segment-1" := data]},
               inr (Wrap "corrupted segment" (ErrHashMismatch k)))).
Proof.
  intros data Hlen Hi Hj. pose proof defaultBufSize_small as HB.
  set (t := xor_at (12 + length k + length v + i) (2 ^ Z.of_nat j)
              (Encode (Entry k v))) in *.
  destruct (flipped_record k v (8 + length k + length v + i) (2 ^ Z.of_nat j))
    as [Hl Hsz].
  { unfold data in Hlen. rewrite !length_app in Hlen.
    fold t in Hlen. pose proof (length_xor_at (12 + length k + length v + i)
      (2 ^ Z.of_nat j) (Encode (Entry k v))) as Hlt. fold t in Hlt.
    rewrite length_Encode in Hlt. lia. }
  replace (4 + (8 + length k + length v + i))
    with (12 + length k + length v + i) in * by lia.
  fold t in Hl, Hsz.
  change {["segment-1" := data]} with (files 1 [data]).
  unfold OpenWithLimit, loadSegments. cbv zeta.
  rewrite (scan_ids_files [data]) by (cbn; lia).
  cbn [length ids_from]. rewrite decide_False by done.
  cbn [recover_all]. rewrite decide_True by lia.
  unfold recoverSegment.
  assert (Hfile : files 1 [data] !! segmentFilename 1 = Some data)
    by apply lookup_insert_eq.
  rewrite Hfile.
  destruct (recover_loop_prefix before (t ++ rest) 1 (NewReader data) 0 ∅)
    as (r' & Hr' & Hrem' & Hloop); [by left|done|done|].
  pose proof (length_log_bytes before) as Hb.
  assert (Hdata : length data = length (log_bytes before) + (length t + length rest))
    by (unfold data; by rewrite !length_app).
  replace (S (length data))
    with (length before + S (length data - length before)) by lia.
  db_simpl. rewrite Hloop. cbn [recover_loop].
  rewrite (DecodeFromReader_bytes_whole no_entry r' t rest Hr' Hrem');
    [|rewrite Hrem', length_app; lia|done].
  unfold t. rewrite Decode_flipped_checksum by (rewrite length_Encode in Hl; lia).
  reflexivity.
Qed.

Lemma OpenWithLimit_flipped_checksum_witness :
  OpenWithLimit
    {["segment-1" :=
        log_bytes [(bytes_of_string "a", bytes_of_string "1")]
        ++ xor_at (12 + length (bytes_of_string "b")
                   + length (bytes_of_string "2") + 0) (2 ^ Z.of_nat 7)
             (Encode (Entry (bytes_of_string "b") (bytes_of_string "2")))
        ++ []]} 100
  = Some (Ret ({["segment-1" :=
                   log_bytes [(bytes_of_string "a", bytes_of_string "1")]
                   ++ xor_at (12 + length (bytes_of_string "b")
                              + length (bytes_of_string "2") + 0) (2 ^ Z.of_nat 7)
                        (Encode (Entry (bytes_of_string "b") (bytes_of_string "2")))
                   ++ []]},
               inr (Wrap "corrupted segment"
                      (ErrHashMismatch (bytes_of_string "b"))))).
Proof.
  apply (OpenWithLimit_flipped_checksum 100
           [(bytes_of_string "a", bytes_of_string "1")]
           (bytes_of_string "b") (bytes_of_string "2") [] 0 7).
  - rewrite !length_app, length_xor_at. cbn [log_bytes].
    rewrite !length_app, !length_Encode. unfold defaultBufSize. simpl. lia.
  - lia.
  - lia.
Defined.

(** ** The size of the store *)

Lemma pack_snoc (limit : Z) (kvs : list (list byte * list byte))
    (full : list (list (list byte * list byte)))
    (cur : list (list byte * list byte)) :
  exists full' cur', pack limit full cur kvs = full' ++ [cur'].
Proof.
  revert full cur. induction kvs as [|[k v] kvs IH]; intros full cur; cbn [pack].
  - by eauto.
  - destruct (decide _); apply IH.
Qed.

(** After any sequence of [Put]s from an empty directory, [Size] returns
    the number of bytes of the file of the current segment, not of the whole
    store: after a rotation it starts again from the first record of the
    new segment. *)
Theorem Size_current_segment (pick_close : bool) (limit : Z)
    (kvs : list (list byte * list byte)) :
  exists fs db rs data,
    session pick_close ∅ limit (puts kvs) = Some (Ret (fs, inl (db, rs)))
    /\ fs !! segmentFilename (currentSegmentId db) = Some data
    /\ Size db = (length data, None).
Proof.
  destruct (pack_snoc limit kvs [] []) as (full & cur & Hp).
  eexists _, _, _, (log_bytes cur). split; [apply session_puts_segs|].
  rewrite Hp, segs_db_snoc, segs_fs_snoc. db_simpl. split; [|done].
  apply lookup_insert_eq.
Qed.
